(** * osx-sign: [src/util.ts]

    A shallow embedding of the bundle walker ([compactFlattenedList],
    [getFilePathIfBinary] and [walk] with its inner [_walkAsync]), of the
    part of Node's [fs] and [path] modules it calls, and of the other
    functions of the file: [removePassword], [getAppContentsPath],
    [getAppFrameworksPath], [detectElectronPlatform], [validateOptsApp]
    and [validateOptsPlatform].

    Conventions.
    - A path is the list of the components of an absolute, normalised path:
      [["Users"; "me"; "App.app"]] stands for [/Users/me/App.app].
      [fs.readdir] returns entry names (never [.], [..], never a name with a
      slash), so [path.resolve dirPath child] is [dirPath ++ [child]].
    - An [async] function is a computation over a world (the filesystem and
      the trace of the [fs] calls awaited so far) that resolves, rejects, or
      runs out of the fuel that bounds the recursion depth of the model.
    - The children of a directory are walked concurrently.  [walk] and
      [run_walk] take the calls in one order of completion, child after
      child; the tasks of section "Concurrent children" take them in every
      order, and [run_walk] is one of their executions ([run_walk_exec]). *)

From Stdlib Require Import List String Ascii Bool Arith Lia.
Import ListNotations.
Open Scope string_scope.
Open Scope list_scope.

Set Implicit Arguments.

(** ** Paths *)

Definition path := list string.

(** [path.resolve(dirPath, child)] for an absolute [dirPath] and an entry
    name [child]. *)
Definition path_resolve (dirPath : path) (child : string) : path :=
  dirPath ++ [child].

(** The string a path stands for: [/c1/c2/.../cn], and [/] for the root. *)
Fixpoint path_components_string (p : path) : string :=
  match p with
  | [] => ""
  | c :: rest => ("/" ++ c ++ path_components_string rest)%string
  end.

Definition path_string (p : path) : string :=
  match p with
  | [] => "/"
  | _ => path_components_string p
  end.

(** The suffix of [s] that starts at its last dot, if [s] has a dot. *)
Fixpoint last_dot_suffix (s : string) : option string :=
  match s with
  | EmptyString => None
  | String c rest =>
      match last_dot_suffix rest with
      | Some e => Some e
      | None => if Ascii.eqb c "." then Some s else None
      end
  end.

(** Node's [path.extname] on one path component: from the last dot to the
    end; empty when there is no dot, when the only dot is the first
    character, or when the component is [..]. *)
Definition basename_extname (base : string) : string :=
  match base with
  | EmptyString => ""
  | String _ rest =>
      match last_dot_suffix rest with
      | Some e => if String.eqb base ".." then "" else e
      | None => ""
      end
  end.

(** [path.extname(filePath)]: the extension of the last component. *)
Definition extname (filePath : path) : string :=
  basename_extname (last filePath "").

(** [X] lies inside the subtree of [B]: [B] is a proper prefix of [X]. *)
Definition inside (X B : path) : Prop :=
  exists rest, rest <> [] /\ X = B ++ rest.

(** ** JavaScript truthiness *)

Class Truthy (T : Type) := truthy : T -> bool.

(** A string is falsy exactly when it is empty. *)
#[export] Instance string_Truthy : Truthy string :=
  fun s => negb (String.eqb s "").

(** A path is the string it stands for. *)
#[export] Instance path_Truthy : Truthy path :=
  fun p => truthy (path_string p).

(** ** Nested lists: [DeepListItem<T>] and [DeepList<T>] *)

#[local] Unset Elimination Schemes.
Inductive DeepListItem (T : Type) : Type :=
| Null : DeepListItem T
| Item : T -> DeepListItem T
| Arr : list (DeepListItem T) -> DeepListItem T.

#[local] Set Elimination Schemes.

Arguments Null {T}.
Arguments Item {T} _.
Arguments Arr {T} _.

Definition DeepList (T : Type) := list (DeepListItem T).

Section DeepList_induction.
Variable T : Type.
Variable P : DeepListItem T -> Prop.
Hypothesis P_Null : P Null.
Hypothesis P_Item : forall x, P (Item x).
Hypothesis P_Arr : forall items, Forall P items -> P (Arr items).

Fixpoint DeepListItem_nested_ind (d : DeepListItem T) : P d :=
  match d with
  | Null => P_Null
  | Item x => P_Item x
  | Arr items =>
      P_Arr ((fix all (l : list (DeepListItem T)) : Forall P l :=
                match l with
                | [] => Forall_nil P
                | i :: l' => Forall_cons i (DeepListItem_nested_ind i) (all l')
                end) items)
  end.
End DeepList_induction.

Section Flatten.
Context {T : Type} `{Truthy T}.

(** [if (item)]: [null] is falsy, an array is truthy (also the empty
    one), an item of type [T] has its own truthiness. *)
Definition item_truthy (item : DeepListItem T) : bool :=
  match item with
  | Null => false
  | Item x => truthy x
  | Arr _ => true
  end.

(** [populateResult]; the captured array [result] is passed and returned. *)
Fixpoint populateResult (lst : DeepListItem T) (result : list T) : list T :=
  match lst with
  | Arr items =>
      if Nat.ltb 0 (List.length items)
      then fold_left
             (fun result item =>
                if item_truthy item then populateResult item result else result)
             items result
      else result
  | Item x => if truthy x then result ++ [x] else result
  | Null => result
  end.

Definition compactFlattenedList (lst : DeepList T) : list T :=
  populateResult (Arr lst) [].

(** What the specification asks for: the leaves that are not [null],
    depth first, left to right. *)
Fixpoint nonnull_leaves (d : DeepListItem T) : list T :=
  match d with
  | Null => []
  | Item x => [x]
  | Arr items => flat_map nonnull_leaves items
  end.

(** A sequence without nested sequences. *)
Definition is_leaf (d : DeepListItem T) : bool :=
  match d with
  | Arr _ => false
  | _ => true
  end.

Definition flat (lst : DeepList T) : bool := forallb is_leaf lst.

(** The elements of a sequence that are not [null] (its nested sequences
    count as elements and are kept out of this list of items). *)
Definition nonnull_elements (lst : DeepList T) : list T :=
  flat_map (fun d => match d with Item x => [x] | _ => [] end) lst.
End Flatten.

(** ** The filesystem

    A tree of nodes.  A directory maps names to nodes: its entries are an
    association list in listing order whose first binding of a name is the
    entry (a later binding of the same name is shadowed, and no operation
    sees it).  The target of a symbolic link is an absolute path.  A regular
    file carries the verdict of the content sniffing of the [isbinaryfile]
    package on its bytes. *)

Record mode : Set := Mode { can_read : bool; can_write : bool; can_search : bool }.

Definition rwx : mode := Mode true true true.

#[local] Unset Elimination Schemes.
Inductive node : Set :=
| File (m : mode) (binary : bool)
| Dir (m : mode) (entries : list (string * node))
| Symlink (target : path)
| Special.
#[local] Set Elimination Schemes.

Inductive errno : Set :=
| ENOENT | EACCES | ENOTDIR | ELOOP | EISDIR | EPERM | ERR_NOT_A_FILE.

Inductive syscall : Set := sys_scandir | sys_stat | sys_rm | sys_open.

Record fs_error : Set :=
  FsError { code : errno; call : syscall; err_path : path }.

Inductive result (A : Type) : Type :=
| Ok (a : A)
| Err (e : fs_error).

Arguments Ok {A} a.
Arguments Err {A} e.

(** [fs.Stats]: the file type bits of [st_mode]. *)
Inductive file_type : Set := S_IFREG | S_IFDIR | S_IFLNK | S_IFOTHER.

Record Stats : Set := { st_type : file_type }.

Definition isFile (st : Stats) : bool :=
  match st_type st with S_IFREG => true | _ => false end.

Definition isDirectory (st : Stats) : bool :=
  match st_type st with S_IFDIR => true | _ => false end.

Definition isSymbolicLink (st : Stats) : bool :=
  match st_type st with S_IFLNK => true | _ => false end.

Definition stats_of (n : node) : Stats :=
  {| st_type := match n with
                | File _ _ => S_IFREG
                | Dir _ _ => S_IFDIR
                | Symlink _ => S_IFLNK
                | Special => S_IFOTHER
                end |}.

(** The entry of a directory under a name: the first binding. *)
Fixpoint lookup_entry (name : string) (entries : list (string * node)) : option node :=
  match entries with
  | [] => None
  | (k, n) :: rest => if String.eqb k name then Some n else lookup_entry name rest
  end.

(** The names of a directory in listing order, each once, at the place of
    its first binding. *)
Fixpoint entry_names (entries : list (string * node)) : list string :=
  match entries with
  | [] => []
  | (k, _) :: rest =>
      k :: filter (fun k' => negb (String.eqb k' k)) (entry_names rest)
  end.

(** The number of symbolic links one path resolution may follow (Darwin's
    [MAXSYMLINKS]); one more is [ELOOP]. *)
Definition MAXSYMLINKS : nat := 32.

(** One pass of path resolution from the directory [cur], whose link-free
    path is [phys], along the components [p]; a symbolic link hands its
    target and the components left to [follow]. *)
Fixpoint descend (follow : path -> errno + (path * node))
  (phys : path) (cur : node) (p : path) {struct p} : errno + (path * node) :=
  match p with
  | [] => inr (phys, cur)
  | c :: rest =>
      match cur with
      | Dir m entries =>
          if can_search m then
            match lookup_entry c entries with
            | None => inl ENOENT
            | Some (Symlink target) => follow (target ++ rest)
            | Some n => descend follow (phys ++ [c]) n rest
            end
          else inl EACCES
      | _ => inl ENOTDIR
      end
  end.

(** Path resolution that follows every symbolic link, the last component's
    too, [hops] links at most: the node a path leads to and the link-free
    path of that node. *)
Fixpoint namei (hops : nat) (root : node) (p : path) {struct hops}
  : errno + (path * node) :=
  descend
    (match hops with
     | 0 => fun _ => inl ELOOP
     | S hops' => fun p' => namei hops' root p'
     end) [] root p.

(** What [namei] hands a symbolic link to when [hops] links may still be
    followed. *)
Definition follow_of (hops : nat) (root : node) : path -> errno + (path * node) :=
  match hops with
  | 0 => fun _ => inl ELOOP
  | S hops' => fun p => namei hops' root p
  end.

(** [fs.promises.stat]: follows symbolic links. *)
Definition stat (s : node) (p : path) : result Stats :=
  match namei MAXSYMLINKS s p with
  | inr (_, n) => Ok (stats_of n)
  | inl c => Err (FsError c sys_stat p)
  end.

Definition split_last (p : path) : option (path * string) :=
  match rev p with
  | [] => None
  | name :: rparent => Some (rev rparent, name)
  end.

(** [fs.promises.lstat]: the entry itself, a symbolic link as a link.  The
    walker does not call it; it says what an entry is. *)
Definition lstat (s : node) (p : path) : result Stats :=
  match split_last p with
  | None => Ok (stats_of s)
  | Some (parent, name) =>
      match namei MAXSYMLINKS s parent with
      | inr (_, Dir m entries) =>
          if can_search m then
            match lookup_entry name entries with
            | Some n => Ok (stats_of n)
            | None => Err (FsError ENOENT sys_stat p)
            end
          else Err (FsError EACCES sys_stat p)
      | inr (_, _) => Err (FsError ENOTDIR sys_stat p)
      | inl c => Err (FsError c sys_stat p)
      end
  end.

(** [fs.promises.readdir]. *)
Definition readdir (s : node) (p : path) : result (list string) :=
  match namei MAXSYMLINKS s p with
  | inr (_, Dir m entries) =>
      if can_read m then Ok (entry_names entries)
      else Err (FsError EACCES sys_scandir p)
  | inr (_, _) => Err (FsError ENOTDIR sys_scandir p)
  | inl c => Err (FsError c sys_scandir p)
  end.

(** [isBinaryFile] of the [isbinaryfile] package: stat the path, refuse
    what is not a regular file, open and read it, sniff the bytes. *)
Definition isBinaryFile (s : node) (p : path) : result bool :=
  match namei MAXSYMLINKS s p with
  | inr (_, File m binary) =>
      if can_read m then Ok binary else Err (FsError EACCES sys_open p)
  | inr (_, _) => Err (FsError ERR_NOT_A_FILE sys_stat p)
  | inl c => Err (FsError c sys_stat p)
  end.

(** The directory at the link-free path [phys] loses its entry [name]. *)
Fixpoint remove_at (phys : path) (name : string) (n : node) : node :=
  match n with
  | Dir m entries =>
      match phys with
      | [] => Dir m (filter (fun e => negb (String.eqb (fst e) name)) entries)
      | c :: rest =>
          Dir m (map (fun e => if String.eqb (fst e) c
                               then (fst e, remove_at rest name (snd e))
                               else e) entries)
      end
  | _ => n
  end.

Record rm_options : Set := { recursive : bool; force : bool }.

Definition is_dir (n : node) : bool :=
  match n with Dir _ _ => true | _ => false end.

(** [fs.promises.rm]: removes the entry itself (a symbolic link, not its
    target).  With [force] a path that does not exist is no error.  The
    permissions inside a directory removed recursively are not looked at. *)
Definition rm (s : node) (p : path) (o : rm_options) : result node :=
  match split_last p with
  | None => Err (FsError EPERM sys_rm p)
  | Some (parent, name) =>
      match namei MAXSYMLINKS s parent with
      | inr (phys, Dir m entries) =>
          if can_search m then
            match lookup_entry name entries with
            | None => if force o then Ok s else Err (FsError ENOENT sys_rm p)
            | Some n =>
                if is_dir n && negb (recursive o) then Err (FsError EISDIR sys_rm p)
                else if can_write m then Ok (remove_at phys name s)
                else Err (FsError EACCES sys_rm p)
            end
          else Err (FsError EACCES sys_rm p)
      | inr (_, _) => Err (FsError ENOTDIR sys_rm p)
      | inl ENOENT => if force o then Ok s else Err (FsError ENOENT sys_rm p)
      | inl c => Err (FsError c sys_rm p)
      end
  end.

(** What is left of [p] after the prefix [pre], if [pre] is a prefix. *)
Fixpoint strip_prefix (pre p : path) : option path :=
  match pre, p with
  | [], _ => Some p
  | a :: pre', b :: p' => if String.eqb a b then strip_prefix pre' p' else None
  | _ :: _, [] => None
  end.

(** The node [n] at the link-free path [phys], once the directory at the
    link-free path [P] has lost its entry [name]. *)
Definition residual (P : path) (name : string) (phys : path) (n : node) : node :=
  match strip_prefix phys P with
  | Some rel => remove_at rel name n
  | None => n
  end.

(** The node at a link-free path: no symbolic link is followed. *)
Fixpoint node_at (n : node) (phys : path) : option node :=
  match phys with
  | [] => Some n
  | c :: rest =>
      match n with
      | Dir _ entries =>
          match lookup_entry c entries with
          | Some child => node_at child rest
          | None => None
          end
      | _ => None
      end
  end.

(** The height of a tree: the number of directories on its longest
    branch. *)
Fixpoint height (n : node) : nat :=
  match n with
  | Dir _ entries => S (list_max (map (fun e => height (snd e)) entries))
  | _ => 0
  end.

(** No path longer than this resolves in a tree: between two symbolic
    links a resolution goes down the tree. *)
Definition longest_path (s : node) : nat := S MAXSYMLINKS * height s.

(** ** Asynchronous computations

    The world is the filesystem and the trace of the [fs] calls that have
    completed, oldest first.  A promise resolves with a value, rejects with
    an error, or the model runs out of fuel; each keeps the world it
    stopped in. *)

Inductive event : Type :=
| EvReaddir (p : path) (r : result (list string))
| EvStat (p : path) (r : result Stats)
| EvRm (p : path) (o : rm_options) (r : result unit)
| EvIsBinary (p : path) (r : result bool).

Record world : Type := World { fs : node; trace : list event }.

Inductive outcome (A : Type) : Type :=
| Resolved (w : world) (a : A)
| Rejected (w : world) (e : fs_error)
| OutOfFuel (w : world).

Arguments Resolved {A} w a.
Arguments Rejected {A} w e.
Arguments OutOfFuel {A} w.

Definition Promise (A : Type) : Type := world -> outcome A.

Definition resolve {A : Type} (a : A) : Promise A := fun w => Resolved w a.

Definition await_then {A B : Type} (p : Promise A) (k : A -> Promise B) : Promise B :=
  fun w =>
    match p w with
    | Resolved w' a => k a w'
    | Rejected w' e => Rejected w' e
    | OutOfFuel w' => OutOfFuel w'
    end.

Notation "x <- 'await' p ;; k" := (await_then p (fun x => k))
  (at level 61, p at next level, right associativity).
Notation "'await' p ;; k" := (await_then p (fun _ => k))
  (at level 61, p at next level, right associativity).

Definition world_of {A : Type} (o : outcome A) : world :=
  match o with
  | Resolved w _ => w
  | Rejected w _ => w
  | OutOfFuel w => w
  end.

Definition record (w : world) (ev : event) (s : node) : world :=
  {| fs := s; trace := trace w ++ [ev] |}.

(** The [fs.promises] calls and [isBinaryFile], each leaving its event. *)
Definition fs_promises_readdir (p : path) : Promise (list string) :=
  fun w =>
    let r := readdir (fs w) p in
    let w' := record w (EvReaddir p r) (fs w) in
    match r with Ok names => Resolved w' names | Err e => Rejected w' e end.

Definition fs_promises_stat (p : path) : Promise Stats :=
  fun w =>
    let r := stat (fs w) p in
    let w' := record w (EvStat p r) (fs w) in
    match r with Ok st => Resolved w' st | Err e => Rejected w' e end.

Definition fs_promises_rm (p : path) (o : rm_options) : Promise unit :=
  fun w =>
    match rm (fs w) p o with
    | Ok s' => Resolved (record w (EvRm p o (Ok tt)) s') tt
    | Err e => Rejected (record w (EvRm p o (Err e)) (fs w)) e
    end.

Definition isBinaryFile_async (p : path) : Promise bool :=
  fun w =>
    let r := isBinaryFile (fs w) p in
    let w' := record w (EvIsBinary p r) (fs w) in
    match r with Ok b => Resolved w' b | Err e => Rejected w' e end.

(** A promise that has rejected with [e] while the tasks of [p] are in
    flight: they run on, and what they resolve to is dropped. *)
Definition in_flight {A : Type} (p : Promise A) (e : fs_error) : Promise A :=
  fun w =>
    match p w with
    | OutOfFuel w' => OutOfFuel w'
    | o => Rejected (world_of o) e
    end.

(** [Promise.all] over tasks that have all been started, in the order of
    completion in which the calls of a task complete before those of the
    tasks after it in the array.  This is one of the orders in which the
    calls of the code complete; every order is an execution of the tasks of
    section "Concurrent children".  The first rejection rejects the whole
    and stops nothing: the tasks after it have been started, their calls
    still complete, and the world of the rejection is the one they leave. *)
Fixpoint Promise_all {A : Type} (tasks : list (Promise A)) : Promise (list A) :=
  match tasks with
  | [] => resolve []
  | task :: rest =>
      fun w =>
        match task w with
        | Resolved w1 a =>
            (others <- await Promise_all rest ;; resolve (a :: others)) w1
        | Rejected w1 e => in_flight (Promise_all rest) e w1
        | OutOfFuel w1 => OutOfFuel w1
        end
  end.

(** ** The walker *)

Definition getFilePathIfBinary (filePath : path) : Promise (DeepListItem path) :=
  b <- await isBinaryFile_async filePath ;;
  if b then resolve (Item filePath) else resolve Null.

(** The [async (child) => ...] function that [_walkAsync] maps over the
    children; [recurse] is [_walkAsync] itself. *)
Definition walk_child (recurse : path -> Promise (DeepList path))
  (dirPath : path) (child : string) : Promise (DeepListItem path) :=
  let filePath := path_resolve dirPath child in
  st <- await fs_promises_stat filePath ;;
  if isFile st then
    if String.eqb (extname filePath) ".cstemp" then
      await fs_promises_rm filePath {| recursive := true; force := true |} ;;
      resolve Null
    else getFilePathIfBinary filePath
  else if isDirectory st && negb (isSymbolicLink st) then
    walkResult <- await recurse filePath ;;
    let walkResult :=
      if String.eqb (extname filePath) ".app"
         || String.eqb (extname filePath) ".framework"
      then walkResult ++ [Item filePath]
      else walkResult in
    resolve (Arr walkResult)
  else resolve Null.

Fixpoint _walkAsync (fuel : nat) (dirPath : path) : Promise (DeepList path) :=
  match fuel with
  | 0 => fun w => OutOfFuel w
  | S fuel' =>
      children <- await fs_promises_readdir dirPath ;;
      Promise_all (map (walk_child (_walkAsync fuel') dirPath) children)
  end.

Definition walk (fuel : nat) (dirPath : path) : Promise (list path) :=
  allPaths <- await _walkAsync fuel dirPath ;;
  resolve (compactFlattenedList allPaths).

(** A call of [walk] on the filesystem [s], from an empty trace. *)
Definition run_walk (fuel : nat) (s : node) (dirPath : path) : outcome (list path) :=
  walk fuel dirPath {| fs := s; trace := [] |}.

(** The options of the one [rm] call of the walker. *)
Definition stale_rm_options : rm_options := {| recursive := true; force := true |}.

(** What a bundle directory appends to its own walk result. *)
Definition is_bundle (filePath : path) : bool :=
  String.eqb (extname filePath) ".app" || String.eqb (extname filePath) ".framework".

(** ** The shape of a walk that resolves

    The events a resolved child task, directory walk and list of child
    tasks leave, with the value each resolves to. *)

Inductive child_log : path -> list event -> DeepListItem path -> Prop :=
| log_stale q st :
    isFile st = true -> extname q = ".cstemp" ->
    child_log q [EvStat q (Ok st); EvRm q stale_rm_options (Ok tt)] Null
| log_file q st b :
    isFile st = true -> extname q <> ".cstemp" ->
    child_log q [EvStat q (Ok st); EvIsBinary q (Ok b)]
      (if b then Item q else Null)
| log_dir q st evs vs :
    isFile st = false -> isDirectory st && negb (isSymbolicLink st) = true ->
    dir_log q evs vs ->
    child_log q (EvStat q (Ok st) :: evs)
      (Arr (if is_bundle q then vs ++ [Item q] else vs))
| log_other q st :
    isFile st = false -> isDirectory st && negb (isSymbolicLink st) = false ->
    child_log q [EvStat q (Ok st)] Null
with dir_log : path -> list event -> DeepList path -> Prop :=
| log_readdir d children evs vs :
    NoDup children -> children_log d children evs vs ->
    dir_log d (EvReaddir d (Ok children) :: evs) vs
with children_log : path -> list string -> list event -> DeepList path -> Prop :=
| log_nil d : children_log d [] [] []
| log_cons d c cs evs1 v evs2 vs :
    child_log (path_resolve d c) evs1 v -> children_log d cs evs2 vs ->
    children_log d (c :: cs) (evs1 ++ evs2) (v :: vs).

Scheme child_log_mut := Induction for child_log Sort Prop
  with dir_log_mut := Induction for dir_log Sort Prop
  with children_log_mut := Induction for children_log Sort Prop.

Combined Scheme walk_log_ind from child_log_mut, dir_log_mut, children_log_mut.

(** The path an event is about, and the error of a call that failed. *)
Definition event_path (ev : event) : path :=
  match ev with
  | EvReaddir p _ | EvStat p _ | EvRm p _ _ | EvIsBinary p _ => p
  end.

Definition event_error (ev : event) : option fs_error :=
  match ev with
  | EvReaddir _ (Err e) | EvStat _ (Err e) | EvRm _ _ (Err e)
  | EvIsBinary _ (Err e) => Some e
  | _ => None
  end.

(** Every path of the output that lies inside another path of the output
    stands before it. *)
Definition bundle_order (out : list path) : Prop :=
  forall i j X B,
    nth_error out i = Some X -> nth_error out j = Some B -> inside X B -> i < j.

(** [q] is a prefix of [X], with equality allowed. *)
Definition within (X q : path) : Prop := exists rest, X = q ++ rest.

(** No path of the list is followed by a path inside it. *)
Definition sorted_out (l : list path) : Prop :=
  forall l1 B l2, l = l1 ++ B :: l2 -> forall X, In X l2 -> ~ inside X B.

(** The part of a log that belongs to the child task of the path [p],
    whose stat answered [st]: the events [evs_p] that follow the stat and
    the value [v_p] of the task account for every event of [evs] and every
    path of [l] at or below [p]. *)
Definition sub_log (p : path) (st : Stats) (evs : list event) (l : list path)
  (evs_p : list event) (v_p : DeepListItem path) : Prop :=
  child_log p (EvStat p (Ok st) :: evs_p) v_p
  /\ incl (EvStat p (Ok st) :: evs_p) evs
  /\ (forall ev, In ev evs -> within (event_path ev) p ->
                 In ev (EvStat p (Ok st) :: evs_p))
  /\ incl (nonnull_leaves v_p) l
  /\ (forall X, In X l -> within X p -> In X (nonnull_leaves v_p)).

(** Every path whose removal succeeded is gone from the filesystem. *)
Definition removed_gone (w : world) : Prop :=
  forall p o, In (EvRm p o (Ok tt)) (trace w) -> exists e, lstat (fs w) p = Err e.

(** ** Concurrent children

    [_walkAsync] starts the tasks of all children of a directory before it
    awaits any of them, and the [fs] calls of different tasks complete in
    any order.  A task is the point an [async] function waits at; a step
    completes the pending call of one task, chosen by its position.

    A call that fails rejects its task, the [Promise.all] the task belongs
    to, and so on up to [walk], at once; it stops no other task: the
    [Promise.all] that has rejected keeps the tasks it started, and their
    calls still complete. *)

#[local] Unset Elimination Schemes.
Inductive task : Type :=
| TStat (filePath : path)
| TRm (filePath : path)
| TIsBinary (filePath : path)
| TReaddir (dirPath : path) (push : DeepList path)
| TAll (tasks : list task) (push : DeepList path) (rejected : option fs_error)
| TDone (v : DeepListItem path)
| TFailed (e : fs_error).
#[local] Set Elimination Schemes.

(** The error a task has rejected with, if it has. *)
Definition rejection_of (t : task) : option fs_error :=
  match t with
  | TFailed e => Some e
  | TAll _ _ rejected => rejected
  | _ => None
  end.

(** The values of the tasks, when every task is done. *)
Fixpoint all_done (tasks : list task) : option (DeepList path) :=
  match tasks with
  | [] => Some []
  | TDone v :: rest => option_map (cons v) (all_done rest)
  | _ :: _ => None
  end.

(** [Promise.all] over [tasks], then [walkResult.push] of [push]: rejected
    with the first rejection of a task, resolved once every task is
    done. *)
Definition join (tasks : list task) (push : DeepList path)
  (rejected : option fs_error) : task :=
  match rejected with
  | Some e => TAll tasks push (Some e)
  | None =>
      match all_done tasks with
      | Some vs => TDone (Arr (vs ++ push))
      | None => TAll tasks push None
      end
  end.

Definition after_readdir (dirPath : path) (push : DeepList path)
  (r : result (list string)) : task :=
  match r with
  | Ok children =>
      join (map (fun child => TStat (path_resolve dirPath child)) children) push None
  | Err e => TFailed e
  end.

Definition after_stat (filePath : path) (r : result Stats) : task :=
  match r with
  | Ok st =>
      if isFile st then
        if String.eqb (extname filePath) ".cstemp" then TRm filePath
        else TIsBinary filePath
      else if isDirectory st && negb (isSymbolicLink st) then
        TReaddir filePath (if is_bundle filePath then [Item filePath] else [])
      else TDone Null
  | Err e => TFailed e
  end.

Definition after_isBinaryFile (filePath : path) (r : result bool) : task :=
  match r with
  | Ok b => TDone (if b then Item filePath else Null)
  | Err e => TFailed e
  end.

Fixpoint set_nth {A : Type} (i : nat) (x : A) (l : list A) : list A :=
  match l, i with
  | [], _ => []
  | _ :: rest, 0 => x :: rest
  | a :: rest, S i' => a :: set_nth i' x rest
  end.

(** The rejection of a [Promise.all] one of whose tasks has become
    [child]: its own if it has rejected before, the task's if not. *)
Definition first_rejection (rejected : option fs_error) (child : task)
  : option fs_error :=
  match rejected with
  | Some e => Some e
  | None => rejection_of child
  end.

(** The step that completes the call of the task at position [pos] (the
    indices of the child to enter, outermost first): the event, the
    filesystem after it and the task after it.  A child that rejects
    rejects the [Promise.all] it belongs to, unless that has rejected
    before; the other children stay as they are and can still step. *)
Fixpoint step_at (pos : list nat) (s : node) (t : task) {struct pos}
  : option (event * node * task) :=
  match pos, t with
  | [], TStat q =>
      Some (EvStat q (stat s q), s, after_stat q (stat s q))
  | [], TRm q =>
      match rm s q stale_rm_options with
      | Ok s' => Some (EvRm q stale_rm_options (Ok tt), s', TDone Null)
      | Err e => Some (EvRm q stale_rm_options (Err e), s, TFailed e)
      end
  | [], TIsBinary q =>
      Some (EvIsBinary q (isBinaryFile s q), s, after_isBinaryFile q (isBinaryFile s q))
  | [], TReaddir d push =>
      Some (EvReaddir d (readdir s d), s, after_readdir d push (readdir s d))
  | i :: pos', TAll tasks push rejected =>
      match nth_error tasks i with
      | Some child =>
          match step_at pos' s child with
          | Some (ev, s', child') =>
              Some (ev, s',
                    join (set_nth i child' tasks) push
                      (first_rejection rejected child'))
          | None => None
          end
      | None => None
      end
  | _, _ => None
  end.

(** Executions: the steps taken at any positions, one after the other. *)
Inductive exec : node -> task -> list event -> node -> task -> Prop :=
| exec_done s t : exec s t [] s t
| exec_step pos s t ev s1 t1 evs s' t' :
    step_at pos s t = Some (ev, s1, t1) ->
    exec s1 t1 evs s' t' ->
    exec s t (ev :: evs) s' t'.

(** The execution that follows a schedule of positions. *)
Fixpoint run_schedule (schedule : list (list nat)) (s : node) (t : task)
  : option (list event * node * task) :=
  match schedule with
  | [] => Some ([], s, t)
  | pos :: rest =>
      match step_at pos s t with
      | Some (ev, s1, t1) =>
          match run_schedule rest s1 t1 with
          | Some (evs, s', t') => Some (ev :: evs, s', t')
          | None => None
          end
      | None => None
      end
  end.

(** The output of [walk] for the value its root task is done with. *)
Definition walk_output (v : DeepListItem path) : list path :=
  match v with
  | Arr allPaths => compactFlattenedList allPaths
  | _ => []
  end.

(** How the promise of [walk] has settled when its root task is [t]:
    resolved with the output, rejected with an error, or not yet. *)
Definition walk_settled (t : task) : option (result (list path)) :=
  match t with
  | TDone v => Some (Ok (walk_output v))
  | _ => option_map Err (rejection_of t)
  end.

(** No call of the task is pending: nothing is in flight. *)
Fixpoint idle (t : task) : bool :=
  match t with
  | TDone _ | TFailed _ => true
  | TAll tasks _ _ => forallb idle tasks
  | _ => false
  end.

(** A [Promise.all] that has not rejected has no task that has, at any
    depth. *)
Fixpoint coherent (t : task) : bool :=
  match t with
  | TAll tasks _ rejected =>
      forallb coherent tasks
      && match rejected with
         | Some _ => true
         | None =>
             forallb (fun c => match rejection_of c with
                               | Some _ => false
                               | None => true
                               end) tasks
         end
  | _ => true
  end.

(** The error of the first call that failed. *)
Fixpoint first_error (evs : list event) : option fs_error :=
  match evs with
  | [] => None
  | ev :: rest =>
      match event_error ev with
      | Some e => Some e
      | None => first_error rest
      end
  end.

(** The answer of the event is the one of the filesystem [s]. *)
Definition read_fixed (s : node) (ev : event) : Prop :=
  match ev with
  | EvReaddir p r => r = readdir s p
  | EvStat p r => r = stat s p
  | EvIsBinary p r => r = isBinaryFile s p
  | EvRm _ _ _ => True
  end.


(** An outcome other than running out of fuel. *)
Definition settled {A : Type} (o : outcome A) : Prop :=
  match o with
  | OutOfFuel _ => False
  | _ => True
  end.

(** What the root task says of an outcome of [walk]: the task has
    resolved with the output, or rejected with the error. *)
Definition settled_as (o : outcome (list path)) (t : task) : Prop :=
  match o with
  | Resolved _ out => walk_settled t = Some (Ok out)
  | Rejected _ e => walk_settled t = Some (Err e)
  | OutOfFuel _ => False
  end.

(** What the task of a child or of a directory says of an outcome: done
    with the value, or rejected with the error. *)
Definition finished_as {A : Type} (value : A -> DeepListItem path)
  (o : outcome A) (t : task) : Prop :=
  match o with
  | Resolved _ a => t = TDone (value a)
  | Rejected _ e => rejection_of t = Some e
  | OutOfFuel _ => False
  end.

(** What the task of a directory pushes after the values of its
    children: the directory itself when it is a bundle. *)
Definition bundle_push (filePath : path) : DeepList path :=
  if is_bundle filePath then [Item filePath] else [].

(** The value of the task of the path [filePath] is assembled in the
    order of the listings among [evs]: it is [null], or the path itself,
    or, for a listing of [filePath], one value for each child, in the
    order of the listing, followed by what a bundle pushes. *)
#[local] Unset Elimination Schemes.
Inductive assembled (evs : list event) : path -> DeepListItem path -> Prop :=
| assembled_null filePath : assembled evs filePath Null
| assembled_item filePath : assembled evs filePath (Item filePath)
| assembled_arr filePath children vs :
    In (EvReaddir filePath (Ok children)) evs ->
    Forall2 (fun child v => assembled evs (path_resolve filePath child) v)
      children vs ->
    assembled evs filePath (Arr (vs ++ bundle_push filePath)).
#[local] Set Elimination Schemes.

(** The items [_walkAsync dirPath] resolves to: one value for each child
    of a listing of [dirPath], in the order of the listing, and [push]. *)
Definition walked (evs : list event) (dirPath : path) (push items : DeepList path)
  : Prop :=
  exists children vs,
    In (EvReaddir dirPath (Ok children)) evs
    /\ Forall2 (fun child v => assembled evs (path_resolve dirPath child) v)
         children vs
    /\ items = vs ++ push.

(** The task of the child [filePath], and the task of the walk of the
    directory [dirPath]: the tasks of a listing stand in the order of the
    listing, and a value is assembled in that order. *)
#[local] Unset Elimination Schemes.
Inductive task_of (evs : list event) : path -> task -> Prop :=
| task_of_stat filePath : task_of evs filePath (TStat filePath)
| task_of_rm filePath : task_of evs filePath (TRm filePath)
| task_of_isBinary filePath : task_of evs filePath (TIsBinary filePath)
| task_of_dir filePath t :
    dir_task_of evs filePath (bundle_push filePath) t ->
    task_of evs filePath t
| task_of_done filePath v :
    assembled evs filePath v -> task_of evs filePath (TDone v)
| task_of_failed filePath e : task_of evs filePath (TFailed e)
with dir_task_of (evs : list event) : path -> DeepList path -> task -> Prop :=
| dir_task_readdir dirPath push :
    dir_task_of evs dirPath push (TReaddir dirPath push)
| dir_task_all dirPath push children tasks rejected :
    In (EvReaddir dirPath (Ok children)) evs ->
    Forall2 (fun child t => task_of evs (path_resolve dirPath child) t)
      children tasks ->
    dir_task_of evs dirPath push (TAll tasks push rejected)
| dir_task_done dirPath push items :
    walked evs dirPath push items ->
    dir_task_of evs dirPath push (TDone (Arr items))
| dir_task_failed dirPath push e : dir_task_of evs dirPath push (TFailed e).
#[local] Set Elimination Schemes.

(** The filesystem of a world is no higher than [limit]. *)
Definition within_limit (limit : nat) (w : world) : Prop := height (fs w) <= limit.

(** ** Command lines: [removePassword] *)

(** [secretFlags], a [Set] of strings, and [secretFlags.has]. *)
Definition secretFlags : list string := ["-P"; "--password"; "-pass"; "/p"; "pass:"].

Definition secretFlags_has (flag : string) : bool :=
  existsb (String.eqb flag) secretFlags.

(** The test on the first [=] of an argument: [a.indexOf('=')], then
    [a.slice(0, eqIndex)], then [secretFlags.has(flag)]; the flag when the
    test holds. *)
Definition secret_assignment (a : string) : option string :=
  match index 0 "=" a with
  | Some eqIndex =>
      let flag := substring 0 eqIndex a in
      if secretFlags_has flag then Some flag else None
  | None => None
  end.

(** The array [redacted] at the end of the loop over [input]: an iteration
    that meets a secret flag takes the next argument with it ([i++]). *)
Fixpoint redacted (input : list string) : list string :=
  match input with
  | [] => []
  | a :: rest =>
      match secret_assignment a with
      | Some flag => (flag ++ "=***")%string :: redacted rest
      | None =>
          if secretFlags_has a
          then a :: "***" :: match rest with
                             | [] => []
                             | _ :: rest' => redacted rest'
                             end
          else a :: redacted rest
      end
  end.

Definition removePassword (input : list string) : string :=
  concat " " (redacted input).

(** Two command lines that differ in their secrets only: in the value of
    a [flag=value] argument and in the argument that follows a secret
    flag. *)
Inductive same_public : list string -> list string -> Prop :=
| same_nil : same_public [] []
| same_assignment flag v1 v2 r1 r2 :
    secretFlags_has flag = true -> same_public r1 r2 ->
    same_public ((flag ++ "=" ++ v1)%string :: r1) ((flag ++ "=" ++ v2)%string :: r2)
| same_flag flag v1 v2 r1 r2 :
    secretFlags_has flag = true -> same_public r1 r2 ->
    same_public (flag :: v1 :: r1) (flag :: v2 :: r2)
| same_last_flag flag :
    secretFlags_has flag = true -> same_public [flag] [flag]
| same_argument a r1 r2 :
    secretFlags_has a = false -> same_public r1 r2 ->
    same_public (a :: r1) (a :: r2).

(** An argument that is no secret flag and no [flag=value] argument of
    one. *)
Definition no_secret (a : string) : bool :=
  negb (secretFlags_has a)
  && match secret_assignment a with Some _ => false | None => true end.

(** ** Options: the application and the platform *)

(** How a promise without filesystem calls settles. *)
Inductive settlement (A : Type) : Type :=
| Fulfilled (a : A)
| Thrown (message : string).

Arguments Fulfilled {A} a.
Arguments Thrown {A} message.

(** The fields of [BaseSignOptions] that [util.ts] reads: [app], an
    absolute path like every path here, and the optional [platform], which
    is any string at run time and [None] when it is left out. *)
Module BaseSignOptions.
Record t : Set := { app : path; platform : option string }.
End BaseSignOptions.

Abbreviation BaseSignOptions := BaseSignOptions.t.

(** [path.join(dir, name)] for an absolute [dir] and a plain name. *)
Definition path_join (dir : path) (name : string) : path := dir ++ [name].

(** [fs.existsSync]: whether the path leads anywhere, symbolic links
    followed; every error is the answer [false]. *)
Definition existsSync (s : node) (p : path) : bool :=
  match namei MAXSYMLINKS s p with
  | inr _ => true
  | inl _ => false
  end.

Definition getAppContentsPath (opts : BaseSignOptions) : path :=
  path_join (BaseSignOptions.app opts) "Contents".

Definition getAppFrameworksPath (opts : BaseSignOptions) : path :=
  path_join (getAppContentsPath opts) "Frameworks".

Definition detectElectronPlatform (s : node) (opts : BaseSignOptions) : string :=
  let appFrameworksPath := getAppFrameworksPath opts in
  if existsSync s (path_resolve appFrameworksPath "Squirrel.framework")
  then "darwin"
  else "mas".

(** The string of the one character that opens and closes a string. *)
Definition double_quote : string := String (ascii_of_nat 34) "".

Definition validateOptsApp (s : node) (opts : BaseSignOptions) : settlement unit :=
  if negb (truthy (BaseSignOptions.app opts)) then
    Thrown "Path to application must be specified."
  else if negb (String.eqb (extname (BaseSignOptions.app opts)) ".app") then
    Thrown "Extension of application must be `.app`."
  else if negb (existsSync s (BaseSignOptions.app opts)) then
    Thrown ("Application at path " ++ double_quote
            ++ path_string (BaseSignOptions.app opts) ++ double_quote
            ++ " could not be found")
  else Fulfilled tt.

(** [validateOptsPlatform]: the warnings handed to [debugWarn] and the
    platform the promise resolves to. *)
Definition validateOptsPlatform (s : node) (opts : BaseSignOptions)
  : list string * string :=
  match BaseSignOptions.platform opts with
  | Some platform =>
      if truthy platform then
        if String.eqb platform "mas" || String.eqb platform "darwin"
        then ([], platform)
        else (["`platform` passed in arguments not supported, checking Electron platform..."],
              detectElectronPlatform s opts)
      else (["No `platform` passed in arguments, checking Electron platform..."],
            detectElectronPlatform s opts)
  | None =>
      (["No `platform` passed in arguments, checking Electron platform..."],
       detectElectronPlatform s opts)
  end.

(** ** What a walk does to the filesystem *)

(** [s'] is [s] without one entry that is a regular file or a symbolic
    link to one, under a name with the extension [.cstemp]. *)
Definition unlinks_stale (s s' : node) : Prop :=
  exists P name m entries n0,
    node_at s P = Some (Dir m entries)
    /\ lookup_entry name entries = Some n0
    /\ is_dir n0 = false
    /\ n0 <> Special
    /\ (forall t hops phys n,
           n0 = Symlink t -> namei hops s t = inr (phys, n) -> is_dir n = false)
    /\ basename_extname name = ".cstemp"
    /\ s' = remove_at P name s.

(** [s'] is [s] after any number of such removals. *)
Inductive cleaned (s : node) : node -> Prop :=
| cleaned_refl : cleaned s s
| cleaned_step s1 s2 : cleaned s s1 -> unlinks_stale s1 s2 -> cleaned s s2.

(** Every [rm] call of the walk is on a path with the extension
    [.cstemp] whose stat answered a regular file. *)
Definition removals_stale (w : world) : Prop :=
  forall q o r,
    In (EvRm q o r) (trace w) ->
    extname q = ".cstemp" /\ o = stale_rm_options
    /\ exists st, In (EvStat q (Ok st)) (trace w) /\ isFile st = true.

(** The listings and statuses of the trace agree with the directories of
    the filesystem [s0] the walk started on: a listing holds every entry
    that led to a directory in [s0], and a path that led to a directory in
    [s0] has that status. *)
Definition sees_directories (s0 : node) (w : world) : Prop :=
  cleaned s0 (fs w)
  /\ (forall d children,
         In (EvReaddir d (Ok children)) (trace w) ->
         forall c st, stat s0 (path_resolve d c) = Ok st -> isDirectory st = true ->
                      In c children)
  /\ (forall p st',
         In (EvStat p (Ok st')) (trace w) ->
         forall st, stat s0 p = Ok st -> isDirectory st = true -> st' = st).

(** A tree without symbolic links. *)
Fixpoint link_free (n : node) : bool :=
  match n with
  | Dir _ entries => forallb (fun e => link_free (snd e)) entries
  | Symlink _ => false
  | _ => true
  end.

(** An event other than a call of [rm]. *)
Definition no_removal (ev : event) : Prop :=
  match ev with
  | EvRm _ _ _ => False
  | _ => True
  end.

(** Whether a name is in a listing. *)
Definition listed (names : list string) (c : string) : bool :=
  existsb (String.eqb c) names.

(** What a call that succeeded answered is true of the filesystem [s0] the
    walk started on: a status and a content verdict are those of [s0], and
    when [s0] has no symbolic link a listing holds every entry of [s0] that
    the walk does not remove. *)
Definition agrees_with (s0 : node) (ev : event) : Prop :=
  match ev with
  | EvReaddir d (Ok children) =>
      link_free s0 = true ->
      forall c st,
        stat s0 (path_resolve d c) = Ok st ->
        extname (path_resolve d c) <> ".cstemp" \/ isFile st = false ->
        In c children
  | EvStat p (Ok st) => stat s0 p = Ok st
  | EvIsBinary p (Ok b) => isBinaryFile s0 p = Ok b
  | _ => True
  end.

(** What a path of the output is: a regular file whose content is binary
    and whose extension is not [.cstemp], or a directory whose extension
    is [.app] or [.framework]. *)
Definition needs_signing (s : node) (X : path) : Prop :=
  exists st,
    stat s X = Ok st
    /\ ((isFile st = true /\ extname X <> ".cstemp" /\ isBinaryFile s X = Ok true)
        \/ (isDirectory st = true /\ is_bundle X = true)).

(** Every call of the trace was answered by a filesystem that the one of
    the world comes from by removals of stale entries. *)
Definition answered_before (w : world) : Prop :=
  forall ev, In ev (trace w) ->
    exists s, cleaned s (fs w) /\ read_fixed s ev.

(** ** Sample trees *)

Definition binary_file : node := File rwx true.
Definition text_file : node := File rwx false.
Definition dir (entries : list (string * node)) : node := Dir rwx entries.

(** [/App.app/Contents/Frameworks/Lib.framework/Versions/A/Lib] and
    [/App.app/Contents/MacOS/AppBinary]. *)
Definition sample_bundle : node :=
  dir [("App.app",
        dir [("Contents",
              dir [("Frameworks",
                    dir [("Lib.framework",
                          dir [("Versions", dir [("A", dir [("Lib", binary_file)])])])]);
                   ("MacOS", dir [("AppBinary", binary_file); ("run.sh", text_file)]);
                   ("Info.plist", text_file);
                   ("sign.cstemp", binary_file)])])].

(** A bundle whose framework binary cannot be read. *)
Definition unreadable_bundle : node :=
  dir [("App.app",
        dir [("Contents",
              dir [("MacOS", dir [("AppBinary", binary_file)]);
                   ("Frameworks",
                    dir [("Lib.framework",
                          dir [("Lib", File (Mode false true true) true)])]);
                   ("Resources", dir [("icon.icns", binary_file)])])])].

(** A bundle that keeps its build products in a directory named like a
    stale artifact. *)
Definition cstemp_directory_bundle : node :=
  dir [("App.app",
        dir [("build.cstemp", dir [("tool", binary_file); ("notes.txt", text_file)]);
             ("old.cstemp", text_file)])].

(** Two dangling symbolic links at different depths, and a stale
    artifact. *)
Definition two_ghosts : node :=
  dir [("App.app",
        dir [("sub", dir [("ghost1", Symlink ["App.app"; "missing"])]);
             ("zghost", Symlink ["App.app"; "missing"]);
             ("z.cstemp", text_file)])].

(** The calls complete in the order they were made: the stat of [sub],
    [zghost] and [z.cstemp], then the listing of [sub] and the removal of
    [z.cstemp], then the stat of [ghost1]. *)
Definition schedule_first_come : list (list nat) :=
  [[]; [0]; [1]; [2]; [0]; [2]; [0; 0]].

(** A directory with a stale artifact, and a symbolic link to the
    directory. *)
Definition aliased_stale_bundle : node :=
  dir [("App.app",
        dir [("Real", dir [("tool", binary_file); ("foo.cstemp", binary_file)]);
             ("Alias", Symlink ["App.app"; "Real"])])].

(** All of [Real] first, then [Alias]. *)
Definition schedule_real_first : list (list nat) :=
  [[]; [0]; [0]; [0; 0]; [0; 0]; [0; 1]; [0; 1]; [1]; [1]; [1; 0]; [1; 0]].

(** Both directories are listed before the stale artifact is removed
    through [Real], and it is looked for through [Alias] after that. *)
Definition schedule_listed_first : list (list nat) :=
  [[]; [0]; [1]; [0]; [1]; [0; 1]; [0; 1]; [1; 1]; [0; 0]; [0; 0]; [1; 0]; [1; 0]].

(** Two frameworks side by side, one with a stale artifact. *)
Definition two_frameworks : node :=
  dir [("A.framework", dir [("A", binary_file); ("A.cstemp", text_file)]);
       ("B.framework", dir [("B", binary_file)])].

(** [B.framework] first, and the stale artifact removed last. *)
Definition schedule_reversed : list (list nat) :=
  [[]; [1]; [0]; [1]; [1; 0]; [0]; [0; 1]; [1; 0]; [0; 0]; [0; 0]; [0; 1]].

(** A bundle with a symbolic link to a framework and one to a binary. *)
Definition linked_bundle : node :=
  dir [("App.app",
        dir [("Real.framework", dir [("Lib", binary_file)]);
             ("Alias.framework", Symlink ["App.app"; "Real.framework"]);
             ("tool", Symlink ["App.app"; "Real.framework"; "Lib"])])].

(** A bundle with a stale artifact and a symbolic link to it. *)
Definition stale_linked_bundle : node :=
  dir [("App.app",
        dir [("helper", Symlink ["App.app"; "helper.cstemp"]);
             ("helper.cstemp", binary_file)])].

(** A bundle that is a regular file. *)
Definition file_bundle : node := dir [("App.app", binary_file)].

(** [Squirrel.framework] beside a stale artifact. *)
Definition squirrel_bundle : node :=
  dir [("App.app",
        dir [("Contents",
              dir [("Frameworks",
                    dir [("Squirrel.framework", dir [("Squirrel", binary_file)]);
                         ("Squirrel.cstemp", binary_file)])])])].

(** The value a promise resolved to, if it resolved. *)
Definition resolved_value {A : Type} (o : outcome A) : option A :=
  match o with
  | Resolved _ a => Some a
  | _ => None
  end.

Definition rejection {A : Type} (o : outcome A) : option fs_error :=
  match o with
  | Rejected _ e => Some e
  | _ => None
  end.

(** * Properties *)

(** ** The tree flattener *)

Section Flatten_facts.
Context {T : Type} `{Truthy T}.

Lemma populateResult_item_falsy (item : DeepListItem T) (result : list T) :
  item_truthy item = false -> populateResult item result = result.
Proof.
  destruct item as [|x|items]; simpl; intros Hf; try reflexivity.
  - now rewrite Hf.
  - discriminate.
Qed.

Lemma populateResult_fold (items : list (DeepListItem T)) :
  Forall (fun d => forall result,
              populateResult d result = result ++ filter truthy (nonnull_leaves d)) items ->
  forall result,
    fold_left (fun result item =>
                 if item_truthy item then populateResult item result else result)
      items result
    = result ++ filter truthy (flat_map nonnull_leaves items).
Proof.
  induction 1 as [|d items Hd _ IH]; intros result; simpl.
  - now rewrite app_nil_r.
  - rewrite filter_app, app_assoc, <- Hd.
    destruct (item_truthy d) eqn:Ht.
    + apply IH.
    + rewrite populateResult_item_falsy by assumption. apply IH.
Qed.

Lemma populateResult_leaves (d : DeepListItem T) (result : list T) :
  populateResult d result = result ++ filter truthy (nonnull_leaves d).
Proof.
  revert result.
  induction d as [|x|items IH] using DeepListItem_nested_ind; intros result.
  - simpl. now rewrite app_nil_r.
  - simpl. destruct (truthy x); [reflexivity | now rewrite app_nil_r].
  - cbn [populateResult nonnull_leaves].
    destruct items as [|d items].
    + simpl. now rewrite app_nil_r.
    + change (Nat.ltb 0 (List.length (d :: items))) with true. cbv iota.
      now apply populateResult_fold.
Qed.

Lemma compactFlattenedList_filter (lst : DeepList T) :
  compactFlattenedList lst = filter truthy (flat_map nonnull_leaves lst).
Proof.
  unfold compactFlattenedList. now rewrite populateResult_leaves.
Qed.

Lemma compactFlattenedList_app (l1 l2 : DeepList T) :
  compactFlattenedList (l1 ++ l2)
  = compactFlattenedList l1 ++ compactFlattenedList l2.
Proof.
  now rewrite !compactFlattenedList_filter, flat_map_app, filter_app.
Qed.

Lemma compactFlattenedList_cons (d : DeepListItem T) (lst : DeepList T) :
  compactFlattenedList (d :: lst)
  = filter truthy (nonnull_leaves d) ++ compactFlattenedList lst.
Proof.
  rewrite !compactFlattenedList_filter. simpl. now rewrite filter_app.
Qed.

Lemma nonnull_leaves_flat (lst : DeepList T) :
  flat lst = true -> flat_map nonnull_leaves lst = nonnull_elements lst.
Proof.
  unfold flat, nonnull_elements.
  induction lst as [|d lst IH]; simpl; [reflexivity|].
  intros Hflat. apply andb_prop in Hflat as [Hd Hl].
  rewrite IH by assumption.
  destruct d; simpl in *; try reflexivity. discriminate.
Qed.

End Flatten_facts.

(** C3, as stated, fails: a leaf that is not [null] but falsy (the empty
    string) is dropped. *)
Lemma compactFlattenedList_drops_empty_string :
  compactFlattenedList [Item ""; Item "a"]
  <> flat_map nonnull_leaves [Item ""; Item "a"].
Proof. vm_compute. discriminate. Qed.

(** C3, amended: [compactFlattenedList] returns exactly the truthy leaf
    items of the nested input, depth first and left to right, with the
    nesting removed (so duplicates stay); the empty sequence gives the empty
    sequence. *)
Theorem compactFlattenedList_truthy_leaves :
  forall (T : Type) (TT : Truthy T) (lst : DeepList T),
    compactFlattenedList lst = filter truthy (flat_map nonnull_leaves lst)
    /\ compactFlattenedList (@nil (DeepListItem T)) = [].
Proof.
  intros T TT lst. split.
  - apply compactFlattenedList_filter.
  - reflexivity.
Qed.

(** C7, as stated, fails: on a flat list the empty string, an element that
    is not [null], is dropped. *)
Lemma compactFlattenedList_flat_drops_empty_string :
  flat [Item "x"; Null; Item ""] = true
  /\ compactFlattenedList [Item "x"; Null; Item ""]
     <> nonnull_elements [Item "x"; Null; Item ""].
Proof. split; [reflexivity | vm_compute; discriminate]. Qed.

(** C7, amended: on an already flat sequence [compactFlattenedList] returns
    the truthy elements in order. *)
Theorem compactFlattenedList_flat :
  forall (T : Type) (TT : Truthy T) (lst : DeepList T),
    flat lst = true ->
    compactFlattenedList lst = filter truthy (nonnull_elements lst).
Proof.
  intros T TT lst Hflat.
  now rewrite compactFlattenedList_filter, nonnull_leaves_flat.
Qed.

Lemma compactFlattenedList_flat_witness :
  flat [Item "x"; Null; Item ""; Item "x"] = true
  /\ compactFlattenedList [Item "x"; Null; Item ""; Item "x"] = ["x"; "x"].
Proof.
  split; [reflexivity|].
  exact (compactFlattenedList_flat _ [Item "x"; Null; Item ""; Item "x"] eq_refl).
Defined.

(** ** Promises *)

Lemma await_resolved {A B : Type} (p : Promise A) (k : A -> Promise B) w w' b :
  await_then p k w = Resolved w' b ->
  exists w1 a, p w = Resolved w1 a /\ k a w1 = Resolved w' b.
Proof.
  unfold await_then. destruct (p w) as [w1 a|w1 e|w1]; try discriminate.
  intros Hk. now exists w1, a.
Qed.

Lemma await_rejected {A B : Type} (p : Promise A) (k : A -> Promise B) w w' e :
  await_then p k w = Rejected w' e ->
  p w = Rejected w' e
  \/ exists w1 a, p w = Resolved w1 a /\ k a w1 = Rejected w' e.
Proof.
  unfold await_then. destruct (p w) as [w1 a|w1 e1|w1]; try discriminate.
  - intros Hk. right. exists w1, a. split; [reflexivity | exact Hk].
  - intros Hk. left. now inversion Hk.
Qed.

Ltac await_inv H :=
  let w1 := fresh "w" in
  let a := fresh "a" in
  let H1 := fresh "Hcall" in
  apply await_resolved in H as (w1 & a & H1 & H).

Lemma fs_promises_readdir_resolved p w w' names :
  fs_promises_readdir p w = Resolved w' names ->
  readdir (fs w) p = Ok names
  /\ w' = record w (EvReaddir p (Ok names)) (fs w).
Proof.
  unfold fs_promises_readdir. destruct (readdir (fs w) p); intros Heq;
    inversion Heq; subst; auto.
Qed.

Lemma fs_promises_stat_resolved p w w' st :
  fs_promises_stat p w = Resolved w' st ->
  stat (fs w) p = Ok st /\ w' = record w (EvStat p (Ok st)) (fs w).
Proof.
  unfold fs_promises_stat. destruct (stat (fs w) p); intros Heq;
    inversion Heq; subst; auto.
Qed.

Lemma fs_promises_rm_resolved p o w w' u :
  fs_promises_rm p o w = Resolved w' u ->
  exists s', rm (fs w) p o = Ok s' /\ w' = record w (EvRm p o (Ok tt)) s'.
Proof.
  unfold fs_promises_rm. destruct (rm (fs w) p o) as [s'|e]; intros Heq;
    inversion Heq; subst; eauto.
Qed.

Lemma isBinaryFile_async_resolved p w w' b :
  isBinaryFile_async p w = Resolved w' b ->
  isBinaryFile (fs w) p = Ok b /\ w' = record w (EvIsBinary p (Ok b)) (fs w).
Proof.
  unfold isBinaryFile_async. destruct (isBinaryFile (fs w) p); intros Heq;
    inversion Heq; subst; auto.
Qed.

Lemma world_of_in_flight {A : Type} (p : Promise A) e w :
  world_of (in_flight p e w) = world_of (p w).
Proof. unfold in_flight. now destruct (p w). Qed.

Lemma Promise_all_cons {A : Type} (task : Promise A) rest w :
  Promise_all (task :: rest) w
  = match task w with
    | Resolved w1 a =>
        (others <- await Promise_all rest ;; resolve (a :: others)) w1
    | Rejected w1 e => in_flight (Promise_all rest) e w1
    | OutOfFuel w1 => OutOfFuel w1
    end.
Proof. reflexivity. Qed.

Lemma Promise_all_resolved {A : Type} (task : Promise A) rest w w' vs :
  Promise_all (task :: rest) w = Resolved w' vs ->
  exists w1 a others,
    task w = Resolved w1 a
    /\ Promise_all rest w1 = Resolved w' others
    /\ vs = a :: others.
Proof.
  rewrite Promise_all_cons. destruct (task w) as [w1 a|w1 e|w1].
  - intros Hrun. apply await_resolved in Hrun as (w2 & others & Hrest & Hrun).
    inversion Hrun; subst. now exists w1, a, others.
  - unfold in_flight. now destruct (Promise_all rest w1).
  - discriminate.
Qed.

Lemma entry_names_NoDup entries : NoDup (entry_names entries).
Proof.
  induction entries as [|[k n] entries IH]; simpl; constructor.
  - intros Hin. apply filter_In in Hin as [_ Hne].
    now rewrite String.eqb_refl in Hne.
  - now apply NoDup_filter.
Qed.

Lemma readdir_NoDup s p names : readdir s p = Ok names -> NoDup names.
Proof.
  unfold readdir.
  destruct (namei MAXSYMLINKS s p) as [c|[phys [m b|m entries|t|]]]; try discriminate.
  destruct (can_read m); try discriminate.
  intros Heq. inversion Heq. apply entry_names_NoDup.
Qed.

(** ** File status *)


Lemma isDirectory_not_file st : isDirectory st = true -> isFile st = false.
Proof. unfold isFile, isDirectory. now destruct (st_type st). Qed.

Lemma isDirectory_not_link st :
  isDirectory st = true -> isDirectory st && negb (isSymbolicLink st) = true.
Proof. unfold isSymbolicLink, isDirectory. now destruct (st_type st). Qed.


(** ** Path resolution *)

Lemma namei_unfold hops root p :
  namei hops root p = descend (follow_of hops root) [] root p.
Proof. now destruct hops. Qed.

Lemma descend_follow_mono follow follow' :
  (forall p r, follow p = inr r -> follow' p = inr r) ->
  forall p phys cur r,
    descend follow phys cur p = inr r -> descend follow' phys cur p = inr r.
Proof.
  intros Hf. induction p as [|c rest IH]; intros phys cur r; simpl; [auto|].
  destruct cur as [m b|m entries|t|]; try discriminate.
  destruct (can_search m); [|discriminate].
  destruct (lookup_entry c entries) as [[m1 b1|m1 entries1|t1|]|];
    try discriminate; auto.
Qed.

Lemma namei_S hops root p r :
  namei hops root p = inr r -> namei (S hops) root p = inr r.
Proof.
  revert p r. induction hops as [|hops IH]; intros p r;
    rewrite !namei_unfold; apply descend_follow_mono; simpl.
  - discriminate.
  - exact IH.
Qed.

Lemma namei_le hops hops' root p r :
  hops <= hops' -> namei hops root p = inr r -> namei hops' root p = inr r.
Proof.
  induction 1 as [|hops' _ IH]; [auto|].
  intros Hr. now apply namei_S, IH.
Qed.

Lemma namei_agree h1 h2 root p r1 r2 :
  namei h1 root p = inr r1 -> namei h2 root p = inr r2 -> r1 = r2.
Proof.
  intros H1 H2.
  apply (@namei_le h1 (Nat.max h1 h2)) in H1; [|lia].
  apply (@namei_le h2 (Nat.max h1 h2)) in H2; [|lia].
  congruence.
Qed.

Lemma node_at_snoc phys c : forall root m entries n,
  node_at root phys = Some (Dir m entries) ->
  lookup_entry c entries = Some n ->
  node_at root (phys ++ [c]) = Some n.
Proof.
  induction phys as [|a phys IH]; intros root m entries n; simpl.
  - intros Heq Hl. inversion Heq; subst. now rewrite Hl.
  - destruct root as [m0 b0|m0 entries0|t0|]; try discriminate.
    destruct (lookup_entry a entries0) as [child|]; [|discriminate].
    apply IH.
Qed.

Lemma descend_node_at root follow :
  (forall p phys n, follow p = inr (phys, n) -> node_at root phys = Some n) ->
  forall p phys0 cur phys n,
    node_at root phys0 = Some cur ->
    descend follow phys0 cur p = inr (phys, n) ->
    node_at root phys = Some n.
Proof.
  intros Hf. induction p as [|c rest IH]; intros phys0 cur phys n Hcur; simpl.
  - intros Heq. now inversion Heq; subst.
  - destruct cur as [m b|m entries|t|]; try discriminate.
    destruct (can_search m); [|discriminate].
    destruct (lookup_entry c entries) as [n1|] eqn:Hl; [|discriminate].
    pose proof (node_at_snoc _ _ _ Hcur Hl) as Hn1.
    destruct n1 as [m1 b1|m1 entries1|t1|]; try (now apply IH).
    apply Hf.
Qed.

Lemma namei_node_at hops root : forall p phys n,
  namei hops root p = inr (phys, n) -> node_at root phys = Some n.
Proof.
  induction hops as [|hops IH]; intros p phys n; rewrite namei_unfold;
    apply descend_node_at; simpl; (discriminate || auto).
Qed.

Lemma descend_app root hops rest :
  (forall a P cur,
      follow_of hops root a = inr (P, cur) ->
      exists hops',
        hops' <= hops
        /\ follow_of hops root (a ++ rest)
           = descend (follow_of hops' root) P cur rest) ->
  forall a phys0 cur0 P cur,
    descend (follow_of hops root) phys0 cur0 a = inr (P, cur) ->
    exists hops',
      hops' <= hops
      /\ descend (follow_of hops root) phys0 cur0 (a ++ rest)
         = descend (follow_of hops' root) P cur rest.
Proof.
  intros Hf. induction a as [|c a IHa]; intros phys0 cur0 P cur; simpl.
  - intros Heq. inversion Heq; subst. now exists hops.
  - destruct cur0 as [m b|m entries|t|]; try discriminate.
    destruct (can_search m); [|discriminate].
    destruct (lookup_entry c entries) as [[m1 b1|m1 entries1|t1|]|];
      try discriminate; try apply IHa.
    rewrite app_assoc. apply Hf.
Qed.

(** Resolving [a ++ rest] is resolving [a] and going on from there, with
    the links that are left to follow. *)
Lemma namei_app hops root rest : forall a P cur,
  namei hops root a = inr (P, cur) ->
  exists hops',
    hops' <= hops
    /\ namei hops root (a ++ rest) = descend (follow_of hops' root) P cur rest.
Proof.
  induction hops as [|hops IH]; intros a P cur; rewrite !namei_unfold;
    apply descend_app; simpl.
  - discriminate.
  - intros a' P' cur' Hr. destruct (IH _ _ _ Hr) as (hops' & Hle & ->).
    exists hops'. split; [lia | reflexivity].
Qed.

Lemma descend_app_error follow rest :
  (forall a e, follow a = inl e -> follow (a ++ rest) = inl e) ->
  forall a phys0 cur0 e,
    descend follow phys0 cur0 a = inl e ->
    descend follow phys0 cur0 (a ++ rest) = inl e.
Proof.
  intros Hf. induction a as [|c a IHa]; intros phys0 cur0 e; simpl;
    [discriminate|].
  destruct cur0 as [m b|m entries|t|]; auto.
  destruct (can_search m); [|auto].
  destruct (lookup_entry c entries) as [[m1 b1|m1 entries1|t1|]|]; auto.
  rewrite app_assoc. apply Hf.
Qed.

Lemma namei_app_error hops root rest : forall a e,
  namei hops root a = inl e -> namei hops root (a ++ rest) = inl e.
Proof.
  induction hops as [|hops IH]; intros a e; rewrite !namei_unfold;
    apply descend_app_error; simpl; auto.
Qed.

Lemma descend_dir follow P cur rest phys n :
  descend follow P cur rest = inr (phys, n) ->
  is_dir n = true -> is_dir cur = true.
Proof.
  destruct rest as [|c rest]; simpl.
  - intros Heq. now inversion Heq; subst.
  - now destruct cur.
Qed.

(** A path that leads to a directory leads through directories. *)
Lemma namei_app_dir hops root a rest phys n :
  namei hops root (a ++ rest) = inr (phys, n) ->
  is_dir n = true ->
  exists P cur, namei hops root a = inr (P, cur) /\ is_dir cur = true.
Proof.
  intros Hr Hdir.
  destruct (namei hops root a) as [e|[P cur]] eqn:Ha.
  - rewrite (namei_app_error _ _ rest _ Ha) in Hr. discriminate.
  - destruct (namei_app _ _ rest _ Ha) as (hops' & _ & Heq).
    rewrite Heq in Hr. exists P, cur. split; [reflexivity|].
    now apply descend_dir in Hr.
Qed.

(** ** Removal in the filesystem *)

Lemma strip_prefix_refl p : strip_prefix p p = Some [].
Proof.
  induction p as [|c p IH]; simpl; [reflexivity|]. now rewrite String.eqb_refl.
Qed.

Lemma strip_prefix_snoc phys c : forall P,
  strip_prefix (phys ++ [c]) P
  = match strip_prefix phys P with
    | Some (c0 :: rel) => if String.eqb c c0 then Some rel else None
    | _ => None
    end.
Proof.
  induction phys as [|a phys IH]; intros [|b P]; cbn [strip_prefix app];
    try reflexivity.
  destruct (String.eqb a b); [apply IH | reflexivity].
Qed.

Lemma lookup_entry_filter name c entries n :
  lookup_entry c (filter (fun e => negb (String.eqb (fst e) name)) entries) = Some n ->
  lookup_entry c entries = Some n /\ c <> name.
Proof.
  induction entries as [|[k n0] entries IH]; simpl; [discriminate|].
  destruct (String.eqb k name) eqn:Hk; simpl.
  - intros Hl. destruct (IH Hl) as [Hfound Hne]. split; [|assumption].
    destruct (String.eqb k c) eqn:Hkc; [|assumption].
    apply String.eqb_eq in Hk, Hkc. congruence.
  - destruct (String.eqb k c) eqn:Hkc.
    + intros Heq. split; [assumption|].
      apply String.eqb_eq in Hkc. apply String.eqb_neq in Hk. congruence.
    + apply IH.
Qed.

Lemma lookup_entry_filter_same name entries :
  lookup_entry name (filter (fun e => negb (String.eqb (fst e) name)) entries) = None.
Proof.
  destruct (lookup_entry name (filter _ entries)) eqn:Hl; [|reflexivity].
  apply lookup_entry_filter in Hl as [_ Hne]. now contradiction Hne.
Qed.

Lemma lookup_entry_update c0 (f : node -> node) c entries :
  lookup_entry c
    (map (fun e => if String.eqb (fst e) c0 then (fst e, f (snd e)) else e) entries)
  = if String.eqb c c0
    then option_map f (lookup_entry c entries)
    else lookup_entry c entries.
Proof.
  induction entries as [|[k n0] entries IH]; simpl.
  - now destruct (String.eqb c c0).
  - destruct (String.eqb k c0) eqn:Hk0; simpl; destruct (String.eqb k c) eqn:Hkc.
    + apply String.eqb_eq in Hk0, Hkc. subst.
      now rewrite String.eqb_refl.
    + exact IH.
    + apply String.eqb_eq in Hkc. subst k. now rewrite Hk0.
    + exact IH.
Qed.

Section Residual.
Variable P : path.
Variable name : string.

Lemma residual_root root : residual P name [] root = remove_at P name root.
Proof. reflexivity. Qed.

Lemma residual_not_dir phys n : is_dir n = false -> residual P name phys n = n.
Proof.
  unfold residual. destruct (strip_prefix phys P) as [rel|]; [|reflexivity].
  destruct n; try discriminate; now destruct rel.
Qed.

Lemma residual_dir phys m entries :
  exists entries', residual P name phys (Dir m entries) = Dir m entries'.
Proof.
  unfold residual. destruct (strip_prefix phys P) as [[|c0 rel]|]; simpl; eauto.
Qed.

Lemma residual_dir_inv phys n m entries' :
  residual P name phys n = Dir m entries' -> exists entries, n = Dir m entries.
Proof.
  destruct n as [m0 b|m0 entries|t|]; try (rewrite residual_not_dir by reflexivity;
                                            discriminate).
  destruct (residual_dir phys m0 entries) as (entries0 & ->).
  intros Heq. inversion Heq; subst. now exists entries.
Qed.

Lemma lookup_entry_residual phys m entries entries' c n' :
  residual P name phys (Dir m entries) = Dir m entries' ->
  lookup_entry c entries' = Some n' ->
  exists n, lookup_entry c entries = Some n
            /\ n' = residual P name (phys ++ [c]) n.
Proof.
  unfold residual. rewrite strip_prefix_snoc.
  destruct (strip_prefix phys P) as [[|c0 rel]|]; simpl; intros Heq Hl;
    inversion Heq; subst; clear Heq.
  - apply lookup_entry_filter in Hl as [Hl _]. now exists n'.
  - rewrite lookup_entry_update in Hl. destruct (String.eqb c c0).
    + destruct (lookup_entry c entries) as [n|]; [|discriminate].
      simpl in Hl. inversion Hl. now exists n.
    + now exists n'.
  - now exists n'.
Qed.

Lemma descend_residual follow follow' :
  (forall p phys n',
      follow' p = inr (phys, n') ->
      exists n, follow p = inr (phys, n) /\ n' = residual P name phys n) ->
  forall p phys cur phys2 n',
    descend follow' phys (residual P name phys cur) p = inr (phys2, n') ->
    exists n, descend follow phys cur p = inr (phys2, n)
              /\ n' = residual P name phys2 n.
Proof.
  intros Hfollow. induction p as [|c rest IH]; intros phys cur phys2 n' Hrun.
  - simpl in *. inversion Hrun; subst. now exists cur.
  - simpl in Hrun.
    destruct (residual P name phys cur) as [m b|m entries'|t|] eqn:Hcur;
      try discriminate.
    destruct (@residual_dir_inv phys cur m entries' Hcur) as (entries & ->).
    simpl. destruct (can_search m); [|discriminate].
    destruct (lookup_entry c entries') as [n1'|] eqn:Hl; [|discriminate].
    destruct (@lookup_entry_residual phys m entries entries' c n1' Hcur Hl)
      as (n1 & -> & ->).
    destruct n1 as [m1 b1|m1 entries1|t1|].
    + rewrite residual_not_dir in Hrun by reflexivity.
      rewrite <- (@residual_not_dir (phys ++ [c]) (File m1 b1)) in Hrun
        by reflexivity.
      now apply IH.
    + destruct (residual_dir (phys ++ [c]) m1 entries1) as (entries1' & Heq).
      rewrite Heq in Hrun. rewrite <- Heq in Hrun. now apply IH.
    + rewrite residual_not_dir in Hrun by reflexivity. now apply Hfollow.
    + rewrite residual_not_dir in Hrun by reflexivity.
      rewrite <- (@residual_not_dir (phys ++ [c]) Special) in Hrun
        by reflexivity.
      now apply IH.
Qed.

Lemma namei_residual hops root : forall p phys n',
  namei hops (remove_at P name root) p = inr (phys, n') ->
  exists n, namei hops root p = inr (phys, n) /\ n' = residual P name phys n.
Proof.
  induction hops as [|hops IH]; intros p phys n' Hrun; simpl in *.
  - rewrite <- residual_root in Hrun.
    eapply descend_residual; [|exact Hrun]. discriminate.
  - rewrite <- residual_root in Hrun.
    eapply descend_residual; [|exact Hrun]. exact IH.
Qed.

End Residual.

Lemma rm_ok_cases s p o s' :
  rm s p o = Ok s' ->
  (s' = s /\ exists e, lstat s p = Err e)
  \/ (exists parent name phys m entries n0,
         split_last p = Some (parent, name)
         /\ namei MAXSYMLINKS s parent = inr (phys, Dir m entries)
         /\ can_search m = true
         /\ lookup_entry name entries = Some n0
         /\ s' = remove_at phys name s).
Proof.
  unfold rm, lstat.
  destruct (split_last p) as [[parent name]|]; [|discriminate].
  destruct (namei MAXSYMLINKS s parent) as [c|[phys [m b|m entries|t|]]] eqn:Hparent;
    try discriminate.
  - destruct c; try discriminate.
    destruct (force o); [|discriminate].
    intros Heq. inversion Heq. left. split; [reflexivity | eauto].
  - destruct (can_search m) eqn:Hx; [|discriminate].
    destruct (lookup_entry name entries) as [n0|] eqn:Hl.
    + destruct (is_dir n0 && negb (recursive o)); [discriminate|].
      destruct (can_write m); [|discriminate].
      intros Heq. inversion Heq. right.
      exists parent, name, phys, m, entries, n0. auto.
    + destruct (force o); [|discriminate].
      intros Heq. inversion Heq. left. split; [reflexivity | eauto].
Qed.

Lemma lstat_after_remove s parent name phys m entries p :
  split_last p = Some (parent, name) ->
  namei MAXSYMLINKS s parent = inr (phys, Dir m entries) ->
  exists e, lstat (remove_at phys name s) p = Err e.
Proof.
  intros Hsplit Hparent. unfold lstat. rewrite Hsplit.
  destruct (namei MAXSYMLINKS (remove_at phys name s) parent)
    as [c|[phys' n']] eqn:Hparent'; [eauto|].
  apply namei_residual in Hparent' as (n & Hn & ->).
  rewrite Hparent in Hn. inversion Hn; subst.
  unfold residual. rewrite strip_prefix_refl. simpl.
  destruct (can_search m); [|eauto].
  rewrite lookup_entry_filter_same. eauto.
Qed.

Lemma lstat_before_remove P name s p st :
  lstat (remove_at P name s) p = Ok st -> exists st', lstat s p = Ok st'.
Proof.
  unfold lstat. destruct (split_last p) as [[parent name']|]; [|eauto].
  destruct (namei MAXSYMLINKS (remove_at P name s) parent)
    as [c|[phys' n']] eqn:Hparent'; [discriminate|].
  apply namei_residual in Hparent' as (n & -> & ->).
  destruct (residual P name phys' n) as [m b|m entries'|t|] eqn:Hres;
    try discriminate.
  destruct (@residual_dir_inv P name phys' n m entries' Hres) as (entries & ->).
  destruct (can_search m); [|discriminate].
  destruct (lookup_entry name' entries') as [n1'|] eqn:Hl; [|discriminate].
  destruct (@lookup_entry_residual P name phys' m entries entries' name' n1' Hres Hl)
    as (n1 & -> & _).
  eauto.
Qed.

Lemma rm_gone s p o s' : rm s p o = Ok s' -> exists e, lstat s' p = Err e.
Proof.
  intros Hrm. apply rm_ok_cases in Hrm
    as [[-> Hgone]|(parent & name & phys & m & entries & n0
                    & Hsplit & Hparent & _ & _ & ->)]; [assumption|].
  now apply lstat_after_remove with parent m entries.
Qed.

Lemma rm_keeps_gone s q o s' p :
  rm s q o = Ok s' ->
  (exists e, lstat s p = Err e) -> exists e, lstat s' p = Err e.
Proof.
  intros Hrm Hgone. apply rm_ok_cases in Hrm
    as [[-> _]|(parent & name & phys & m & entries & n0
                & _ & _ & _ & _ & ->)]; [assumption|].
  destruct (lstat (remove_at phys name s) p) as [st|e] eqn:Hl; [|eauto].
  apply lstat_before_remove in Hl as (st' & Hl).
  destruct Hgone as (e & Hgone). congruence.
Qed.

(** ** Removal keeps the directories *)

Lemma strip_prefix_nil_eq a : forall b, strip_prefix a b = Some [] -> a = b.
Proof.
  induction a as [|x a IH]; intros [|y b]; simpl; try discriminate; try congruence.
  destruct (String.eqb x y) eqn:Hxy; [|discriminate].
  apply String.eqb_eq in Hxy. intros Hs. now rewrite (IH _ Hs), Hxy.
Qed.

Lemma lookup_entry_filter_other name c entries :
  c <> name ->
  lookup_entry c (filter (fun e => negb (String.eqb (fst e) name)) entries)
  = lookup_entry c entries.
Proof.
  intros Hne. induction entries as [|[k n] entries IH]; simpl; [reflexivity|].
  destruct (String.eqb k name) eqn:Hk; simpl.
  - destruct (String.eqb k c) eqn:Hkc; [|exact IH].
    apply String.eqb_eq in Hk, Hkc. congruence.
  - now rewrite IH.
Qed.

Lemma stats_of_residual P name phys n :
  stats_of (residual P name phys n) = stats_of n.
Proof.
  destruct n as [m b|m entries|t|];
    try (now rewrite residual_not_dir by reflexivity).
  now destruct (residual_dir P name phys m entries) as (entries' & ->).
Qed.

Lemma split_last_app p parent name :
  split_last p = Some (parent, name) -> p = parent ++ [name].
Proof.
  unfold split_last. destruct (rev p) as [|x rp] eqn:Hrev; [discriminate|].
  intros Heq. inversion Heq; subst.
  rewrite <- (rev_involutive p), Hrev. reflexivity.
Qed.

Section Frame.
Variable root : node.
Variable P : path.
Variable name : string.
Variable m0 : mode.
Variable entries0 : list (string * node).
Variable n0 : node.
Hypothesis HP : node_at root P = Some (Dir m0 entries0).
Hypothesis Hn0 : lookup_entry name entries0 = Some n0.
Hypothesis Hn0_not_dir : is_dir n0 = false.
Hypothesis Hn0_link :
  forall t hops phys n,
    n0 = Symlink t -> namei hops root t = inr (phys, n) -> is_dir n = false.

Lemma lookup_entry_residual_fwd phys m entries c n :
  lookup_entry c entries = Some n ->
  exists entries',
    residual P name phys (Dir m entries) = Dir m entries'
    /\ ((phys = P /\ c = name)
        \/ lookup_entry c entries' = Some (residual P name (phys ++ [c]) n)).
Proof.
  intros Hl. unfold residual. rewrite strip_prefix_snoc.
  destruct (strip_prefix phys P) as [[|c0 rel]|] eqn:Hstrip; simpl.
  - eexists. split; [reflexivity|].
    destruct (String.eqb c name) eqn:Hc.
    + left. apply String.eqb_eq in Hc. now apply strip_prefix_nil_eq in Hstrip.
    + right. apply String.eqb_neq in Hc. now rewrite lookup_entry_filter_other.
  - eexists. split; [reflexivity|]. right.
    rewrite lookup_entry_update, Hl. now destruct (String.eqb c c0).
  - eexists. split; [reflexivity|]. now right.
Qed.

Lemma descend_frame hops follow' :
  (forall p phys n,
      follow_of hops root p = inr (phys, n) -> is_dir n = true ->
      follow' p = inr (phys, residual P name phys n)) ->
  forall p phys0 cur phys n,
    node_at root phys0 = Some cur ->
    descend (follow_of hops root) phys0 cur p = inr (phys, n) ->
    is_dir n = true ->
    descend follow' phys0 (residual P name phys0 cur) p
    = inr (phys, residual P name phys n).
Proof.
  intros Hf. induction p as [|c rest IH]; intros phys0 cur phys n Hcur; simpl.
  - intros Heq _. now inversion Heq; subst.
  - destruct cur as [m b|m entries|t|]; try discriminate.
    destruct (can_search m) eqn:Hx; [|discriminate].
    destruct (lookup_entry c entries) as [n1|] eqn:Hl; [|discriminate].
    destruct (@lookup_entry_residual_fwd phys0 m entries c n1 Hl)
      as (entries' & -> & [[-> ->]|Hl']).
    + (* the removed entry itself *)
      rewrite HP in Hcur. inversion Hcur; subst.
      rewrite Hn0 in Hl. inversion Hl; subst n1.
      intros Hrun Hdir. exfalso.
      destruct n0 as [m1 b1|m1 entries1|t1|]; try discriminate.
      * destruct rest; simpl in Hrun; [|discriminate].
        inversion Hrun; subst. discriminate.
      * destruct hops as [|hops']; simpl in Hrun; [discriminate|].
        destruct (namei_app_dir _ _ _ _ Hrun Hdir) as (P' & cur' & Ht & Hcur').
        erewrite Hn0_link in Hcur'; [discriminate | reflexivity | exact Ht].
      * destruct rest; simpl in Hrun; [|discriminate].
        inversion Hrun; subst. discriminate.
    + rewrite Hx, Hl'.
      pose proof (node_at_snoc _ _ _ Hcur Hl) as Hn1.
      intros Hrun Hdir.
      destruct n1 as [m1 b1|m1 entries1|t1|].
      * pose proof (IH _ _ _ _ Hn1 Hrun Hdir) as IH'.
        now rewrite (@residual_not_dir P name (phys0 ++ [c]) (File m1 b1) eq_refl)
          in IH' |- *.
      * pose proof (IH _ _ _ _ Hn1 Hrun Hdir) as IH'.
        destruct (residual_dir P name (phys0 ++ [c]) m1 entries1)
          as (entries1' & Heq).
        now rewrite Heq in IH' |- *.
      * rewrite residual_not_dir by reflexivity. now apply Hf.
      * pose proof (IH _ _ _ _ Hn1 Hrun Hdir) as IH'.
        now rewrite (@residual_not_dir P name (phys0 ++ [c]) Special eq_refl)
          in IH' |- *.
Qed.

Lemma namei_frame hops : forall p phys n,
  namei hops root p = inr (phys, n) ->
  is_dir n = true ->
  namei hops (remove_at P name root) p = inr (phys, residual P name phys n).
Proof.
  induction hops as [|hops IH]; intros p phys n; rewrite !namei_unfold;
    rewrite <- (residual_root P name root) at 2;
    apply descend_frame; simpl; (discriminate || auto).
Qed.
End Frame.


(** ** Invariants of the world *)

Section World_invariant.
Variable Inv : world -> Prop.
Hypothesis Inv_readdir : forall p w, Inv w -> Inv (world_of (fs_promises_readdir p w)).
Hypothesis Inv_stat : forall p w, Inv w -> Inv (world_of (fs_promises_stat p w)).
Hypothesis Inv_rm :
  forall p st w,
    Inv w -> stat (fs w) p = Ok st -> isFile st = true ->
    Inv (world_of (fs_promises_rm p stale_rm_options
                     (record w (EvStat p (Ok st)) (fs w)))).
Hypothesis Inv_isBinaryFile :
  forall p w, Inv w -> Inv (world_of (isBinaryFile_async p w)).

Lemma Inv_await {A B : Type} (p : Promise A) (k : A -> Promise B) :
  (forall w, Inv w -> Inv (world_of (p w))) ->
  (forall a w, Inv w -> Inv (world_of (k a w))) ->
  forall w, Inv w -> Inv (world_of (await_then p k w)).
Proof.
  intros Hp Hk w Hw. unfold await_then. specialize (Hp w Hw).
  destruct (p w) as [w1 a|w1 e|w1]; simpl in *; auto.
Qed.

Lemma Inv_Promise_all {A : Type} (tasks : list (Promise A)) :
  Forall (fun task => forall w, Inv w -> Inv (world_of (task w))) tasks ->
  forall w, Inv w -> Inv (world_of (Promise_all tasks w)).
Proof.
  induction 1 as [|task tasks Htask _ IH]; [simpl; auto|].
  intros w Hw. cbn [Promise_all]. specialize (Htask w Hw).
  destruct (task w) as [w1 a|w1 e|w1]; simpl in Htask.
  - revert w1 Htask. apply Inv_await; auto.
  - rewrite world_of_in_flight. now apply IH.
  - assumption.
Qed.

Lemma Inv_walk_child recurse d c :
  (forall q w, Inv w -> Inv (world_of (recurse q w))) ->
  forall w, Inv w -> Inv (world_of (walk_child recurse d c w)).
Proof.
  intros Hrec w Hw. unfold walk_child, await_then at 1.
  pose proof (@Inv_stat (path_resolve d c) w Hw) as Hstat.
  unfold fs_promises_stat in *.
  destruct (stat (fs w) (path_resolve d c)) as [st|e] eqn:Hst; simpl in Hstat;
    [|exact Hstat].
  destruct (isFile st) eqn:Hfile.
  - destruct (String.eqb _ _).
    + unfold await_then.
      pose proof (@Inv_rm _ _ _ Hw Hst Hfile) as Hrm.
      destruct (fs_promises_rm _ _ _); exact Hrm.
    + unfold getFilePathIfBinary. revert Hstat.
      apply Inv_await; [apply Inv_isBinaryFile|]. intros [|]; auto.
  - destruct (isDirectory st && negb (isSymbolicLink st)); [|exact Hstat].
    revert Hstat. apply Inv_await; [apply Hrec | auto].
Qed.

Lemma Inv__walkAsync fuel :
  forall d w, Inv w -> Inv (world_of (_walkAsync fuel d w)).
Proof.
  induction fuel as [|fuel IH]; intros d; simpl; [auto|].
  apply Inv_await; [apply Inv_readdir|]. intros children.
  apply Inv_Promise_all, Forall_forall.
  intros task Hin. apply in_map_iff in Hin as (c & <- & _).
  now apply Inv_walk_child.
Qed.

Lemma Inv_walk fuel d w : Inv w -> Inv (world_of (walk fuel d w)).
Proof.
  unfold walk. revert w.
  apply Inv_await; [apply Inv__walkAsync | auto].
Qed.
End World_invariant.

Lemma removed_gone_same_fs w ev :
  (forall p o, ev <> EvRm p o (Ok tt)) ->
  removed_gone w -> removed_gone (record w ev (fs w)).
Proof.
  intros Hev Hw p o Hin. simpl in *.
  apply in_app_or in Hin as [Hin|[Heq|[]]]; [now apply Hw in Hin|].
  now apply Hev in Heq.
Qed.

Lemma removed_gone_walk fuel s root :
  removed_gone (world_of (run_walk fuel s root)).
Proof.
  unfold run_walk. apply Inv_walk.
  - intros p w Hw. unfold fs_promises_readdir.
    destruct (readdir (fs w) p); simpl; now apply removed_gone_same_fs.
  - intros p w Hw. unfold fs_promises_stat.
    destruct (stat (fs w) p); simpl; now apply removed_gone_same_fs.
  - intros p st w Hw _ _.
    apply (removed_gone_same_fs (w := w) (ev := EvStat p (Ok st))) in Hw;
      [|discriminate].
    revert Hw. generalize (record w (EvStat p (Ok st)) (fs w)). clear w.
    intros w Hw. unfold fs_promises_rm.
    destruct (rm (fs w) p stale_rm_options) as [s'|e] eqn:Hrm; simpl.
    + intros p' o' Hin. simpl in *.
      apply in_app_or in Hin as [Hin|[Heq|[]]].
      * apply rm_keeps_gone with (fs w) p stale_rm_options;
          [assumption | now apply Hw in Hin].
      * inversion Heq; subst. now apply rm_gone with (fs w) stale_rm_options.
    + now apply removed_gone_same_fs.
  - intros p w Hw. unfold isBinaryFile_async.
    destruct (isBinaryFile (fs w) p); simpl; now apply removed_gone_same_fs.
  - intros p o [].
Qed.


(** ** Fuel

    An outcome other than running out of fuel does not depend on the fuel:
    more fuel gives the same outcome; and there is enough fuel. *)

Lemma await_settled {A B : Type} (p p' : Promise A) (k k' : A -> Promise B) w :
  (settled (p w) -> p' w = p w) ->
  (forall a w1, settled (k a w1) -> k' a w1 = k a w1) ->
  settled (await_then p k w) -> await_then p' k' w = await_then p k w.
Proof.
  unfold await_then. intros Hp Hk Hs.
  destruct (p w) as [w1 a|w1 e|w1] eqn:Hpw; simpl in *.
  - rewrite Hp by exact I. now apply Hk.
  - now rewrite Hp.
  - contradiction.
Qed.

Lemma Promise_all_settled {A C : Type} (f f' : C -> Promise A) (cs : list C) :
  (forall c w, settled (f c w) -> f' c w = f c w) ->
  forall w, settled (Promise_all (map f cs) w) ->
            Promise_all (map f' cs) w = Promise_all (map f cs) w.
Proof.
  intros Hf. induction cs as [|c cs IH]; intros w Hs;
    cbn [map Promise_all] in *; [reflexivity|].
  destruct (f c w) as [w1 a|w1 e|w1] eqn:Hfc.
  - rewrite Hf by (rewrite Hfc; exact I). rewrite Hfc.
    apply await_settled; [apply IH | auto | exact Hs].
  - rewrite Hf by (rewrite Hfc; exact I). rewrite Hfc.
    unfold in_flight in *.
    destruct (Promise_all (map f cs) w1) eqn:Hrest; simpl in Hs;
      try contradiction; rewrite IH by (rewrite Hrest; exact I);
      now rewrite Hrest.
  - contradiction.
Qed.

Lemma walk_child_settled recurse recurse' d c w :
  (forall q w1, settled (recurse q w1) -> recurse' q w1 = recurse q w1) ->
  settled (walk_child recurse d c w) ->
  walk_child recurse' d c w = walk_child recurse d c w.
Proof.
  intros Hrec. unfold walk_child.
  apply await_settled; [auto|]. intros st w1.
  destruct (isFile st); [auto|].
  destruct (isDirectory st && negb (isSymbolicLink st)); [|auto].
  apply await_settled; [apply Hrec | auto].
Qed.

Lemma _walkAsync_more_fuel fuel : forall extra d w,
  settled (_walkAsync fuel d w) ->
  _walkAsync (fuel + extra) d w = _walkAsync fuel d w.
Proof.
  induction fuel as [|fuel IH]; intros extra d w Hs; simpl in *; [contradiction|].
  apply await_settled; [auto | | exact Hs].
  intros children w1. apply Promise_all_settled.
  intros c w2. apply walk_child_settled. intros q w3. apply IH.
Qed.

Lemma run_walk_more_fuel fuel extra s root :
  settled (run_walk fuel s root) ->
  run_walk (fuel + extra) s root = run_walk fuel s root.
Proof.
  unfold run_walk, walk. intros Hs.
  apply await_settled; [apply _walkAsync_more_fuel | auto | exact Hs].
Qed.

Lemma lookup_entry_height c entries n m :
  lookup_entry c entries = Some n -> height n < height (Dir m entries).
Proof.
  simpl. induction entries as [|[k n0] entries IH]; simpl; [discriminate|].
  destruct (String.eqb k c).
  - intros Heq. inversion Heq; subst. lia.
  - intros Hl. specialize (IH Hl). lia.
Qed.

Lemma descend_length follow bound :
  (forall q r, follow q = inr r -> List.length q <= bound) ->
  forall p phys cur r,
    descend follow phys cur p = inr r ->
    List.length p <= height cur + bound.
Proof.
  intros Hf. induction p as [|c rest IH]; intros phys cur r; simpl; [lia|].
  destruct cur as [m b|m entries|t|]; try discriminate.
  destruct (can_search m); [|discriminate].
  destruct (lookup_entry c entries) as [n1|] eqn:Hl; [|discriminate].
  pose proof (lookup_entry_height _ _ m Hl) as Hlt.
  destruct n1 as [m1 b1|m1 entries1|t1|].
  - intros Hr. apply IH in Hr. simpl in *. lia.
  - intros Hr. apply IH in Hr. lia.
  - intros Hr. apply Hf in Hr. rewrite length_app in Hr. simpl in *. lia.
  - intros Hr. apply IH in Hr. simpl in *. lia.
Qed.

Lemma namei_length hops root : forall p r,
  namei hops root p = inr r -> List.length p <= S hops * height root.
Proof.
  induction hops as [|hops IH]; intros p r; rewrite namei_unfold; intros Hr.
  - apply descend_length with (bound := 0) in Hr; [lia | discriminate].
  - apply descend_length with (bound := S hops * height root) in Hr;
      [|exact IH].
    simpl in *. lia.
Qed.

Lemma stat_length s p st : stat s p = Ok st -> List.length p <= longest_path s.
Proof.
  unfold stat, longest_path.
  destruct (namei MAXSYMLINKS s p) as [e|r] eqn:Hr; [discriminate|].
  intros _. now apply namei_length in Hr.
Qed.

Lemma list_max_map_le {A : Type} (f g : A -> nat) (l : list A) :
  (forall a, In a l -> f a <= g a) ->
  list_max (map f l) <= list_max (map g l).
Proof.
  induction l as [|a l IH]; simpl; [lia|].
  intros Hfg. specialize (IH (fun a' Ha => Hfg a' (or_intror Ha))).
  specialize (Hfg a (or_introl eq_refl)). lia.
Qed.

Lemma list_max_filter_le {A : Type} (f : A -> nat) (keep : A -> bool) (l : list A) :
  list_max (map f (filter keep l)) <= list_max (map f l).
Proof.
  induction l as [|a l IH]; simpl; [lia|].
  destruct (keep a); simpl; lia.
Qed.

Lemma remove_at_height name : forall P n,
  height (remove_at P name n) <= height n.
Proof.
  induction P as [|c P IH]; intros n; destruct n as [m b|m entries|t|];
    simpl; try lia.
  - apply le_n_S, list_max_filter_le.
  - apply le_n_S. rewrite map_map. apply list_max_map_le.
    intros [k n1] _. simpl. destruct (String.eqb k c); simpl; [apply IH | lia].
Qed.

Lemma rm_height s p o s' : rm s p o = Ok s' -> height s' <= height s.
Proof.
  intros Hrm. apply rm_ok_cases in Hrm
    as [[-> _]|(parent & name & phys & m & entries & n0
                & _ & _ & _ & _ & ->)]; [lia|].
  apply remove_at_height.
Qed.

Section Enough_fuel.
Variable limit : nat.

Lemma within_limit_walk_child recurse d c :
  (forall q w, within_limit limit w -> within_limit limit (world_of (recurse q w))) ->
  forall w, within_limit limit w -> within_limit limit (world_of (walk_child recurse d c w)).
Proof.
  apply Inv_walk_child.
  - intros p w Hw. unfold fs_promises_stat. now destruct (stat (fs w) p).
  - intros p st w Hw _ _. unfold fs_promises_rm, within_limit in *. simpl.
    destruct (rm (fs w) p stale_rm_options) as [s'|e] eqn:Hrm; simpl; [|assumption].
    apply rm_height in Hrm. lia.
  - intros p w Hw. unfold isBinaryFile_async. now destruct (isBinaryFile (fs w) p).
Qed.

Lemma within_limit__walkAsync fuel d w :
  within_limit limit w -> within_limit limit (world_of (_walkAsync fuel d w)).
Proof.
  apply Inv__walkAsync.
  - intros p w0 Hw. unfold fs_promises_readdir. now destruct (readdir (fs w0) p).
  - intros p w0 Hw. unfold fs_promises_stat. now destruct (stat (fs w0) p).
  - intros p st w0 Hw _ _. unfold fs_promises_rm, within_limit in *. simpl.
    destruct (rm (fs w0) p stale_rm_options) as [s'|e] eqn:Hrm; simpl; [|assumption].
    apply rm_height in Hrm. lia.
  - intros p w0 Hw. unfold isBinaryFile_async. now destruct (isBinaryFile (fs w0) p).
Qed.

Lemma walk_child_settles recurse d c w :
  (forall w1 st,
      fs w1 = fs w -> stat (fs w) (path_resolve d c) = Ok st ->
      settled (recurse (path_resolve d c) w1)) ->
  settled (walk_child recurse d c w).
Proof.
  intros Hrec. unfold walk_child, await_then at 1, fs_promises_stat.
  destruct (stat (fs w) (path_resolve d c)) as [st|e] eqn:Hst; [|exact I].
  destruct (isFile st).
  - destruct (String.eqb _ _).
    + unfold await_then, fs_promises_rm. simpl.
      now destruct (rm (fs w) (path_resolve d c) _).
    + unfold getFilePathIfBinary, await_then, isBinaryFile_async. simpl.
      now destruct (isBinaryFile (fs w) (path_resolve d c)) as [[|]|].
  - destruct (isDirectory st && negb (isSymbolicLink st)); [|exact I].
    unfold await_then.
    specialize (Hrec (record w (EvStat (path_resolve d c) (Ok st)) (fs w)) st
                  eq_refl eq_refl).
    now destruct (recurse _ _).
Qed.

Lemma walk_children_settle recurse d :
  (forall q w, within_limit limit w -> within_limit limit (world_of (recurse q w))) ->
  (forall c w st,
      within_limit limit w -> stat (fs w) (path_resolve d c) = Ok st ->
      settled (recurse (path_resolve d c) w)) ->
  forall cs w,
    within_limit limit w -> settled (Promise_all (map (walk_child recurse d) cs) w).
Proof.
  intros Hinv Hrec. induction cs as [|c cs IH]; intros w Hw;
    cbn [map Promise_all]; [exact I|].
  pose proof (within_limit_walk_child recurse d c Hinv Hw) as Hw1.
  assert (Hc : settled (walk_child recurse d c w)).
  { apply walk_child_settles. intros w1 st Hfs Hst.
    apply Hrec with st; [unfold within_limit; now rewrite Hfs | now rewrite Hfs]. }
  destruct (walk_child recurse d c w) as [w1 v|w1 e|w1]; simpl in Hw1, Hc;
    [| |contradiction].
  - unfold await_then. specialize (IH w1 Hw1).
    now destruct (Promise_all _ w1).
  - unfold in_flight. specialize (IH w1 Hw1).
    now destruct (Promise_all _ w1).
Qed.

Lemma _walkAsync_settles fuel : forall d w,
  within_limit limit w ->
  S MAXSYMLINKS * limit < fuel + List.length d ->
  (fuel = 0 -> List.length d <= S MAXSYMLINKS * limit) ->
  settled (_walkAsync fuel d w).
Proof.
  induction fuel as [|fuel IH]; intros d w Hw Hfuel Hlen.
  - specialize (Hlen eq_refl). lia.
  - simpl. unfold await_then at 1, fs_promises_readdir.
    destruct (readdir (fs w) d) as [children|e]; [|exact I].
    apply walk_children_settle.
    + intros q w0. apply within_limit__walkAsync.
    + intros c w0 st Hw0 Hst.
      assert (Hbound : List.length (path_resolve d c) <= S MAXSYMLINKS * limit).
      { apply stat_length in Hst. unfold longest_path in Hst.
        unfold within_limit in Hw0.
        apply Nat.le_trans with (S MAXSYMLINKS * height (fs w0)); [assumption|].
        now apply Nat.mul_le_mono_l. }
      apply IH; [assumption | | auto].
      unfold path_resolve. rewrite length_app. cbn [List.length]. lia.
    + exact Hw.
Qed.
End Enough_fuel.

(** With fuel beyond the longest path that resolves, [walk] resolves or
    rejects on every filesystem and every root, symbolic links in a cycle
    included; more fuel gives the same outcome. *)
Theorem walk_returns :
  forall s root extra,
    settled (run_walk (S (longest_path s)) s root)
    /\ run_walk (S (longest_path s) + extra) s root
       = run_walk (S (longest_path s)) s root.
Proof.
  intros s root extra.
  assert (Hs : settled (run_walk (S (longest_path s)) s root)).
  { unfold run_walk, walk, await_then.
    assert (H : settled (_walkAsync (S (longest_path s)) root
                           {| fs := s; trace := [] |})).
    { apply _walkAsync_settles with (limit := height s).
      - unfold within_limit. simpl. lia.
      - unfold longest_path. lia.
      - discriminate. }
    now destruct (_walkAsync _ _ _). }
  split; [exact Hs | now apply run_walk_more_fuel].
Qed.

(** ** A resolved walk leaves a well-formed log *)

Section Resolved_log.
Variable recurse : path -> Promise (DeepList path).
Hypothesis recurse_log :
  forall q w w' vs,
    recurse q w = Resolved w' vs ->
    exists evs, trace w' = trace w ++ evs /\ dir_log q evs vs.

Lemma walk_child_log d c w w' v :
  walk_child recurse d c w = Resolved w' v ->
  exists evs, trace w' = trace w ++ evs /\ child_log (path_resolve d c) evs v.
Proof.
  unfold walk_child. intros Hrun.
  await_inv Hrun. rename a into st.
  apply fs_promises_stat_resolved in Hcall as [Hstat ->].
  destruct (isFile st) eqn:Hfile.
  - destruct (String.eqb (extname (path_resolve d c)) ".cstemp") eqn:Hext.
    + await_inv Hrun.
      apply fs_promises_rm_resolved in Hcall as (s' & Hrm & ->).
      inversion Hrun; subst.
      exists [EvStat (path_resolve d c) (Ok st);
              EvRm (path_resolve d c) stale_rm_options (Ok tt)].
      split; [simpl; now rewrite <- app_assoc|].
      apply log_stale; [assumption | now apply String.eqb_eq].
    + unfold getFilePathIfBinary in Hrun. await_inv Hrun. rename a into b.
      apply isBinaryFile_async_resolved in Hcall as [Hbin ->].
      exists [EvStat (path_resolve d c) (Ok st);
              EvIsBinary (path_resolve d c) (Ok b)].
      split.
      * destruct b; inversion Hrun; subst; simpl; now rewrite <- app_assoc.
      * replace v with (if b then Item (path_resolve d c) else @Null path)
          by (destruct b; now inversion Hrun).
        apply log_file; [assumption | now apply String.eqb_neq].
  - destruct (isDirectory st && negb (isSymbolicLink st)) eqn:Hdir.
    + await_inv Hrun. rename a into vs.
      apply recurse_log in Hcall as (evs & Htrace & Hlog).
      inversion Hrun; subst.
      exists (EvStat (path_resolve d c) (Ok st) :: evs). split.
      * rewrite Htrace. simpl. now rewrite <- app_assoc.
      * now apply log_dir.
    + inversion Hrun; subst.
      exists [EvStat (path_resolve d c) (Ok st)]. split; [reflexivity|].
      now apply log_other.
Qed.

Lemma walk_children_log d cs : forall w w' vs,
  Promise_all (map (walk_child recurse d) cs) w = Resolved w' vs ->
  exists evs, trace w' = trace w ++ evs /\ children_log d cs evs vs.
Proof.
  induction cs as [|c cs IH]; intros w w' vs Hrun; cbn [map] in Hrun.
  - inversion Hrun; subst. exists []. split; [now rewrite app_nil_r | constructor].
  - apply Promise_all_resolved in Hrun as (w0 & v & vs' & Hcall & Hcall0 & ->).
    apply walk_child_log in Hcall as (evs1 & Ht1 & Hlog1).
    apply IH in Hcall0 as (evs2 & Ht2 & Hlog2).
    exists (evs1 ++ evs2). split.
    + rewrite Ht2, Ht1. now rewrite app_assoc.
    + now constructor.
Qed.
End Resolved_log.

Lemma _walkAsync_log fuel : forall d w w' vs,
  _walkAsync fuel d w = Resolved w' vs ->
  exists evs, trace w' = trace w ++ evs /\ dir_log d evs vs.
Proof.
  induction fuel as [|fuel IH]; intros d w w' vs Hrun; simpl in Hrun.
  - discriminate.
  - await_inv Hrun. rename a into children.
    apply fs_promises_readdir_resolved in Hcall as [Hls ->].
    apply (@walk_children_log (_walkAsync fuel) IH) in Hrun as (evs & Htrace & Hlog).
    exists (EvReaddir d (Ok children) :: evs). split.
    + rewrite Htrace. simpl. now rewrite <- app_assoc.
    + constructor; [now apply readdir_NoDup in Hls | assumption].
Qed.

Lemma path_truthy_true (p : path) : truthy p = true.
Proof. destruct p; reflexivity. Qed.

Lemma compactFlattenedList_paths (vs : DeepList path) :
  compactFlattenedList vs = flat_map nonnull_leaves vs.
Proof.
  rewrite compactFlattenedList_filter.
  apply forallb_filter_id, forallb_forall. intros p _. apply path_truthy_true.
Qed.

Lemma run_walk_log fuel s root w out :
  run_walk fuel s root = Resolved w out ->
  exists vs, dir_log root (trace w) vs /\ out = flat_map nonnull_leaves vs.
Proof.
  unfold run_walk, walk. intros Hrun.
  await_inv Hrun. rename a into vs.
  apply _walkAsync_log in Hcall as (evs & Htrace & Hlog).
  inversion Hrun; subst. simpl in Htrace. subst evs.
  exists vs. split; [assumption | apply compactFlattenedList_paths].
Qed.

(** ** The order of the output *)

Lemma inside_within X q : inside X q -> within X q.
Proof. intros (rest & _ & ->). now exists rest. Qed.

Lemma inside_irrefl X : ~ inside X X.
Proof.
  intros (rest & Hne & Heq). apply Hne.
  rewrite <- (app_nil_r X) in Heq at 1. now apply app_inv_head in Heq.
Qed.

Lemma inside_asym X B : inside X B -> ~ inside B X.
Proof.
  intros (r1 & Hne & ->) (r2 & _ & Heq).
  rewrite <- app_assoc in Heq. rewrite <- (app_nil_r B) in Heq at 1.
  apply app_inv_head in Heq. symmetry in Heq.
  apply app_eq_nil in Heq as [-> _]. now apply Hne.
Qed.

Lemma within_inside_trans X B q : inside X B -> within B q -> inside X q.
Proof.
  intros (r1 & Hne & ->) (r2 & ->). exists (r2 ++ r1). split.
  - intros Heq. apply app_eq_nil in Heq as [_ ->]. now apply Hne.
  - now rewrite app_assoc.
Qed.

Lemma within_child_inside X d c : within X (path_resolve d c) -> inside X d.
Proof.
  intros (rest & ->). exists (c :: rest).
  split; [discriminate | unfold path_resolve; now rewrite <- app_assoc].
Qed.

(** Two paths under different children of one directory are unrelated. *)
Lemma within_children_disjoint X B d c c' rest :
  within B (path_resolve d c) -> X = d ++ c' :: rest -> inside X B -> c' = c.
Proof.
  intros (r1 & ->) -> (r2 & _ & Heq).
  unfold path_resolve in Heq. rewrite <- !app_assoc in Heq.
  apply app_inv_head in Heq. simpl in Heq. now inversion Heq.
Qed.

Lemma sorted_out_nil : sorted_out [].
Proof. intros l1 B l2 Heq. destruct l1; discriminate. Qed.

Lemma sorted_out_app l l' :
  sorted_out l -> sorted_out l' ->
  (forall B X, In B l -> In X l' -> ~ inside X B) ->
  sorted_out (l ++ l').
Proof.
  intros Hl Hl' Hcross l1 B l2 Heq X HX.
  apply app_eq_app in Heq as (mid & [[-> Heq] | [-> ->]]).
  - destruct mid as [|m mid].
    + simpl in Heq. subst l'. apply (Hl' [] B l2 eq_refl X HX).
    + simpl in Heq. inversion Heq; subst. clear Heq.
      apply in_app_or in HX as [HX|HX].
      * apply (Hl l1 m mid eq_refl X HX).
      * apply Hcross; [|assumption]. apply in_or_app. right. now left.
  - apply (Hl' mid B l2 eq_refl X HX).
Qed.

Lemma sorted_out_single q : sorted_out [q].
Proof.
  intros l1 B l2 Heq X HX.
  destruct l1 as [|a [|b l1]]; simpl in Heq; inversion Heq; subst;
    try contradiction.
Qed.

Lemma walk_log_order :
  (forall q evs v, child_log q evs v ->
     Forall (fun X => within X q) (nonnull_leaves v)
     /\ sorted_out (nonnull_leaves v))
  /\ (forall d evs vs, dir_log d evs vs ->
        Forall (fun X => inside X d) (flat_map nonnull_leaves vs)
        /\ sorted_out (flat_map nonnull_leaves vs))
  /\ (forall d cs evs vs, children_log d cs evs vs ->
        Forall (fun X => exists c rest, In c cs /\ X = d ++ c :: rest)
          (flat_map nonnull_leaves vs)
        /\ (NoDup cs -> sorted_out (flat_map nonnull_leaves vs))).
Proof.
  apply walk_log_ind.
  - (* stale artifact *)
    intros. split; [constructor | apply sorted_out_nil].
  - (* regular file *)
    intros q st b _ _. destruct b; simpl.
    + split; [|apply sorted_out_single].
      constructor; [|constructor]. exists []. now rewrite app_nil_r.
    + split; [constructor | apply sorted_out_nil].
  - (* directory *)
    intros q st evs vs _ _ _ [Hin Hsorted].
    assert (Hsub : Forall (fun X => within X q) (flat_map nonnull_leaves vs)).
    { eapply Forall_impl; [|exact Hin]. intros X. apply inside_within. }
    destruct (is_bundle q); cbn [nonnull_leaves]; [|now split].
    rewrite flat_map_app. simpl. split.
    + apply Forall_app. split; [assumption|].
      constructor; [|constructor]. exists []. now rewrite app_nil_r.
    + apply sorted_out_app; [assumption | apply sorted_out_single |].
      intros B X HB [<-|[]]. rewrite Forall_forall in Hin.
      apply inside_asym. now apply Hin.
  - (* anything else *)
    intros. split; [constructor | apply sorted_out_nil].
  - (* a directory listing *)
    intros d children evs vs Hnodup _ [Hin Hsorted]. split; [|now apply Hsorted].
    eapply Forall_impl; [|exact Hin].
    intros X (c & rest & _ & ->). exists (c :: rest). split; [discriminate|reflexivity].
  - (* no child *)
    intros d. split; [constructor | intros _; apply sorted_out_nil].
  - (* a child and the rest *)
    intros d c cs evs1 v evs2 vs _ [Hv Hsv] _ [Hvs Hsvs]. simpl. split.
    + apply Forall_app. split.
      * eapply Forall_impl; [|exact Hv]. intros X (rest & ->).
        exists c, rest. split; [now left|].
        unfold path_resolve. now rewrite <- app_assoc.
      * eapply Forall_impl; [|exact Hvs]. intros X (c' & rest & Hc' & ->).
        exists c', rest. split; [now right | reflexivity].
    + intros Hnodup. inversion Hnodup as [|? ? Hnotin Hnodup']; subst.
      apply sorted_out_app; [assumption | now apply Hsvs |].
      intros B X HB HX Hinside.
      rewrite Forall_forall in Hv, Hvs.
      destruct (Hvs X HX) as (c' & rest & Hc' & HeqX).
      apply Hnotin.
      now rewrite <- (@within_children_disjoint X B d c c' rest (Hv B HB) HeqX Hinside).
Qed.

Lemma sorted_out_bundle_order out : sorted_out out -> bundle_order out.
Proof.
  intros Hsorted i j X B Hi Hj Hinside.
  destruct (Nat.lt_ge_cases i j) as [Hlt|Hge]; [assumption|exfalso].
  apply nth_error_split in Hj as (l1 & l2 & -> & <-).
  apply Nat.lt_eq_cases in Hge as [Hlt|Heq].
  - rewrite nth_error_app2 in Hi by lia.
    destruct (i - List.length l1) as [|k] eqn:Hk; [lia|].
    simpl in Hi. apply nth_error_In in Hi.
    apply (Hsorted l1 B l2 eq_refl X Hi Hinside).
  - subst i. rewrite nth_error_app2, Nat.sub_diag in Hi by lia.
    simpl in Hi. inversion Hi; subst. now apply inside_irrefl in Hinside.
Qed.

(** ** Where the events and the paths of a log lie *)

Lemma within_refl X : within X X.
Proof. exists []. now rewrite app_nil_r. Qed.

Lemma within_trans X Y Z : within X Y -> within Y Z -> within X Z.
Proof. intros (r1 & ->) (r2 & ->). exists (r2 ++ r1). now rewrite app_assoc. Qed.

Lemma inside_not_within X B : inside X B -> ~ within B X.
Proof.
  intros Hin (r & Heq). destruct Hin as (r' & Hne & ->).
  rewrite <- app_assoc in Heq. rewrite <- (app_nil_r B) in Heq at 1.
  apply app_inv_head in Heq. symmetry in Heq.
  apply app_eq_nil in Heq as [-> _]. now apply Hne.
Qed.

Lemma within_two_children X d c c' :
  within X (path_resolve d c) -> within X (path_resolve d c') -> c = c'.
Proof.
  intros (r1 & ->) (r2 & Heq). unfold path_resolve in Heq.
  rewrite <- !app_assoc in Heq. apply app_inv_head in Heq.
  simpl in Heq. now inversion Heq.
Qed.

Lemma walk_log_paths :
  (forall q evs v, child_log q evs v ->
     Forall (fun ev => within (event_path ev) q) evs)
  /\ (forall d evs vs, dir_log d evs vs ->
        exists children evs',
          evs = EvReaddir d (Ok children) :: evs'
          /\ Forall (fun ev => inside (event_path ev) d) evs')
  /\ (forall d cs evs vs, children_log d cs evs vs ->
        Forall (fun ev => exists c, In c cs
                                    /\ within (event_path ev) (path_resolve d c)) evs).
Proof.
  apply walk_log_ind.
  - intros. repeat constructor; apply within_refl.
  - intros. repeat constructor; apply within_refl.
  - intros q st evs vs _ _ _ (children & evs' & -> & Hin).
    constructor; [apply within_refl|]. constructor; [apply within_refl|].
    eapply Forall_impl; [|exact Hin]. intros ev. apply inside_within.
  - intros. repeat constructor; apply within_refl.
  - intros d children evs vs _ _ Hin. exists children, evs. split; [reflexivity|].
    eapply Forall_impl; [|exact Hin]. intros ev (c & _ & Hc).
    now apply within_child_inside with c.
  - constructor.
  - intros d c cs evs1 v evs2 vs _ H1 _ H2. apply Forall_app. split.
    + eapply Forall_impl; [|exact H1]. intros ev Hev. exists c. split; [now left|assumption].
    + eapply Forall_impl; [|exact H2]. intros ev (c' & Hc' & Hev).
      exists c'. split; [now right|assumption].
Qed.

Lemma children_log_leaves d cs evs vs :
  children_log d cs evs vs ->
  Forall (fun X => exists c, In c cs /\ within X (path_resolve d c))
    (flat_map nonnull_leaves vs).
Proof.
  intros Hlog. apply (proj2 (proj2 walk_log_order)) in Hlog as [Hin _].
  eapply Forall_impl; [|exact Hin]. intros X (c & rest & Hc & ->).
  exists c. split; [assumption|]. exists rest.
  unfold path_resolve. now rewrite <- app_assoc.
Qed.

Lemma sub_log_weaken p st evs l evs' l' evs_p v_p :
  sub_log p st evs l evs_p v_p ->
  incl evs evs' -> incl l l' ->
  (forall ev, In ev evs' -> within (event_path ev) p -> In ev evs) ->
  (forall X, In X l' -> within X p -> In X l) ->
  sub_log p st evs' l' evs_p v_p.
Proof.
  intros (Hlog & Hevs & Hall & Hl & Hlall) Hincl Hincl' Hev HX.
  split; [assumption|]. split; [now apply incl_tran with evs|].
  split; [intros ev Hin Hw; apply Hall; auto|].
  split; [now apply incl_tran with l|].
  intros X Hin Hw. apply Hlall; auto.
Qed.

Lemma sub_log_self q st evs v :
  child_log q (EvStat q (Ok st) :: evs) v ->
  sub_log q st (EvStat q (Ok st) :: evs) (nonnull_leaves v) evs v.
Proof.
  intros Hlog. split; [assumption|]. split; [apply incl_refl|].
  split; [auto|]. split; [apply incl_refl | auto].
Qed.

Lemma walk_log_sub_log :
  (forall q evs v, child_log q evs v ->
     forall p st, In (EvStat p (Ok st)) evs ->
       exists evs_p v_p, sub_log p st evs (nonnull_leaves v) evs_p v_p)
  /\ (forall d evs vs, dir_log d evs vs ->
        forall p st, In (EvStat p (Ok st)) evs ->
          exists evs_p v_p,
            sub_log p st evs (flat_map nonnull_leaves vs) evs_p v_p)
  /\ (forall d cs evs vs, children_log d cs evs vs ->
        NoDup cs ->
        forall p st, In (EvStat p (Ok st)) evs ->
          exists evs_p v_p,
            sub_log p st evs (flat_map nonnull_leaves vs) evs_p v_p).
Proof.
  apply walk_log_ind.
  - (* stale artifact *)
    intros q st Hfile Hext p st' [Heq|[Heq|[]]]; inversion Heq; subst.
    eexists _, _. apply sub_log_self. now apply log_stale.
  - (* regular file *)
    intros q st b Hfile Hext p st' [Heq|[Heq|[]]]; inversion Heq; subst.
    eexists _, _. apply sub_log_self. now apply log_file.
  - (* directory *)
    intros q st evs vs Hfile Hdir Hlog IH p st' [Heq|Hin].
    + inversion Heq; subst. eexists _, _. apply sub_log_self. now apply log_dir.
    + destruct (IH p st' Hin) as (evs_p & v_p & Hsub).
      assert (Hp : inside p q).
      { apply (proj1 (proj2 walk_log_paths)) in Hlog
          as (children & evs' & -> & Hpaths).
        destruct Hin as [Heq|Hin]; [discriminate|].
        rewrite Forall_forall in Hpaths. now apply (Hpaths _ Hin). }
      exists evs_p, v_p. eapply sub_log_weaken; [exact Hsub | | | |].
      * now apply incl_tl.
      * cbn [nonnull_leaves]. destruct (is_bundle q); [|apply incl_refl].
        rewrite flat_map_app. now apply incl_appl, incl_refl.
      * intros ev [<-|Hev] Hw; [|assumption].
        simpl in Hw. now apply inside_not_within in Hp.
      * cbn [nonnull_leaves]. intros X HX Hw.
        destruct (is_bundle q); [|assumption].
        rewrite flat_map_app in HX. apply in_app_or in HX as [HX|[<-|[]]];
          [assumption|]. now apply inside_not_within in Hp.
  - (* anything else *)
    intros q st Hfile Hdir p st' [Heq|[]]; inversion Heq; subst.
    eexists _, _. apply sub_log_self. now apply log_other.
  - (* a directory listing *)
    intros d children evs vs Hnodup Hlog IH p st [Heq|Hin]; [discriminate|].
    destruct (IH Hnodup p st Hin) as (evs_p & v_p & Hsub).
    exists evs_p, v_p. eapply sub_log_weaken; [exact Hsub | | | |].
    + now apply incl_tl.
    + apply incl_refl.
    + intros ev [<-|Hev] Hw; [|assumption]. simpl in Hw. exfalso.
      apply (proj2 (proj2 walk_log_paths)) in Hlog.
      rewrite Forall_forall in Hlog.
      destruct (Hlog _ Hin) as (c & _ & Hc). simpl in Hc.
      apply (@inside_not_within p d); [|assumption].
      now apply within_child_inside with c.
    + auto.
  - (* no child *)
    intros d _ p st [].
  - (* a child and the rest *)
    intros d c cs evs1 v evs2 vs Hlog1 IH1 Hlog2 IH2 Hnodup p st Hin.
    inversion Hnodup as [|? ? Hnotin Hnodup']; subst.
    pose proof (proj1 walk_log_paths _ _ _ Hlog1) as Hp1.
    pose proof (proj2 (proj2 walk_log_paths) _ _ _ _ Hlog2) as Hp2.
    pose proof (proj1 (proj1 walk_log_order _ _ _ Hlog1)) as Hl1.
    pose proof (children_log_leaves Hlog2) as Hl2.
    rewrite Forall_forall in Hp1, Hp2, Hl1, Hl2.
    apply in_app_or in Hin as [Hin|Hin].
    + destruct (IH1 p st Hin) as (evs_p & v_p & Hsub).
      pose proof (Hp1 _ Hin) as Hpc. simpl in Hpc.
      exists evs_p, v_p. eapply sub_log_weaken; [exact Hsub | | | |].
      * now apply incl_appl, incl_refl.
      * simpl. now apply incl_appl, incl_refl.
      * intros ev Hev Hw. apply in_app_or in Hev as [Hev|Hev]; [assumption|].
        exfalso. destruct (Hp2 _ Hev) as (c' & Hc' & Hevc).
        apply Hnotin.
        now rewrite (within_two_children _ _ _ (within_trans Hw Hpc) Hevc).
      * simpl. intros X HX Hw. apply in_app_or in HX as [HX|HX]; [assumption|].
        exfalso. destruct (Hl2 _ HX) as (c' & Hc' & HXc).
        apply Hnotin.
        now rewrite (within_two_children _ _ _ (within_trans Hw Hpc) HXc).
    + destruct (IH2 Hnodup' p st Hin) as (evs_p & v_p & Hsub).
      destruct (Hp2 _ Hin) as (c' & Hc' & Hpc). simpl in Hpc.
      exists evs_p, v_p. eapply sub_log_weaken; [exact Hsub | | | |].
      * now apply incl_appr, incl_refl.
      * simpl. now apply incl_appr, incl_refl.
      * intros ev Hev Hw. apply in_app_or in Hev as [Hev|Hev]; [|assumption].
        exfalso. apply Hnotin.
        now rewrite (within_two_children _ _ _ (Hp1 _ Hev) (within_trans Hw Hpc)).
      * simpl. intros X HX Hw. apply in_app_or in HX as [HX|HX]; [|assumption].
        exfalso. apply Hnotin.
        now rewrite (within_two_children _ _ _ (Hl1 _ HX) (within_trans Hw Hpc)).
Qed.

Lemma run_walk_sub_log fuel s root w out p st :
  run_walk fuel s root = Resolved w out ->
  In (EvStat p (Ok st)) (trace w) ->
  exists evs_p v_p, sub_log p st (trace w) out evs_p v_p.
Proof.
  intros Hrun Hin. apply run_walk_log in Hrun as (vs & Hlog & ->).
  now apply (proj1 (proj2 walk_log_sub_log) _ _ _ Hlog).
Qed.


Lemma walk_log_NoDup :
  (forall q evs v, child_log q evs v -> NoDup (nonnull_leaves v))
  /\ (forall d evs vs, dir_log d evs vs -> NoDup (flat_map nonnull_leaves vs))
  /\ (forall d cs evs vs, children_log d cs evs vs ->
        NoDup cs -> NoDup (flat_map nonnull_leaves vs)).
Proof.
  apply walk_log_ind.
  - intros. constructor.
  - intros q st b _ _. destruct b; simpl; repeat constructor. intros [].
  - intros q st evs vs _ _ Hlog Hnodup.
    destruct (is_bundle q); cbn [nonnull_leaves]; [|assumption].
    rewrite flat_map_app. simpl. apply NoDup_app; [assumption | | ].
    + repeat constructor. intros [].
    + intros X HX [<-|[]].
      apply (proj1 (proj2 walk_log_order)) in Hlog as [Hin _].
      rewrite Forall_forall in Hin. apply Hin in HX.
      now apply inside_irrefl in HX.
  - intros. constructor.
  - intros d children evs vs Hnodup _ IH. now apply IH.
  - intros. constructor.
  - intros d c cs evs1 v evs2 vs Hlog1 IH1 Hlog2 IH2 Hnodup.
    inversion Hnodup as [|? ? Hnotin Hnodup']; subst. simpl.
    apply NoDup_app; [assumption | now apply IH2 |].
    intros X HX1 HX2.
    pose proof (proj1 (proj1 walk_log_order _ _ _ Hlog1)) as Hl1.
    pose proof (children_log_leaves Hlog2) as Hl2.
    rewrite Forall_forall in Hl1, Hl2.
    destruct (Hl2 _ HX2) as (c' & Hc' & Hw').
    apply Hnotin. now rewrite (within_two_children _ _ _ (Hl1 _ HX1) Hw').
Qed.

(** ** The order of the output: bundles last *)

(** C1: in a walk that resolves, every directory met whose extension is
    [.app] or [.framework] is in the output, and every path of the output
    that lies inside another path of the output (so every path of the
    subtree of such a bundle) stands strictly before it. *)
Theorem walk_children_before_bundle :
  forall fuel s root w out,
    run_walk fuel s root = Resolved w out ->
    bundle_order out
    /\ (forall B st,
           In (EvStat B (Ok st)) (trace w) ->
           isDirectory st = true -> is_bundle B = true ->
           In B out).
Proof.
  intros fuel s root w out Hrun. split.
  - apply run_walk_log in Hrun as (vs & Hlog & ->).
    apply sorted_out_bundle_order.
    now apply (proj1 (proj2 walk_log_order)) in Hlog.
  - intros B st Hstat Hdir Hbundle.
    eapply run_walk_sub_log in Hrun
      as (evs_p & v_p & Hlog & _ & _ & Hl & _); [|exact Hstat].
    pose proof (isDirectory_not_file _ Hdir) as Hnofile.
    pose proof (isDirectory_not_link _ Hdir) as Hnolink.
    inversion Hlog; subst; try congruence.
    apply Hl. rewrite Hbundle. cbn [nonnull_leaves].
    rewrite flat_map_app. apply in_or_app. right. now left.
Qed.

Lemma walk_children_before_bundle_witness :
  run_walk 10 sample_bundle []
  = Resolved (world_of (run_walk 10 sample_bundle []))
      [["App.app"; "Contents"; "Frameworks"; "Lib.framework"; "Versions"; "A"; "Lib"];
       ["App.app"; "Contents"; "Frameworks"; "Lib.framework"];
       ["App.app"; "Contents"; "MacOS"; "AppBinary"];
       ["App.app"]]
  /\ bundle_order
       [["App.app"; "Contents"; "Frameworks"; "Lib.framework"; "Versions"; "A"; "Lib"];
        ["App.app"; "Contents"; "Frameworks"; "Lib.framework"];
        ["App.app"; "Contents"; "MacOS"; "AppBinary"];
        ["App.app"]].
Proof.
  assert (Hrun : run_walk 10 sample_bundle []
                 = Resolved (world_of (run_walk 10 sample_bundle []))
                     [["App.app"; "Contents"; "Frameworks"; "Lib.framework"; "Versions"; "A"; "Lib"];
                      ["App.app"; "Contents"; "Frameworks"; "Lib.framework"];
                      ["App.app"; "Contents"; "MacOS"; "AppBinary"];
                      ["App.app"]])
    by (vm_compute; reflexivity).
  split; [exact Hrun | exact (proj1 (walk_children_before_bundle _ _ _ Hrun))].
Defined.


(** ** Regular files *)



(** ** Stale artifacts *)




(** ** Directories named like a stale artifact *)






(** ** The output and the traversal *)

(** The output of a walk that resolves holds only paths strictly inside
    the walked directory (never the directory itself, bundle or not), each
    once. *)
Theorem walk_output_inside_root :
  forall fuel s root w out,
    run_walk fuel s root = Resolved w out ->
    Forall (fun X => inside X root) out /\ NoDup out.
Proof.
  intros fuel s root w out Hrun.
  apply run_walk_log in Hrun as (vs & Hlog & ->). split.
  - now apply (proj1 (proj2 walk_log_order)) in Hlog.
  - now apply (proj1 (proj2 walk_log_NoDup)) in Hlog.
Qed.

Lemma walk_output_inside_root_witness :
  Forall (fun X => inside X ["App.app"]) [["App.app"; "build.cstemp"; "tool"]]
  /\ NoDup [["App.app"; "build.cstemp"; "tool"]].
Proof.
  refine (walk_output_inside_root 10 cstemp_directory_bundle ["App.app"] _).
  vm_compute. reflexivity.
Defined.

Lemma walk_log_visits :
  (forall q evs v, child_log q evs v ->
     (exists st evs', evs = EvStat q (Ok st) :: evs')
     /\ forall d children c,
          In (EvReaddir d (Ok children)) evs -> In c children ->
          exists st, In (EvStat (path_resolve d c) (Ok st)) evs)
  /\ (forall d0 evs vs, dir_log d0 evs vs ->
        forall d children c,
          In (EvReaddir d (Ok children)) evs -> In c children ->
          exists st, In (EvStat (path_resolve d c) (Ok st)) evs)
  /\ (forall d0 cs evs vs, children_log d0 cs evs vs ->
        (forall c, In c cs ->
                   exists st, In (EvStat (path_resolve d0 c) (Ok st)) evs)
        /\ forall d children c,
             In (EvReaddir d (Ok children)) evs -> In c children ->
             exists st, In (EvStat (path_resolve d c) (Ok st)) evs).
Proof.
  apply walk_log_ind.
  - intros q st _ _. split; [eauto|].
    intros d children c [Heq|[Heq|[]]]; discriminate.
  - intros q st b _ _. split; [eauto|].
    intros d children c [Heq|[Heq|[]]]; discriminate.
  - intros q st evs vs _ _ _ IH. split; [eauto|].
    intros d children c [Heq|Hin] Hc; [discriminate|].
    destruct (IH _ _ _ Hin Hc) as (st' & Hst). exists st'. now right.
  - intros q st _ _. split; [eauto|].
    intros d children c [Heq|[]]; discriminate.
  - intros d0 cs evs vs _ _ [IHc IH] d children c [Heq|Hin] Hc.
    + inversion Heq; subst. destruct (IHc _ Hc) as (st & Hst).
      exists st. now right.
    + destruct (IH _ _ _ Hin Hc) as (st & Hst). exists st. now right.
  - intros d0. split; [intros c []|intros d children c []].
  - intros d0 c cs evs1 v evs2 vs _ [(st & evs' & ->) IH1] _ [IHc IH2]. split.
    + intros c' [<-|Hc'].
      * exists st. now left.
      * destruct (IHc _ Hc') as (st' & Hst'). exists st'.
        apply in_or_app. now right.
    + intros d children c' Hin Hc'. apply in_app_or in Hin as [Hin|Hin].
      * destruct (IH1 _ _ _ Hin Hc') as (st' & Hst'). exists st'.
        apply in_or_app. now left.
      * destruct (IH2 _ _ _ Hin Hc') as (st' & Hst'). exists st'.
        apply in_or_app. now right.
Qed.

(** A walk that resolves has taken the status of every entry of every
    directory it listed, and has listed the walked directory and every
    directory a status told it of. *)
Theorem walk_visits_every_entry :
  forall fuel s root w out,
    run_walk fuel s root = Resolved w out ->
    (exists children, In (EvReaddir root (Ok children)) (trace w))
    /\ (forall d children c,
           In (EvReaddir d (Ok children)) (trace w) -> In c children ->
           exists st, In (EvStat (path_resolve d c) (Ok st)) (trace w))
    /\ (forall p st,
           In (EvStat p (Ok st)) (trace w) -> isDirectory st = true ->
           exists children, In (EvReaddir p (Ok children)) (trace w)).
Proof.
  intros fuel s root w out Hrun.
  pose proof Hrun as Hrun'.
  apply run_walk_log in Hrun as (vs & Hlog & ->).
  split; [|split].
  - inversion Hlog; subst. eexists. now left.
  - now apply (proj1 (proj2 walk_log_visits) _ _ _ Hlog).
  - intros p st Hstat Hdir.
    eapply run_walk_sub_log in Hrun'
      as (evs_p & v_p & Hsub & Hevs & _); [|exact Hstat].
    pose proof (isDirectory_not_file _ Hdir) as Hnofile.
    pose proof (isDirectory_not_link _ Hdir) as Hnolink.
    inversion Hsub as [| |q st' evs vs' _ _ Hd|]; subst; try congruence.
    inversion Hd; subst. eexists. apply Hevs. right. now left.
Qed.

Lemma walk_visits_every_entry_witness :
  exists children,
    In (EvReaddir ["App.app"] (Ok children))
      (trace (world_of (run_walk 10 cstemp_directory_bundle ["App.app"]))).
Proof.
  refine (proj1 (walk_visits_every_entry 10 cstemp_directory_bundle ["App.app"] _)).
  vm_compute. reflexivity.
Defined.

(** ** Symbolic links *)

(** C2 fails on the code: [stat] follows links, so a link to a framework
    is walked and reported, with the binary below it, and a link to a
    binary is reported. *)
Theorem walk_follows_symbolic_links :
  forall extra,
    lstat linked_bundle ["App.app"; "Alias.framework"] = Ok {| st_type := S_IFLNK |}
    /\ lstat linked_bundle ["App.app"; "tool"] = Ok {| st_type := S_IFLNK |}
    /\ resolved_value (run_walk (10 + extra) linked_bundle ["App.app"])
       = Some [["App.app"; "Real.framework"; "Lib"];
               ["App.app"; "Real.framework"];
               ["App.app"; "Alias.framework"; "Lib"];
               ["App.app"; "Alias.framework"];
               ["App.app"; "tool"]].
Proof.
  intros extra. split; [reflexivity|]. split; [reflexivity|].
  rewrite run_walk_more_fuel; [vm_compute; reflexivity|].
  vm_compute. exact I.
Qed.

(** C8 fails on the code: the first walk reports the link [helper], whose
    target is the stale artifact it then removes; the second walk finds the
    link dangling and rejects. *)
Theorem walk_twice_rejects_dangling_link :
  forall extra extra',
    resolved_value (run_walk (10 + extra) stale_linked_bundle ["App.app"])
    = Some [["App.app"; "helper"]]
    /\ rejection
         (run_walk (10 + extra')
            (fs (world_of (run_walk (10 + extra) stale_linked_bundle ["App.app"])))
            ["App.app"])
       = Some (FsError ENOENT sys_stat ["App.app"; "helper"]).
Proof.
  intros extra extra'.
  rewrite (run_walk_more_fuel 10 extra) by (vm_compute; exact I).
  split; [vm_compute; reflexivity|].
  rewrite run_walk_more_fuel; [vm_compute; reflexivity|].
  vm_compute. exact I.
Qed.

Lemma descend_no_link follow :
  (forall p phys n, follow p = inr (phys, n) -> isSymbolicLink (stats_of n) = false) ->
  forall p phys0 cur phys n,
    isSymbolicLink (stats_of cur) = false ->
    descend follow phys0 cur p = inr (phys, n) ->
    isSymbolicLink (stats_of n) = false.
Proof.
  intros Hf. induction p as [|c rest IH]; intros phys0 cur phys n Hcur; simpl.
  - intros Heq. now inversion Heq; subst.
  - destruct cur as [m b|m entries|t|]; try discriminate.
    destruct (can_search m); [|discriminate].
    destruct (lookup_entry c entries) as [[m1 b1|m1 entries1|t1|]|];
      try discriminate; try (now apply IH). apply Hf.
Qed.

(** [fs.promises.stat] never answers a symbolic link: on a filesystem
    whose root is a directory, [stat.isSymbolicLink()] is false for every
    path, so the test [!stat.isSymbolicLink()] of [_walkAsync] never
    fires. *)
Theorem stat_never_symbolic_link :
  forall s p st,
    is_dir s = true -> stat s p = Ok st -> isSymbolicLink st = false.
Proof.
  intros s p st Hroot. unfold stat.
  destruct (namei MAXSYMLINKS s p) as [e|[phys n]] eqn:Hn; [discriminate|].
  intros Heq. inversion Heq; subst. clear Heq.
  revert p phys n Hn. generalize MAXSYMLINKS.
  induction n as [|hops IH]; intros p phys n0; rewrite namei_unfold;
    apply descend_no_link; simpl; try discriminate; try (now destruct s);
    try exact IH.
Qed.

Lemma stat_never_symbolic_link_witness :
  stat linked_bundle ["App.app"; "tool"] = Ok {| st_type := S_IFREG |}
  /\ isSymbolicLink {| st_type := S_IFREG |} = false.
Proof.
  split; [reflexivity|].
  exact (stat_never_symbolic_link linked_bundle ["App.app"; "tool"]
           eq_refl eq_refl).
Defined.

(** ** Command lines *)

Lemma secretFlags_has_cases flag :
  secretFlags_has flag = true ->
  flag = "-P" \/ flag = "--password" \/ flag = "-pass" \/ flag = "/p" \/ flag = "pass:".
Proof.
  unfold secretFlags_has, secretFlags. cbn [existsb].
  rewrite !orb_true_iff, !String.eqb_eq. intuition discriminate.
Qed.

Lemma prefix_empty s : prefix "" s = true.
Proof. now destruct s. Qed.

Lemma index_first_eq flag v :
  index 0 "=" flag = None ->
  index 0 "=" (flag ++ "=" ++ v) = Some (String.length flag)
  /\ substring 0 (String.length flag) (flag ++ "=" ++ v) = flag.
Proof.
  induction flag as [|c flag IH]; intros Hnone.
  - cbn [append index prefix String.length substring].
    destruct (ascii_dec "=" "=") as [_|Hne]; [|now elim Hne].
    now rewrite prefix_empty.
  - cbn [append index prefix String.length substring] in Hnone |- *.
    destruct (ascii_dec "=" c) as [Heq|Hne].
    + now rewrite prefix_empty in Hnone.
    + destruct (index 0 "=" flag); [discriminate|].
      destruct (IH eq_refl) as [IH1 IH2]. cbn [append] in IH1, IH2.
      now rewrite IH1, IH2.
Qed.

Lemma secret_assignment_flag flag v :
  secretFlags_has flag = true ->
  secret_assignment (flag ++ "=" ++ v) = Some flag.
Proof.
  intros Hflag. unfold secret_assignment.
  assert (Hnone : index 0 "=" flag = None).
  { destruct (secretFlags_has_cases _ Hflag) as [->|[->|[->|[->| ->]]]];
      reflexivity. }
  destruct (@index_first_eq flag v Hnone) as [-> ->]. now rewrite Hflag.
Qed.

Lemma secret_flag_no_assignment flag :
  secretFlags_has flag = true -> secret_assignment flag = None.
Proof.
  intros Hflag.
  destruct (secretFlags_has_cases _ Hflag) as [->|[->|[->|[->| ->]]]];
    reflexivity.
Qed.

Lemma redacted_same_public input1 input2 :
  same_public input1 input2 -> redacted input1 = redacted input2.
Proof.
  intros Hsame.
  induction Hsame as [|flag v1 v2 r1 r2 Hflag _ IH|flag v1 v2 r1 r2 Hflag _ IH
                      |flag Hflag|a r1 r2 Ha _ IH]; cbn [redacted].
  - reflexivity.
  - rewrite !secret_assignment_flag by assumption. now rewrite IH.
  - rewrite (secret_flag_no_assignment _ Hflag), Hflag. now rewrite IH.
  - reflexivity.
  - rewrite Ha, IH. reflexivity.
Qed.

(** [removePassword] hides every secret: two command lines that differ
    only in the value of a [flag=value] argument or in the argument after
    a secret flag give the same string. *)
Theorem removePassword_hides_secrets :
  forall input1 input2,
    same_public input1 input2 -> removePassword input1 = removePassword input2.
Proof.
  intros input1 input2 Hsame. unfold removePassword.
  now rewrite (redacted_same_public Hsame).
Qed.

Lemma removePassword_hides_secrets_witness :
  removePassword ["codesign"; "-P"; "hunter2"; "--password=hunter2"; "App.app"; "/p"]
  = removePassword ["codesign"; "-P"; "12345"; "--password="; "App.app"; "/p"].
Proof.
  apply removePassword_hides_secrets.
  apply same_argument; [reflexivity|].
  apply same_flag; [reflexivity|].
  apply (same_assignment "--password" "hunter2" ""); [reflexivity|].
  apply same_argument; [reflexivity|].
  now apply same_last_flag.
Defined.

(** A command line without a secret flag and without a [flag=value]
    argument of a secret flag is logged as it is, its arguments joined by
    spaces; so an argument such as [pass:hunter2], where the secret
    follows the flag [pass:] directly, is not hidden. *)
Theorem removePassword_verbatim :
  forall input,
    forallb no_secret input = true -> removePassword input = concat " " input.
Proof.
  intros input Hin. unfold removePassword. f_equal.
  induction input as [|a rest IH]; [reflexivity|].
  cbn [forallb] in Hin. apply andb_true_iff in Hin as [Ha Hrest].
  unfold no_secret in Ha. apply andb_true_iff in Ha as [Hflag Hassign].
  cbn [redacted]. destruct (secret_assignment a); [discriminate|].
  apply negb_true_iff in Hflag. rewrite Hflag. now rewrite IH.
Qed.

Lemma removePassword_verbatim_witness :
  removePassword ["openssl"; "-passin"; "pass:hunter2"; "-in=key.p12"]
  = "openssl -passin pass:hunter2 -in=key.p12".
Proof.
  apply (removePassword_verbatim ["openssl"; "-passin"; "pass:hunter2"; "-in=key.p12"]).
  reflexivity.
Defined.

(** ** The platform *)

(** [validateOptsPlatform] resolves to [darwin] or [mas], whatever it is
    given, and what it resolves to is a platform it takes as given: with
    it as [opts.platform] the answer is the same on every filesystem, with
    no warning. *)
Theorem validateOptsPlatform_supported :
  forall s s' opts,
    let platform := snd (validateOptsPlatform s opts) in
    (platform = "darwin" \/ platform = "mas")
    /\ validateOptsPlatform s'
         {| BaseSignOptions.app := BaseSignOptions.app opts;
            BaseSignOptions.platform := Some platform |}
       = ([], platform).
Proof.
  intros s s' opts platform. subst platform.
  assert (Hdetect : forall s0, detectElectronPlatform s0 opts = "darwin"
                               \/ detectElectronPlatform s0 opts = "mas").
  { intros s0. unfold detectElectronPlatform. destruct (existsSync _ _); auto. }
  assert (Hfix : forall p, p = "darwin" \/ p = "mas" ->
     validateOptsPlatform s'
         {| BaseSignOptions.app := BaseSignOptions.app opts;
            BaseSignOptions.platform := Some p |} = ([], p)).
  { intros p [-> | ->]; reflexivity. }
  assert (Hrange : snd (validateOptsPlatform s opts) = "darwin"
                   \/ snd (validateOptsPlatform s opts) = "mas").
  { unfold validateOptsPlatform.
    destruct (BaseSignOptions.platform opts) as [p|]; simpl; [|apply Hdetect].
    destruct (truthy p); [|apply Hdetect].
    destruct (String.eqb p "mas") eqn:Hmas; simpl.
    - apply String.eqb_eq in Hmas. auto.
    - destruct (String.eqb p "darwin") eqn:Hdarwin; simpl; [|apply Hdetect].
      apply String.eqb_eq in Hdarwin. auto. }
  split; [exact Hrange | now apply Hfix].
Qed.

(** ** What a walk removes *)

Lemma extname_snoc parent name : extname (parent ++ [name]) = basename_extname name.
Proof. unfold extname. now rewrite last_last. Qed.

Lemma rm_stale_cases s q o s' st :
  stat s q = Ok st -> isFile st = true -> extname q = ".cstemp" ->
  rm s q o = Ok s' ->
  s' = s \/ unlinks_stale s s'.
Proof.
  intros Hq Hfile Hext Hrm.
  apply rm_ok_cases in Hrm
    as [[-> _]|(parent & name & P & m & entries & n0
                & Hsplit & Hparent & Hx & Hl & ->)]; [now left|].
  right. apply split_last_app in Hsplit. subst q.
  unfold stat in Hq.
  destruct (namei MAXSYMLINKS s (parent ++ [name])) as [e|[phys_f n_f]] eqn:Hnq;
    [discriminate|].
  inversion Hq; subst st. clear Hq.
  destruct (namei_app _ _ [name] _ Hparent) as (hops' & _ & Happ).
  rewrite Hnq in Happ. simpl in Happ. rewrite Hx, Hl in Happ.
  exists P, name, m, entries, n0.
  repeat split; try assumption.
  - now apply namei_node_at in Hparent.
  - destruct n0 as [m1 b1|m1 entries1|t1|]; try reflexivity.
    inversion Happ; subst. discriminate.
  - intros ->. inversion Happ; subst. discriminate.
  - intros t hops phys' n' -> Ht.
    destruct hops' as [|hops']; simpl in Happ; [discriminate|].
    rewrite app_nil_r in Happ. symmetry in Happ.
    pose proof (namei_agree _ _ _ _ Ht Happ) as Heq. inversion Heq; subst.
    now destruct n_f.
  - now rewrite extname_snoc in Hext.
Qed.

(** What one removal keeps. *)

Lemma unlinks_stale_namei_dir s s' hops p phys n :
  unlinks_stale s s' ->
  namei hops s p = inr (phys, n) -> is_dir n = true ->
  exists n', namei hops s' p = inr (phys, n') /\ stats_of n' = stats_of n
             /\ is_dir n' = true.
Proof.
  intros (P & name & m & entries & n0 & HP & Hl & Hnd & _ & Hlink & _ & ->) Hn Hdir.
  exists (residual P name phys n). split; [|split].
  - now apply namei_frame with m entries n0.
  - apply stats_of_residual.
  - destruct n; try discriminate.
    now destruct (residual_dir P name phys m0 entries0) as (e' & ->).
Qed.

Lemma unlinks_stale_stat_dir s s' p st :
  unlinks_stale s s' -> stat s p = Ok st -> isDirectory st = true ->
  stat s' p = Ok st.
Proof.
  intros Hun. unfold stat.
  destruct (namei MAXSYMLINKS s p) as [e|[phys n]] eqn:Hn; [discriminate|].
  intros Heq Hdir. inversion Heq; subst.
  destruct (@unlinks_stale_namei_dir s s' MAXSYMLINKS p phys n Hun Hn)
    as (n' & -> & -> & _); [now destruct n|reflexivity].
Qed.

Lemma unlinks_stale_namei_inv s s' hops p phys n' :
  unlinks_stale s s' ->
  namei hops s' p = inr (phys, n') ->
  exists n, namei hops s p = inr (phys, n) /\ stats_of n' = stats_of n
            /\ (forall m b, n' = File m b -> n = File m b).
Proof.
  intros (P & name & m & entries & n0 & _ & _ & _ & _ & _ & _ & ->) Hn.
  apply namei_residual in Hn as (n & Hn & ->).
  exists n. split; [assumption|]. split; [apply stats_of_residual|].
  intros m1 b1. destruct n as [m2 b2|m2 e2|t2|].
  - now rewrite residual_not_dir.
  - destruct (residual_dir P name phys m2 e2) as (e' & ->). discriminate.
  - now rewrite residual_not_dir.
  - now rewrite residual_not_dir.
Qed.

Lemma unlinks_stale_lstat_inv s s' p st :
  unlinks_stale s s' -> lstat s' p = Ok st -> lstat s p = Ok st.
Proof.
  intros (P & name & m & entries & n0 & _ & _ & _ & _ & _ & _ & ->).
  unfold lstat. destruct (split_last p) as [[parent name']|].
  - destruct (namei MAXSYMLINKS (remove_at P name s) parent)
      as [c|[phys' n']] eqn:Hparent'; [discriminate|].
    apply namei_residual in Hparent' as (n & -> & ->).
    destruct (residual P name phys' n) as [m1 b|m1 entries'|t|] eqn:Hres;
      try discriminate.
    destruct (@residual_dir_inv P name phys' n m1 entries' Hres) as (entries1 & ->).
    destruct (can_search m1); [|discriminate].
    destruct (lookup_entry name' entries') as [n1'|] eqn:Hl; [|discriminate].
    destruct (@lookup_entry_residual P name phys' m1 entries1 entries' name' n1' Hres Hl)
      as (n1 & -> & ->).
    now rewrite stats_of_residual.
  - intros Heq. inversion Heq. f_equal.
    rewrite <- (residual_root P name s). symmetry. apply stats_of_residual.
Qed.

Lemma unlinks_stale_lstat s s' p st :
  unlinks_stale s s' -> lstat s p = Ok st ->
  extname p <> ".cstemp" \/ (isFile st = false /\ isSymbolicLink st = false) ->
  lstat s' p = Ok st.
Proof.
  intros (P & name & m & entries & n0 & HP & Hl & Hnd & Hns & Hlink & Hext & ->).
  unfold lstat. destruct (split_last p) as [[parent name']|] eqn:Hsplit.
  - apply split_last_app in Hsplit. subst p. rewrite extname_snoc.
    destruct (namei MAXSYMLINKS s parent) as [c|[phys [m1 b|m1 entries1|t|]]] eqn:Hparent;
      try discriminate.
    destruct (can_search m1) eqn:Hx; [|discriminate].
    destruct (lookup_entry name' entries1) as [n1|] eqn:Hl1; [|discriminate].
    intros Heq Hkeep. inversion Heq; subst st. clear Heq.
    erewrite namei_frame; [| exact HP | exact Hl | exact Hnd | exact Hlink
                           | exact Hparent | reflexivity].
    destruct (@lookup_entry_residual_fwd P name phys m1 entries1 name' n1 Hl1)
      as (entries' & -> & [[-> ->]|Hl']).
    + exfalso. apply namei_node_at in Hparent. rewrite HP in Hparent.
      inversion Hparent; subst. rewrite Hl in Hl1. inversion Hl1; subst n1.
      destruct Hkeep as [Hne|[Hf Hlk]]; [now apply Hne|].
      destruct n0; try discriminate. now apply Hns.
    + rewrite Hx, Hl'. now rewrite stats_of_residual.
  - intros Heq _. inversion Heq. f_equal.
    rewrite <- (residual_root P name s). apply stats_of_residual.
Qed.

Section Stale_invariant.
Variable Inv : world -> Prop.
Hypothesis Inv_readdir : forall p w, Inv w -> Inv (world_of (fs_promises_readdir p w)).
Hypothesis Inv_stat : forall p w, Inv w -> Inv (world_of (fs_promises_stat p w)).
Hypothesis Inv_rm :
  forall p st w,
    Inv w -> stat (fs w) p = Ok st -> isFile st = true -> extname p = ".cstemp" ->
    Inv (world_of (fs_promises_rm p stale_rm_options
                     (record w (EvStat p (Ok st)) (fs w)))).
Hypothesis Inv_isBinaryFile :
  forall p w, Inv w -> Inv (world_of (isBinaryFile_async p w)).

Lemma Stale_walk_child recurse d c :
  (forall q w, Inv w -> Inv (world_of (recurse q w))) ->
  forall w, Inv w -> Inv (world_of (walk_child recurse d c w)).
Proof.
  intros Hrec w Hw. unfold walk_child, await_then at 1.
  pose proof (@Inv_stat (path_resolve d c) w Hw) as Hstat.
  unfold fs_promises_stat in *.
  destruct (stat (fs w) (path_resolve d c)) as [st|e] eqn:Hst; simpl in Hstat;
    [|exact Hstat].
  destruct (isFile st) eqn:Hfile.
  - destruct (String.eqb _ _) eqn:Hext.
    + unfold await_then. apply String.eqb_eq in Hext.
      pose proof (@Inv_rm _ _ _ Hw Hst Hfile Hext) as Hrm.
      destruct (fs_promises_rm _ _ _); exact Hrm.
    + unfold getFilePathIfBinary. revert Hstat.
      apply Inv_await; [apply Inv_isBinaryFile|]. intros [|]; auto.
  - destruct (isDirectory st && negb (isSymbolicLink st)); [|exact Hstat].
    revert Hstat. apply Inv_await; [apply Hrec | auto].
Qed.

Lemma Stale__walkAsync fuel :
  forall d w, Inv w -> Inv (world_of (_walkAsync fuel d w)).
Proof.
  induction fuel as [|fuel IH]; intros d; simpl; [auto|].
  apply Inv_await; [apply Inv_readdir|]. intros children.
  apply Inv_Promise_all, Forall_forall.
  intros task Hin. apply in_map_iff in Hin as (c & <- & _).
  now apply Stale_walk_child.
Qed.

Lemma Stale_walk fuel d w : Inv w -> Inv (world_of (walk fuel d w)).
Proof.
  unfold walk. revert w.
  apply Inv_await; [apply Stale__walkAsync | auto].
Qed.
End Stale_invariant.

Lemma fs_promises_rm_cleans p st w s0 :
  stat (fs w) p = Ok st -> isFile st = true -> extname p = ".cstemp" ->
  cleaned s0 (fs w) ->
  cleaned s0 (fs (world_of (fs_promises_rm p stale_rm_options
                              (record w (EvStat p (Ok st)) (fs w))))).
Proof.
  intros Hst Hfile Hext Hc. unfold fs_promises_rm. simpl.
  destruct (rm (fs w) p stale_rm_options) as [s'|e] eqn:Hrm; simpl; [|assumption].
  destruct (@rm_stale_cases _ _ _ _ _ Hst Hfile Hext Hrm) as [->|Hun]; [assumption|].
  now apply cleaned_step with (fs w).
Qed.

Lemma walk_cleans fuel s root :
  cleaned s (fs (world_of (run_walk fuel s root))).
Proof.
  unfold run_walk.
  apply (@Stale_walk (fun w => cleaned s (fs w))).
  - intros p w Hw. unfold fs_promises_readdir. now destruct (readdir (fs w) p).
  - intros p w Hw. unfold fs_promises_stat. now destruct (stat (fs w) p).
  - intros p st w Hw Hst Hfile Hext. now apply fs_promises_rm_cleans.
  - intros p w Hw. unfold isBinaryFile_async. now destruct (isBinaryFile (fs w) p).
  - apply cleaned_refl.
Qed.

Lemma cleaned_stat_dir s s' p st :
  cleaned s s' -> stat s p = Ok st -> isDirectory st = true -> stat s' p = Ok st.
Proof.
  induction 1 as [|s1 s2 _ IH Hun]; [auto|]. intros Hst Hdir.
  apply unlinks_stale_stat_dir with s1; auto.
Qed.

Lemma cleaned_namei_inv s s' hops p phys n' :
  cleaned s s' ->
  namei hops s' p = inr (phys, n') ->
  exists n, namei hops s p = inr (phys, n) /\ stats_of n' = stats_of n
            /\ (forall m b, n' = File m b -> n = File m b).
Proof.
  intros Hc. revert n'. induction Hc as [|s1 s2 _ IH Hun]; intros n' Hn.
  - exists n'. auto.
  - destruct (@unlinks_stale_namei_inv _ _ _ _ _ _ Hun Hn) as (n1 & Hn1 & Hs1 & Hf1).
    destruct (IH _ Hn1) as (n & Hn0 & Hs & Hf).
    exists n. split; [assumption|]. split; [congruence|].
    intros m b Heq. eapply Hf, Hf1, Heq.
Qed.

Lemma cleaned_lstat_inv s s' p st :
  cleaned s s' -> lstat s' p = Ok st -> lstat s p = Ok st.
Proof.
  induction 1 as [|s1 s2 _ IH Hun]; [auto|]. intros Hl.
  apply IH. now apply unlinks_stale_lstat_inv with s2.
Qed.

Lemma cleaned_lstat s s' p st :
  cleaned s s' -> lstat s p = Ok st ->
  extname p <> ".cstemp" \/ (isFile st = false /\ isSymbolicLink st = false) ->
  lstat s' p = Ok st.
Proof.
  induction 1 as [|s1 s2 _ IH Hun]; [auto|]. intros Hl Hkeep.
  apply unlinks_stale_lstat with s1; auto.
Qed.

Lemma removals_stale_record w ev s :
  (forall q o r, ev <> EvRm q o r) ->
  removals_stale w -> removals_stale (record w ev s).
Proof.
  intros Hev Hw q o r Hin. simpl in Hin.
  apply in_app_or in Hin as [Hin|[Heq|[]]]; [|now apply Hev in Heq].
  destruct (Hw _ _ _ Hin) as (Hext & Ho & st & Hst & Hfile).
  repeat split; try assumption. exists st. split; [|assumption].
  simpl. apply in_or_app. now left.
Qed.

Lemma removals_stale_walk fuel s root :
  removals_stale (world_of (run_walk fuel s root)).
Proof.
  unfold run_walk. apply Stale_walk.
  - intros p w Hw. unfold fs_promises_readdir.
    destruct (readdir (fs w) p); simpl; now apply removals_stale_record.
  - intros p w Hw. unfold fs_promises_stat.
    destruct (stat (fs w) p); simpl; now apply removals_stale_record.
  - intros p st w Hw Hst Hfile Hext.
    assert (Hrm : forall r s',
               removals_stale
                 (record (record w (EvStat p (Ok st)) (fs w))
                    (EvRm p stale_rm_options r) s')).
    { intros r s' q o r' Hin. simpl in Hin.
      apply in_app_or in Hin as [Hin|[Heq|[]]].
      - apply in_app_or in Hin as [Hin|[Heq|[]]]; [|discriminate].
        destruct (Hw _ _ _ Hin) as (Hext' & Ho & st' & Hst' & Hfile').
        repeat split; try assumption. exists st'. split; [|assumption].
        simpl. apply in_or_app. left. apply in_or_app. now left.
      - inversion Heq; subst. repeat split; try assumption.
        exists st. split; [|assumption].
        simpl. apply in_or_app. left. apply in_or_app. right. now left. }
    unfold fs_promises_rm.
    destruct (rm _ _ _); simpl; apply Hrm.
  - intros p w Hw. unfold isBinaryFile_async.
    destruct (isBinaryFile (fs w) p); simpl; now apply removals_stale_record.
  - intros q o r [].
Qed.

(** The walk removes only what its stat calls a regular file under a name
    with the extension [.cstemp], creates nothing and changes no other
    entry, whether it resolves or rejects. *)
Theorem walk_removes_only_stale_files :
  forall fuel s root,
    let w := world_of (run_walk fuel s root) in
    (forall q o r,
        In (EvRm q o r) (trace w) ->
        extname q = ".cstemp" /\ o = stale_rm_options
        /\ exists st, In (EvStat q (Ok st)) (trace w) /\ isFile st = true)
    /\ (forall p st, lstat (fs w) p = Ok st -> lstat s p = Ok st)
    /\ (forall p st,
           lstat s p = Ok st ->
           extname p <> ".cstemp" \/ (isFile st = false /\ isSymbolicLink st = false) ->
           lstat (fs w) p = Ok st).
Proof.
  intros fuel s root w. subst w. split; [|split].
  - apply removals_stale_walk.
  - intros p st. apply cleaned_lstat_inv, walk_cleans.
  - intros p st. apply cleaned_lstat, walk_cleans.
Qed.

Lemma walk_removes_only_stale_files_witness :
  lstat (fs (world_of (run_walk 10 sample_bundle [])))
    ["App.app"; "Contents"; "Info.plist"] = Ok {| st_type := S_IFREG |}.
Proof.
  refine (proj2 (proj2 (walk_removes_only_stale_files 10 sample_bundle []))
            ["App.app"; "Contents"; "Info.plist"] _ _ _).
  - reflexivity.
  - left. discriminate.
Defined.

(** ** The directories below the root *)

Lemma lookup_entry_names c entries n :
  lookup_entry c entries = Some n -> In c (entry_names entries).
Proof.
  induction entries as [|[k n1] entries IH]; simpl; [discriminate|].
  destruct (String.eqb k c) eqn:Hk.
  - apply String.eqb_eq in Hk. now left.
  - intros Hl. right. apply filter_In. split; [auto|].
    rewrite String.eqb_sym, Hk. reflexivity.
Qed.

Lemma readdir_lists_child s d children c st :
  readdir s d = Ok children -> stat s (path_resolve d c) = Ok st -> In c children.
Proof.
  unfold readdir, stat, path_resolve.
  destruct (namei MAXSYMLINKS s d) as [e|[P [m b|m entries|t|]]] eqn:Hd;
    try discriminate.
  destruct (can_read m); [|discriminate].
  intros Heq. inversion Heq; subst. clear Heq.
  destruct (namei_app _ _ [c] _ Hd) as (hops' & _ & ->). simpl.
  destruct (can_search m); [|discriminate].
  destruct (lookup_entry c entries) as [n|] eqn:Hl; [|discriminate].
  intros _. now apply lookup_entry_names with n.
Qed.

Lemma sees_directories_walk fuel s root :
  sees_directories s (world_of (run_walk fuel s root)).
Proof.
  unfold run_walk.
  assert (Hsame : forall w ev,
             sees_directories s w ->
             (forall d children, ev = EvReaddir d (Ok children) ->
                                 readdir (fs w) d = Ok children) ->
             (forall p st, ev = EvStat p (Ok st) -> stat (fs w) p = Ok st) ->
             sees_directories s (record w ev (fs w))).
  { intros w ev (Hc & Hr & Hs) Hev_r Hev_s. split; [exact Hc|]. split.
    - intros d children Hin c st Hst Hdir. simpl in Hin.
      apply in_app_or in Hin as [Hin|[Heq|[]]]; [now apply (Hr _ _ Hin _ _ Hst)|].
      apply Hev_r in Heq.
      apply readdir_lists_child with (fs w) d st; [assumption|].
      now apply cleaned_stat_dir with s.
    - intros p st' Hin st Hst Hdir. simpl in Hin.
      apply in_app_or in Hin as [Hin|[Heq|[]]]; [now apply (Hs _ _ Hin)|].
      apply Hev_s in Heq.
      apply (@cleaned_stat_dir _ _ _ _ Hc) in Hst; [congruence | assumption]. }
  apply Stale_walk.
  - intros p w Hw. unfold fs_promises_readdir.
    destruct (readdir (fs w) p) eqn:Hr; simpl; apply Hsame; try assumption;
      intros; try discriminate; congruence.
  - intros p w Hw. unfold fs_promises_stat.
    destruct (stat (fs w) p) eqn:Hr; simpl; apply Hsame; try assumption;
      intros; try discriminate; congruence.
  - intros p st w Hw Hst Hfile Hext.
    pose proof (fun s0 => @fs_promises_rm_cleans p st w s0 Hst Hfile Hext) as Hcl.
    apply (Hsame w (EvStat p (Ok st))) in Hw;
      [|discriminate | intros; congruence].
    destruct Hw as (Hc & Hr & Hs). specialize (Hcl s Hc).
    unfold fs_promises_rm in *.
    destruct (rm _ _ _) as [s'|e]; simpl in *.
    + split; [exact Hcl|]. split.
      * intros d children Hin. apply in_app_or in Hin as [Hin|[Heq|[]]];
          [now apply Hr | discriminate].
      * intros p' st' Hin. apply in_app_or in Hin as [Hin|[Heq|[]]];
          [now apply Hs | discriminate].
    + split; [exact Hcl|]. split.
      * intros d children Hin. apply in_app_or in Hin as [Hin|[Heq|[]]];
          [now apply Hr | discriminate].
      * intros p' st' Hin. apply in_app_or in Hin as [Hin|[Heq|[]]];
          [now apply Hs | discriminate].
  - intros p w Hw. unfold isBinaryFile_async.
    destruct (isBinaryFile (fs w) p) eqn:Hr; simpl; apply Hsame; try assumption;
      intros; discriminate.
  - split; [apply cleaned_refl|]. split; intros ? ? [].
Qed.

Lemma stat_prefix_dir s p c st :
  stat s (p ++ [c]) = Ok st ->
  exists st_p, stat s p = Ok st_p /\ isDirectory st_p = true.
Proof.
  unfold stat.
  destruct (namei MAXSYMLINKS s (p ++ [c])) as [e|[phys n]] eqn:Hn; [discriminate|].
  intros _.
  destruct (namei MAXSYMLINKS s p) as [e|[P cur]] eqn:Hp.
  - apply namei_app_error with (rest := [c]) in Hp. congruence.
  - exists (stats_of cur). split; [reflexivity|].
    destruct (namei_app _ _ [c] _ Hp) as (hops' & _ & Happ).
    rewrite Hn in Happ. simpl in Happ.
    destruct cur; try discriminate. reflexivity.
Qed.

Lemma walk_reaches_directories fuel s root w out :
  run_walk fuel s root = Resolved w out ->
  forall rel st,
    stat s (root ++ rel) = Ok st -> isDirectory st = true ->
    (rel <> [] -> In (EvStat (root ++ rel) (Ok st)) (trace w))
    /\ exists children, In (EvReaddir (root ++ rel) (Ok children)) (trace w).
Proof.
  intros Hrun.
  pose proof (sees_directories_walk fuel s root) as Hsees.
  rewrite Hrun in Hsees. simpl in Hsees. destruct Hsees as (_ & Hlists & Hstats).
  pose proof Hrun as Hlog. apply run_walk_log in Hlog as (vs & Hlog & ->).
  induction rel as [|c rel IH] using rev_ind; intros st Hst Hdir.
  - split; [congruence|]. rewrite app_nil_r.
    inversion Hlog; subst. eexists. now left.
  - rewrite app_assoc in Hst |- *.
    destruct (@stat_prefix_dir _ _ _ _ Hst) as (st_p & Hst_p & Hdir_p).
    destruct (IH _ Hst_p Hdir_p) as (_ & children & Hin).
    assert (Hc : In c children) by exact (Hlists _ _ Hin _ _ Hst Hdir).
    destruct (proj1 (proj2 walk_log_visits) _ _ _ Hlog _ _ _ Hin Hc) as (st' & Hin').
    rewrite (Hstats _ _ Hin' _ Hst Hdir) in Hin'.
    assert (Hreaddir : exists children',
               In (EvReaddir ((root ++ rel) ++ [c]) (Ok children')) (trace w)).
    { eapply run_walk_sub_log in Hrun as (evs_p & v_p & Hsub & Hevs & _);
        [|exact Hin'].
      pose proof (isDirectory_not_file _ Hdir) as Hnofile.
      inversion Hsub as [| |q st'' evs vs' _ _ Hd|]; subst; try congruence.
      - inversion Hd; subst. eexists. apply Hevs. right. now left.
      - rewrite (isDirectory_not_link _ Hdir) in *. discriminate. }
    split; [intros _; exact Hin' | exact Hreaddir].
Qed.

(** A walk that resolves has listed every directory below its root, and
    reports every one that is a bundle: every path under the root that led
    to a directory when the walk started was stat'ed with that answer and
    listed, and is in the output when its extension is [.app] or
    [.framework]. *)
Theorem walk_reaches_every_directory :
  forall fuel s root w out rel st,
    run_walk fuel s root = Resolved w out ->
    rel <> [] ->
    stat s (root ++ rel) = Ok st -> isDirectory st = true ->
    In (EvStat (root ++ rel) (Ok st)) (trace w)
    /\ (exists children, In (EvReaddir (root ++ rel) (Ok children)) (trace w))
    /\ (is_bundle (root ++ rel) = true -> In (root ++ rel) out).
Proof.
  intros fuel s root w out rel st Hrun Hrel Hst Hdir.
  destruct (@walk_reaches_directories _ _ _ _ _ Hrun _ _ Hst Hdir) as (Hin & Hread).
  specialize (Hin Hrel). split; [assumption|]. split; [assumption|].
  intros Hb.
  eapply run_walk_sub_log in Hrun as (evs_p & v_p & Hsub & _ & _ & Hout & _);
    [|exact Hin].
  pose proof (isDirectory_not_file _ Hdir) as Hnofile.
  apply Hout.
  inversion Hsub as [| |q st'' evs vs' _ _ Hd|]; subst; try congruence.
  - rewrite Hb. simpl. rewrite flat_map_app. apply in_or_app. right. now left.
  - rewrite (isDirectory_not_link _ Hdir) in *. discriminate.
Qed.

Lemma walk_reaches_every_directory_witness :
  In (EvStat ["App.app"; "Contents"; "Frameworks"; "Lib.framework"]
        (Ok {| st_type := S_IFDIR |}))
     (trace (world_of (run_walk 10 sample_bundle [])))
  /\ (exists children,
         In (EvReaddir ["App.app"; "Contents"; "Frameworks"; "Lib.framework"]
               (Ok children))
            (trace (world_of (run_walk 10 sample_bundle []))))
  /\ (is_bundle ["App.app"; "Contents"; "Frameworks"; "Lib.framework"] = true ->
      In ["App.app"; "Contents"; "Frameworks"; "Lib.framework"]
         [["App.app"; "Contents"; "Frameworks"; "Lib.framework"; "Versions"; "A"; "Lib"];
          ["App.app"; "Contents"; "Frameworks"; "Lib.framework"];
          ["App.app"; "Contents"; "MacOS"; "AppBinary"];
          ["App.app"]]).
Proof.
  refine (@walk_reaches_every_directory 10 sample_bundle [] _ _
            ["App.app"; "Contents"; "Frameworks"; "Lib.framework"] _ _ _ _ _).
  - vm_compute. reflexivity.
  - discriminate.
  - reflexivity.
  - reflexivity.
Defined.

(** ** The options and the walk *)

Lemma existsSync_stat s p :
  existsSync s p = true <-> exists st, stat s p = Ok st.
Proof.
  unfold existsSync, stat.
  destruct (namei MAXSYMLINKS s p) as [e|[phys n]]; split;
    try discriminate; eauto.
  intros (st & Hst). discriminate.
Qed.

Lemma cleaned_existsSync s s' p :
  cleaned s s' -> existsSync s' p = true -> existsSync s p = true.
Proof.
  intros Hc. unfold existsSync.
  destruct (namei MAXSYMLINKS s' p) as [e|[phys n']] eqn:Hn; [discriminate|].
  destruct (@cleaned_namei_inv _ _ _ _ _ _ Hc Hn) as (n & -> & _). reflexivity.
Qed.

(** A walk, whether it resolves or rejects, leaves the detected platform
    as it was when the bundle has no [Squirrel.framework] or has one that
    is a directory. *)
Theorem walk_keeps_platform :
  forall fuel s root opts,
    let s' := fs (world_of (run_walk fuel s root)) in
    (detectElectronPlatform s opts = "mas" ->
     detectElectronPlatform s' opts = "mas")
    /\ (forall st,
           stat s (path_resolve (getAppFrameworksPath opts) "Squirrel.framework")
           = Ok st ->
           isDirectory st = true ->
           detectElectronPlatform s opts = "darwin"
           /\ detectElectronPlatform s' opts = "darwin").
Proof.
  intros fuel s root opts s'.
  pose proof (walk_cleans fuel s root) as Hc. fold s' in Hc.
  unfold detectElectronPlatform. split.
  - destruct (existsSync s _) eqn:Hs; [discriminate|]. intros _.
    destruct (existsSync s' _) eqn:Hs'; [|reflexivity].
    apply (@cleaned_existsSync _ _ _ Hc) in Hs'. congruence.
  - intros st Hst Hdir.
    pose proof (@cleaned_stat_dir _ _ _ _ Hc Hst Hdir) as Hst'.
    assert (H1 : existsSync s (path_resolve (getAppFrameworksPath opts) "Squirrel.framework") = true)
      by (apply existsSync_stat; eauto).
    assert (H2 : existsSync s' (path_resolve (getAppFrameworksPath opts) "Squirrel.framework") = true)
      by (apply existsSync_stat; eauto).
    now rewrite H1, H2.
Qed.

Lemma walk_keeps_platform_witness :
  detectElectronPlatform squirrel_bundle
    {| BaseSignOptions.app := ["App.app"]; BaseSignOptions.platform := None |}
  = "darwin"
  /\ detectElectronPlatform
       (fs (world_of (run_walk 10 squirrel_bundle ["App.app"])))
       {| BaseSignOptions.app := ["App.app"]; BaseSignOptions.platform := None |}
     = "darwin".
Proof.
  refine (proj2 (walk_keeps_platform 10 squirrel_bundle ["App.app"]
                   {| BaseSignOptions.app := ["App.app"];
                      BaseSignOptions.platform := None |})
            {| st_type := S_IFDIR |} _ _); reflexivity.
Defined.

(** [validateOptsApp] resolves without asking for a directory: what it
    accepts has the extension [.app] and leads somewhere, and when that is
    no directory [walk] rejects at its first call with [ENOTDIR]. *)
Theorem validateOptsApp_accepts_any_entry :
  forall fuel s opts,
    validateOptsApp s opts = Fulfilled tt ->
    extname (BaseSignOptions.app opts) = ".app"
    /\ exists st,
        stat s (BaseSignOptions.app opts) = Ok st
        /\ (isDirectory st = false ->
            run_walk (S fuel) s (BaseSignOptions.app opts)
            = Rejected
                {| fs := s;
                   trace := [EvReaddir (BaseSignOptions.app opts)
                               (Err (FsError ENOTDIR sys_scandir
                                       (BaseSignOptions.app opts)))] |}
                (FsError ENOTDIR sys_scandir (BaseSignOptions.app opts))).
Proof.
  intros fuel s opts. unfold validateOptsApp.
  destruct (truthy (BaseSignOptions.app opts)); [|discriminate]. simpl.
  destruct (String.eqb _ ".app") eqn:Hext; [|discriminate]. simpl.
  destruct (existsSync s _) eqn:Hex; [|discriminate]. intros _.
  apply String.eqb_eq in Hext. split; [assumption|].
  apply existsSync_stat in Hex as (st & Hst). exists st. split; [assumption|].
  intros Hdir.
  assert (Hr : readdir s (BaseSignOptions.app opts)
               = Err (FsError ENOTDIR sys_scandir (BaseSignOptions.app opts))).
  { unfold readdir. unfold stat in Hst.
    destruct (namei MAXSYMLINKS s (BaseSignOptions.app opts)) as [e|[phys n]];
      [discriminate|].
    inversion Hst; subst. destruct n; try discriminate; reflexivity. }
  unfold run_walk, walk. cbn [_walkAsync].
  unfold await_then, fs_promises_readdir. cbn [fs trace].
  now rewrite Hr.
Qed.

Lemma validateOptsApp_accepts_any_entry_witness :
  extname ["App.app"] = ".app"
  /\ exists st,
      stat file_bundle ["App.app"] = Ok st
      /\ (isDirectory st = false ->
          run_walk 1 file_bundle ["App.app"]
          = Rejected
              {| fs := file_bundle;
                 trace := [EvReaddir ["App.app"]
                             (Err (FsError ENOTDIR sys_scandir ["App.app"]))] |}
              (FsError ENOTDIR sys_scandir ["App.app"])).
Proof.
  refine (validateOptsApp_accepts_any_entry 0 file_bundle
            {| BaseSignOptions.app := ["App.app"];
               BaseSignOptions.platform := None |} _).
  reflexivity.
Defined.


(** ** A second walk *)

Lemma link_free_lookup m entries c n :
  link_free (Dir m entries) = true -> lookup_entry c entries = Some n ->
  link_free n = true.
Proof.
  simpl. induction entries as [|[k n1] entries IH]; simpl; [discriminate|].
  intros Hall. apply andb_true_iff in Hall as [H1 Hrest].
  destruct (String.eqb k c); [|now apply IH].
  intros Heq. now inversion Heq; subst.
Qed.

Lemma link_free_node_at : forall phys s n,
  link_free s = true -> node_at s phys = Some n -> link_free n = true.
Proof.
  induction phys as [|c phys IH]; intros s n Hs; simpl.
  - intros Heq. now inversion Heq; subst.
  - destruct s as [m b|m entries|t|]; try discriminate.
    destruct (lookup_entry c entries) as [n1|] eqn:Hl; [|discriminate].
    apply IH. now apply link_free_lookup with m entries c.
Qed.

Lemma link_free_remove_at name : forall P n,
  link_free n = true -> link_free (remove_at P name n) = true.
Proof.
  induction P as [|c P IH]; intros n; destruct n as [m b|m entries|t|];
    simpl; auto.
  - intros Hall. rewrite forallb_forall in Hall |- *.
    intros e He. apply filter_In in He as [He _]. now apply Hall.
  - intros Hall. rewrite forallb_forall in Hall |- *.
    intros e He. apply in_map_iff in He as ([k n1] & <- & He).
    specialize (Hall _ He). simpl in *.
    destruct (String.eqb k c); simpl; [now apply IH | assumption].
Qed.

Lemma cleaned_link_free s s' :
  cleaned s s' -> link_free s = true -> link_free s' = true.
Proof.
  induction 1 as [|s1 s2 _ IH Hun]; [auto|]. intros Hs.
  destruct Hun as (P & name & m & entries & n0 & _ & _ & _ & _ & _ & _ & ->).
  now apply link_free_remove_at, IH.
Qed.

Lemma cleaned_trans s1 s2 s3 : cleaned s1 s2 -> cleaned s2 s3 -> cleaned s1 s3.
Proof.
  intros H12 H23. induction H23 as [|s3 s4 _ IH Hun]; [assumption|].
  now apply cleaned_step with s3.
Qed.

(** The listing of a directory after a removal. *)

Lemma filter_filter_comm {A : Type} (f g : A -> bool) (l : list A) :
  filter f (filter g l) = filter g (filter f l).
Proof.
  induction l as [|a l IH]; simpl; [reflexivity|].
  destruct (g a) eqn:Hg, (f a) eqn:Hf; simpl; rewrite ?Hg, ?Hf, IH; reflexivity.
Qed.

Lemma filter_idem {A : Type} (f : A -> bool) (l : list A) :
  filter f (filter f l) = filter f l.
Proof.
  induction l as [|a l IH]; simpl; [reflexivity|].
  destruct (f a) eqn:Hf; simpl; rewrite ?Hf, IH; reflexivity.
Qed.

Lemma entry_names_filter name entries :
  entry_names (filter (fun e => negb (String.eqb (fst e) name)) entries)
  = filter (fun k => negb (String.eqb k name)) (entry_names entries).
Proof.
  induction entries as [|[k n] entries IH]; simpl; [reflexivity|].
  destruct (String.eqb k name) eqn:Hk; simpl.
  - apply String.eqb_eq in Hk. subst k.
    now rewrite IH, filter_idem.
  - now rewrite IH, filter_filter_comm.
Qed.

Lemma entry_names_update c0 (f : node -> node) entries :
  entry_names
    (map (fun e => if String.eqb (fst e) c0 then (fst e, f (snd e)) else e) entries)
  = entry_names entries.
Proof.
  induction entries as [|[k n] entries IH]; simpl; [reflexivity|].
  destruct (String.eqb k c0); simpl; now rewrite IH.
Qed.

Lemma entry_names_residual P name phys m entries :
  exists keep entries',
    residual P name phys (Dir m entries) = Dir m entries'
    /\ entry_names entries' = filter keep (entry_names entries).
Proof.
  unfold residual.
  destruct (strip_prefix phys P) as [[|c0 rel]|]; simpl.
  - eexists _, _. split; [reflexivity|]. apply entry_names_filter.
  - exists (fun _ => true). eexists. split; [reflexivity|].
    rewrite entry_names_update. clear. induction (entry_names entries); simpl; congruence.
  - exists (fun _ => true), entries. split; [reflexivity|].
    clear. induction (entry_names entries); simpl; congruence.
Qed.

Lemma unlinks_stale_readdir s s' d children :
  unlinks_stale s s' -> readdir s d = Ok children ->
  exists keep, readdir s' d = Ok (filter keep children).
Proof.
  intros (P & name & m & entries & n0 & HP & Hl & Hnd & _ & Hlink & _ & ->).
  unfold readdir.
  destruct (namei MAXSYMLINKS s d) as [e|[phys [m1 b|m1 entries1|t|]]] eqn:Hd;
    try discriminate.
  destruct (can_read m1) eqn:Hr; [|discriminate].
  intros Heq. inversion Heq; subst. clear Heq.
  erewrite namei_frame; [| exact HP | exact Hl | exact Hnd | exact Hlink
                         | exact Hd | reflexivity].
  destruct (entry_names_residual P name phys m1 entries1)
    as (keep & entries' & -> & ->).
  rewrite Hr. now exists keep.
Qed.

Lemma cleaned_readdir s s' d children :
  cleaned s s' -> readdir s d = Ok children ->
  exists keep, readdir s' d = Ok (filter keep children).
Proof.
  induction 1 as [|s1 s2 _ IH Hun]; intros Hr.
  - exists (fun _ => true). rewrite Hr. f_equal.
    clear. induction children; simpl; congruence.
  - destruct (IH Hr) as (keep1 & Hr1).
    destruct (@unlinks_stale_readdir _ _ _ _ Hun Hr1) as (keep2 & Hr2).
    exists (fun c => keep1 c && keep2 c). rewrite Hr2. f_equal.
    clear. induction children as [|c cs IH]; simpl; [reflexivity|].
    destruct (keep1 c); simpl; [|assumption].
    destruct (keep2 c); simpl; now rewrite IH.
Qed.

(** Without symbolic links, what is not removed is as it was. *)

Lemma namei_snoc_inv hops s parent c phys n :
  namei hops s (parent ++ [c]) = inr (phys, n) ->
  exists P m entries n1 hops',
    namei hops s parent = inr (P, Dir m entries)
    /\ can_search m = true
    /\ lookup_entry c entries = Some n1
    /\ hops' <= hops
    /\ match n1 with
       | Symlink t => follow_of hops' s (t ++ []) = inr (phys, n)
       | _ => phys = P ++ [c] /\ n = n1
       end.
Proof.
  intros Hn.
  destruct (namei hops s parent) as [e|[P cur]] eqn:Hp.
  - apply namei_app_error with (rest := [c]) in Hp. congruence.
  - destruct (namei_app _ _ [c] _ Hp) as (hops' & Hle & Happ).
    rewrite Hn in Happ. simpl in Happ.
    destruct cur as [m b|m entries|t|]; try discriminate.
    destruct (can_search m) eqn:Hx; [|discriminate].
    destruct (lookup_entry c entries) as [n1|] eqn:Hl; [|discriminate].
    exists P, m, entries, n1, hops'. repeat split; try assumption.
    destruct n1; inversion Happ; subst; auto.
Qed.

Lemma unlinks_stale_namei s s' p phys n :
  unlinks_stale s s' -> link_free s = true ->
  namei MAXSYMLINKS s p = inr (phys, n) ->
  extname p <> ".cstemp" \/ isFile (stats_of n) = false ->
  exists n', namei MAXSYMLINKS s' p = inr (phys, n')
             /\ stats_of n' = stats_of n
             /\ (forall m b, n = File m b -> n' = File m b).
Proof.
  intros (P & name & m & entries & n0 & HP & Hl & Hnd & Hns & Hlink & Hext & ->) Hfree.
  destruct (rev p) as [|c rparent] eqn:Hrev.
  - apply (f_equal (@rev string)) in Hrev. rewrite rev_involutive in Hrev.
    subst p. simpl. intros Heq _. inversion Heq; subst.
    exists (remove_at P name n). split; [reflexivity|].
    rewrite <- (residual_root P name n). split; [apply stats_of_residual|].
    intros m1 b1 ->. now rewrite residual_not_dir.
  - apply (f_equal (@rev string)) in Hrev. rewrite rev_involutive in Hrev.
    simpl in Hrev. subst p. rewrite extname_snoc.
    intros Hn Hkeep.
    destruct (namei_snoc_inv _ _ _ _ Hn)
      as (P1 & m1 & entries1 & n1 & hops' & Hparent & Hx & Hl1 & _ & Hn1).
    pose proof (namei_node_at _ _ _ Hparent) as Hat.
    assert (Hfree1 : link_free n1 = true).
    { apply link_free_lookup with m1 entries1 c; [|assumption].
      now apply link_free_node_at with P1 s. }
    assert (Heq : phys = P1 ++ [c] /\ n = n1).
    { destruct n1; try discriminate; assumption. }
    destruct Heq as [-> ->]. clear Hn1.
    pose proof (@namei_frame s P name m entries n0 HP Hl Hnd Hlink
                  MAXSYMLINKS (rev rparent) P1 (Dir m1 entries1) Hparent eq_refl)
      as Hparent'.
    destruct (@lookup_entry_residual_fwd P name P1 m1 entries1 c n1 Hl1)
      as (entries' & Hres & [[-> ->]|Hl']).
    + exfalso. rewrite HP in Hat. inversion Hat; subst.
      rewrite Hl in Hl1. inversion Hl1; subst n1.
      destruct Hkeep as [Hne|Hf]; [now apply Hne|].
      destruct n0; try discriminate. now apply Hns.
    + rewrite Hres in Hparent'.
      destruct (namei_app _ _ [c] _ Hparent') as (hops'' & _ & ->).
      simpl. rewrite Hx, Hl'.
      exists (residual P name (P1 ++ [c]) n1).
      split; [|split].
      * destruct n1 as [m2 b2|m2 e2|t2|]; try discriminate.
        -- now rewrite residual_not_dir.
        -- now destruct (residual_dir P name (P1 ++ [c]) m2 e2) as (e' & ->).
        -- now rewrite residual_not_dir.
      * apply stats_of_residual.
      * intros m2 b2 ->. now rewrite residual_not_dir.
Qed.

Lemma cleaned_namei s s' p phys n :
  cleaned s s' -> link_free s = true ->
  namei MAXSYMLINKS s p = inr (phys, n) ->
  extname p <> ".cstemp" \/ isFile (stats_of n) = false ->
  exists n', namei MAXSYMLINKS s' p = inr (phys, n')
             /\ stats_of n' = stats_of n
             /\ (forall m b, n = File m b -> n' = File m b).
Proof.
  intros Hc Hfree Hn Hkeep. induction Hc as [|s1 s2 Hc IH Hun].
  - exists n. auto.
  - destruct IH as (n1 & Hn1 & Hs1 & Hf1).
    destruct (@unlinks_stale_namei s1 s2 p phys n1 Hun
                (cleaned_link_free Hc Hfree) Hn1) as (n2 & Hn2 & Hs2 & Hf2).
    { destruct Hkeep as [Hne|Hf]; [now left|right; congruence]. }
    exists n2. split; [assumption|]. split; [congruence|].
    intros m b Heq. eapply Hf2, Hf1, Heq.
Qed.

Lemma cleaned_stat s s' p st :
  cleaned s s' -> link_free s = true ->
  stat s p = Ok st ->
  extname p <> ".cstemp" \/ isFile st = false ->
  stat s' p = Ok st
  /\ (forall b, isBinaryFile s p = Ok b -> isBinaryFile s' p = Ok b).
Proof.
  intros Hc Hfree. unfold stat, isBinaryFile.
  destruct (namei MAXSYMLINKS s p) as [e|[phys n]] eqn:Hn; [discriminate|].
  intros Heq Hkeep. inversion Heq; subst st. clear Heq.
  destruct (@cleaned_namei s s' p phys n Hc Hfree Hn Hkeep) as (n' & -> & Hs & Hf).
  split; [now rewrite Hs|].
  intros b. destruct n as [m b0|m entries|t|]; try discriminate.
  now rewrite (Hf _ _ eq_refl).
Qed.

Lemma unlinks_stale_readdir_inv s s' d names' :
  unlinks_stale s s' -> readdir s' d = Ok names' ->
  exists names, readdir s d = Ok names /\ incl names' names.
Proof.
  intros (P & name & m & entries & n0 & _ & _ & _ & _ & _ & _ & ->).
  unfold readdir.
  destruct (namei MAXSYMLINKS (remove_at P name s) d)
    as [e|[phys [m1 b|m1 entries'|t|]]] eqn:Hd; try discriminate.
  destruct (can_read m1) eqn:Hr; [|discriminate].
  intros Heq. inversion Heq; subst. clear Heq.
  apply namei_residual in Hd as (n & -> & Hres). symmetry in Hres.
  destruct (@residual_dir_inv P name phys n m1 entries' Hres) as (entries1 & ->).
  rewrite Hr. eexists. split; [reflexivity|].
  destruct (entry_names_residual P name phys m1 entries1)
    as (keep & entries'' & Hres' & Hnames).
  rewrite Hres in Hres'. inversion Hres'; subst entries''.
  rewrite Hnames. intros c Hc. now apply filter_In in Hc as [Hc _].
Qed.

Lemma cleaned_readdir_inv s s' d names' :
  cleaned s s' -> readdir s' d = Ok names' ->
  exists names, readdir s d = Ok names /\ incl names' names.
Proof.
  intros Hc. revert names'. induction Hc as [|s1 s2 _ IH Hun]; intros names' Hr.
  - exists names'. split; [assumption | apply incl_refl].
  - destruct (@unlinks_stale_readdir_inv _ _ _ _ Hun Hr) as (names1 & Hr1 & Hi1).
    destruct (IH _ Hr1) as (names & Hr0 & Hi).
    exists names. split; [assumption | now apply incl_tran with names1].
Qed.

Lemma split_last_snoc d c : split_last (d ++ [c]) = Some (d, c).
Proof.
  unfold split_last. rewrite rev_app_distr. simpl. now rewrite rev_involutive.
Qed.

Lemma stat_lstat s p st : stat s p = Ok st -> exists st', lstat s p = Ok st'.
Proof.
  unfold stat, lstat.
  destruct (namei MAXSYMLINKS s p) as [e|[phys n]] eqn:Hn; [discriminate|].
  intros _. destruct (split_last p) as [[parent name]|] eqn:Hsplit; [|eauto].
  apply split_last_app in Hsplit. subst p.
  destruct (namei_snoc_inv _ _ _ _ Hn)
    as (P1 & m1 & entries1 & n1 & hops' & -> & -> & -> & _). eauto.
Qed.

Lemma rm_unlists s d c st o s2 names :
  stat s (path_resolve d c) = Ok st ->
  rm s (path_resolve d c) o = Ok s2 ->
  readdir s2 d = Ok names -> ~ In c names.
Proof.
  unfold path_resolve. intros Hst Hrm.
  apply rm_ok_cases in Hrm
    as [[-> (e & Hgone)]|(parent & name & P & m & entries & n0
                & Hsplit & Hparent & Hx & Hl & ->)].
  - apply stat_lstat in Hst as (st' & Hst'). congruence.
  - rewrite split_last_snoc in Hsplit. inversion Hsplit; subst parent name.
    unfold readdir.
    destruct (namei MAXSYMLINKS (remove_at P c s) d)
      as [e|[phys n']] eqn:Hd; [discriminate|].
    apply namei_residual in Hd as (n & Hn & ->).
    rewrite Hparent in Hn. inversion Hn; subst phys n.
    unfold residual. rewrite strip_prefix_refl. simpl.
    destruct (can_read m); [|discriminate].
    intros Heq. inversion Heq; subst names.
    rewrite entry_names_filter. intros Hin. apply filter_In in Hin as [_ Hne].
    now rewrite String.eqb_refl in Hne.
Qed.

(** The filesystem of a world only loses stale entries along a call. *)

Lemma walk_child_cleans recurse d c w :
  (forall q w1, cleaned (fs w1) (fs (world_of (recurse q w1)))) ->
  cleaned (fs w) (fs (world_of (walk_child recurse d c w))).
Proof.
  intros Hrec.
  apply (@Stale_walk_child (fun w' => cleaned (fs w) (fs w'))).
  - intros p w1 Hw. unfold fs_promises_stat. now destruct (stat (fs w1) p).
  - intros p st w1 Hw Hst Hfile Hext. now apply fs_promises_rm_cleans.
  - intros p w1 Hw. unfold isBinaryFile_async. now destruct (isBinaryFile (fs w1) p).
  - intros q w1 Hw. apply cleaned_trans with (fs w1); [assumption | apply Hrec].
  - apply cleaned_refl.
Qed.

Lemma _walkAsync_cleans fuel d w :
  cleaned (fs w) (fs (world_of (_walkAsync fuel d w))).
Proof.
  apply (@Stale__walkAsync (fun w' => cleaned (fs w) (fs w'))).
  - intros p w1 Hw. unfold fs_promises_readdir. now destruct (readdir (fs w1) p).
  - intros p w1 Hw. unfold fs_promises_stat. now destruct (stat (fs w1) p).
  - intros p st w1 Hw Hst Hfile Hext. now apply fs_promises_rm_cleans.
  - intros p w1 Hw. unfold isBinaryFile_async. now destruct (isBinaryFile (fs w1) p).
  - apply cleaned_refl.
Qed.

Lemma walk_children_clean fuel d cs w :
  cleaned (fs w)
    (fs (world_of (Promise_all (map (walk_child (_walkAsync fuel) d) cs) w))).
Proof.
  apply (@Inv_Promise_all (fun w' => cleaned (fs w) (fs w'))).
  - apply Forall_forall. intros task Hin.
    apply in_map_iff in Hin as (c & <- & _). intros w1 Hw.
    apply cleaned_trans with (fs w1); [assumption|].
    apply walk_child_cleans. intros q w2. apply _walkAsync_cleans.
  - apply cleaned_refl.
Qed.

Lemma listed_In names c : listed names c = true <-> In c names.
Proof.
  unfold listed. rewrite existsb_exists. split.
  - intros (x & Hx & Heq). apply String.eqb_eq in Heq. now subst.
  - intros Hin. exists c. split; [assumption | apply String.eqb_refl].
Qed.

Lemma filter_listed keep (l : list string) :
  filter (listed (filter keep l)) l = filter keep l.
Proof.
  apply filter_ext_in. intros c Hc.
  destruct (keep c) eqn:Hk.
  - apply listed_In, filter_In. auto.
  - destruct (listed (filter keep l) c) eqn:Hl; [|reflexivity].
    apply listed_In, filter_In in Hl as [_ Hl]. congruence.
Qed.

(** The calls on a world given by its filesystem and its trace. *)

Lemma await_run {A B : Type} (p : Promise A) (k : A -> Promise B) w w' a :
  p w = Resolved w' a -> await_then p k w = k a w'.
Proof. unfold await_then. now intros ->. Qed.

Lemma fs_promises_stat_run s t p st :
  stat s p = Ok st ->
  fs_promises_stat p {| fs := s; trace := t |}
  = Resolved {| fs := s; trace := t ++ [EvStat p (Ok st)] |} st.
Proof. unfold fs_promises_stat, record. simpl. now intros ->. Qed.

Lemma fs_promises_readdir_run s t p names :
  readdir s p = Ok names ->
  fs_promises_readdir p {| fs := s; trace := t |}
  = Resolved {| fs := s; trace := t ++ [EvReaddir p (Ok names)] |} names.
Proof. unfold fs_promises_readdir, record. simpl. now intros ->. Qed.

Lemma isBinaryFile_async_run s t p b :
  isBinaryFile s p = Ok b ->
  isBinaryFile_async p {| fs := s; trace := t |}
  = Resolved {| fs := s; trace := t ++ [EvIsBinary p (Ok b)] |} b.
Proof. unfold isBinaryFile_async, record. simpl. now intros ->. Qed.

Section Second_pass.
Variable recurse : path -> Promise (DeepList path).
Hypothesis recurse_cleans :
  forall q w, cleaned (fs w) (fs (world_of (recurse q w))).
Hypothesis recurse_again :
  forall q w1 w1' vs,
    link_free (fs w1) = true ->
    recurse q w1 = Resolved w1' vs ->
    forall s' t,
      cleaned (fs w1') s' ->
      exists evs vs',
        recurse q {| fs := s'; trace := t |}
        = Resolved {| fs := s'; trace := t ++ evs |} vs'
        /\ flat_map nonnull_leaves vs' = flat_map nonnull_leaves vs
        /\ Forall no_removal evs.

Lemma walk_child_again d c w1 w1' v :
  link_free (fs w1) = true ->
  walk_child recurse d c w1 = Resolved w1' v ->
  forall s' t names',
    cleaned (fs w1') s' -> readdir s' d = Ok names' ->
    (In c names'
     /\ exists evs v',
         walk_child recurse d c {| fs := s'; trace := t |}
         = Resolved {| fs := s'; trace := t ++ evs |} v'
         /\ nonnull_leaves v' = nonnull_leaves v
         /\ Forall no_removal evs)
    \/ (~ In c names' /\ nonnull_leaves v = []).
Proof.
  intros Hfree Hrun s' t names' Hc Hnames'.
  pose proof (walk_child_cleans recurse d c w1 recurse_cleans) as Hcl.
  rewrite Hrun in Hcl. simpl in Hcl.
  unfold walk_child in Hrun.
  await_inv Hrun. rename a into st.
  apply fs_promises_stat_resolved in Hcall as [Hstat ->].
  destruct (isFile st) eqn:Hfile.
  - destruct (String.eqb (extname (path_resolve d c)) ".cstemp") eqn:Hext.
    + await_inv Hrun.
      apply fs_promises_rm_resolved in Hcall as (s2 & Hrm & ->).
      inversion Hrun; subst. simpl in *. right. split; [|reflexivity].
      destruct (@cleaned_readdir_inv _ _ _ _ Hc Hnames') as (names2 & Hr2 & Hincl).
      intros Hin. apply Hincl in Hin.
      now apply (@rm_unlists _ _ _ _ _ _ _ Hstat Hrm Hr2).
    + unfold getFilePathIfBinary in Hrun. await_inv Hrun. rename a into b.
      apply isBinaryFile_async_resolved in Hcall as [Hbin ->].
      simpl in Hbin. apply String.eqb_neq in Hext.
      assert (Hw1' : fs w1' = fs w1) by (destruct b; now inversion Hrun).
      rewrite Hw1' in Hc.
      destruct (@cleaned_stat _ _ _ _ Hc Hfree Hstat (or_introl Hext))
        as (Hstat' & Hbin').
      specialize (Hbin' _ Hbin). left. split.
      * now apply readdir_lists_child with s' d st.
      * exists [EvStat (path_resolve d c) (Ok st);
                EvIsBinary (path_resolve d c) (Ok b)],
               (if b then Item (path_resolve d c) else Null).
        split; [|split].
        -- unfold walk_child.
           erewrite await_run; [|apply fs_promises_stat_run; exact Hstat'].
           rewrite Hfile. apply String.eqb_neq in Hext. rewrite Hext.
           unfold getFilePathIfBinary.
           erewrite await_run; [|apply isBinaryFile_async_run; exact Hbin'].
           rewrite <- app_assoc. now destruct b.
        -- destruct b; now inversion Hrun.
        -- repeat constructor.
  - assert (Hkeep : extname (path_resolve d c) <> ".cstemp" \/ isFile st = false)
      by now right.
    destruct (isDirectory st && negb (isSymbolicLink st)) eqn:Hdir.
    + await_inv Hrun. rename a into vs.
      inversion Hrun; subst w1' v. clear Hrun.
      pose proof (recurse_cleans (path_resolve d c)
                    (record w1 (EvStat (path_resolve d c) (Ok st)) (fs w1))) as Hcl'.
      rewrite Hcall in Hcl'. simpl in Hcl'.
      destruct (@cleaned_stat _ _ _ _ (@cleaned_trans _ _ _ Hcl' Hc) Hfree Hstat Hkeep)
        as (Hstat' & _).
      left. split; [now apply readdir_lists_child with s' d st|].
      destruct (@recurse_again _ (record w1 (EvStat (path_resolve d c) (Ok st)) (fs w1))
                  _ _ Hfree Hcall s'
                  (t ++ [EvStat (path_resolve d c) (Ok st)]) Hc)
        as (evs & vs' & Hrun' & Hleaves & Hnorm).
      exists (EvStat (path_resolve d c) (Ok st) :: evs).
      exists (Arr (if String.eqb (extname (path_resolve d c)) ".app"
                      || String.eqb (extname (path_resolve d c)) ".framework"
                   then vs' ++ [Item (path_resolve d c)] else vs')).
      split; [|split].
      * unfold walk_child.
        erewrite await_run; [|apply fs_promises_stat_run; exact Hstat'].
        rewrite Hfile, Hdir. erewrite await_run; [|exact Hrun'].
        unfold resolve. rewrite <- app_assoc. reflexivity.
      * destruct (_ || _); cbn [nonnull_leaves];
          rewrite ?flat_map_app; now rewrite Hleaves.
      * constructor; [exact I | assumption].
    + inversion Hrun; subst w1' v. clear Hrun. simpl in Hc.
      destruct (@cleaned_stat _ _ _ _ Hc Hfree Hstat Hkeep) as (Hstat' & _).
      left. split; [now apply readdir_lists_child with s' d st|].
      exists [EvStat (path_resolve d c) (Ok st)], Null.
      split; [|split].
      * unfold walk_child.
        erewrite await_run; [|apply fs_promises_stat_run; exact Hstat'].
        now rewrite Hfile, Hdir.
      * reflexivity.
      * repeat constructor.
Qed.

Lemma walk_children_again d : forall cs wa wb vs,
  (forall cs' w,
      cleaned (fs w)
        (fs (world_of (Promise_all (map (walk_child recurse d) cs') w)))) ->
  link_free (fs wa) = true ->
  Promise_all (map (walk_child recurse d) cs) wa = Resolved wb vs ->
  forall s' t names',
    cleaned (fs wb) s' -> readdir s' d = Ok names' ->
    exists evs vs',
      Promise_all (map (walk_child recurse d) (filter (listed names') cs))
        {| fs := s'; trace := t |}
      = Resolved {| fs := s'; trace := t ++ evs |} vs'
      /\ flat_map nonnull_leaves vs' = flat_map nonnull_leaves vs
      /\ Forall no_removal evs.
Proof.
  intros cs wa wb vs Hcleans. revert wa wb vs.
  induction cs as [|c cs IH]; intros wa wb vs Hfree Hrun s' t names' Hc Hnames';
    cbn [map] in Hrun.
  - inversion Hrun; subst. exists [], []. simpl. unfold resolve.
    rewrite app_nil_r. auto.
  - apply Promise_all_resolved in Hrun as (wc & v & vs_rest & Hcall & Hcall0 & ->).
    pose proof (walk_child_cleans recurse d c wa recurse_cleans) as Hcl1.
    rewrite Hcall in Hcl1. simpl in Hcl1.
    pose proof (Hcleans cs wc) as Hcl2. rewrite Hcall0 in Hcl2. simpl in Hcl2.
    pose proof (@cleaned_link_free _ _ Hcl1 Hfree) as Hfree_c.
    destruct (@walk_child_again d c wa wc v Hfree Hcall s' t names'
                (@cleaned_trans _ _ _ Hcl2 Hc) Hnames')
      as [(Hin & evs1 & v' & Hrun1 & Hleaves1 & Hnorm1)|(Hnotin & Hleaves1)].
    + destruct (IH _ _ _ Hfree_c Hcall0 s' (t ++ evs1) names' Hc Hnames')
        as (evs2 & vs2 & Hrun2 & Hleaves2 & Hnorm2).
      exists (evs1 ++ evs2), (v' :: vs2). split; [|split].
      * cbn [filter]. apply listed_In in Hin. rewrite Hin. cbn [map Promise_all].
        rewrite Hrun1.
        erewrite await_run; [|exact Hrun2].
        unfold resolve. now rewrite app_assoc.
      * simpl. now rewrite Hleaves1, Hleaves2.
      * now apply Forall_app.
    + destruct (IH _ _ _ Hfree_c Hcall0 s' t names' Hc Hnames')
        as (evs2 & vs2 & Hrun2 & Hleaves2 & Hnorm2).
      exists evs2, vs2. split; [|split].
      * cbn [filter]. destruct (listed names' c) eqn:Hl; [|exact Hrun2].
        apply listed_In in Hl. contradiction.
      * simpl. now rewrite Hleaves1, Hleaves2.
      * assumption.
Qed.
End Second_pass.

Lemma _walkAsync_again fuel : forall d w1 w1' vs,
  link_free (fs w1) = true ->
  _walkAsync fuel d w1 = Resolved w1' vs ->
  forall s' t,
    cleaned (fs w1') s' ->
    exists evs vs',
      _walkAsync fuel d {| fs := s'; trace := t |}
      = Resolved {| fs := s'; trace := t ++ evs |} vs'
      /\ flat_map nonnull_leaves vs' = flat_map nonnull_leaves vs
      /\ Forall no_removal evs.
Proof.
  induction fuel as [|fuel IH]; intros d w1 w1' vs Hfree Hrun s' t Hc;
    simpl in Hrun; [discriminate|].
  await_inv Hrun. rename a into children.
  apply fs_promises_readdir_resolved in Hcall as [Hls ->].
  pose proof (walk_children_clean fuel d children
                (record w1 (EvReaddir d (Ok children)) (fs w1))) as Hcl.
  rewrite Hrun in Hcl. simpl in Hcl.
  destruct (@cleaned_readdir _ _ _ _ (@cleaned_trans _ _ _ Hcl Hc) Hls)
    as (keep & Hls').
  destruct (@walk_children_again (_walkAsync fuel) (_walkAsync_cleans fuel) IH d
              children (record w1 (EvReaddir d (Ok children)) (fs w1)) _ _
              (walk_children_clean fuel d) Hfree Hrun s'
              (t ++ [EvReaddir d (Ok (filter keep children))])
              (filter keep children) Hc Hls')
    as (evs & vs' & Hrun' & Hleaves & Hnorm).
  rewrite filter_listed in Hrun'.
  exists (EvReaddir d (Ok (filter keep children)) :: evs), vs'.
  split; [|split].
  - cbn [_walkAsync].
    erewrite await_run; [|apply fs_promises_readdir_run; exact Hls'].
    rewrite Hrun'. now rewrite <- app_assoc.
  - assumption.
  - constructor; [exact I | assumption].
Qed.

(** On a tree without symbolic links a second walk resolves to the output
    of the first, calls [rm] on nothing and leaves the filesystem as the
    first walk left it. *)
Theorem walk_twice_without_links :
  forall fuel s root w out,
    link_free s = true ->
    run_walk fuel s root = Resolved w out ->
    exists evs,
      run_walk fuel (fs w) root = Resolved {| fs := fs w; trace := evs |} out
      /\ Forall no_removal evs.
Proof.
  intros fuel s root w out Hfree Hrun.
  unfold run_walk, walk in Hrun. await_inv Hrun. rename a into vs.
  inversion Hrun; subst w out. clear Hrun.
  destruct (@_walkAsync_again fuel root {| fs := s; trace := [] |} w0 vs
              Hfree Hcall (fs w0) [] (cleaned_refl (fs w0)))
    as (evs & vs' & Hrun' & Hleaves & Hnorm).
  exists evs. split; [|assumption].
  unfold run_walk, walk. erewrite await_run; [|exact Hrun'].
  unfold resolve. simpl. f_equal.
  now rewrite !compactFlattenedList_paths.
Qed.

Lemma walk_twice_without_links_witness :
  exists evs,
    run_walk 10 (fs (world_of (run_walk 10 sample_bundle []))) []
    = Resolved {| fs := fs (world_of (run_walk 10 sample_bundle [])); trace := evs |}
        [["App.app"; "Contents"; "Frameworks"; "Lib.framework"; "Versions"; "A"; "Lib"];
         ["App.app"; "Contents"; "Frameworks"; "Lib.framework"];
         ["App.app"; "Contents"; "MacOS"; "AppBinary"];
         ["App.app"]]
    /\ Forall no_removal evs.
Proof.
  refine (@walk_twice_without_links 10 sample_bundle [] _ _ _ _).
  - reflexivity.
  - vm_compute. reflexivity.
Defined.

(** ** Flattening, composed *)

Section Flatten_composition.
Context {T : Type} `{Truthy T}.

Lemma filter_leaves_items (l : list T) :
  flat_map nonnull_leaves (map Item l) = l.
Proof. induction l as [|x l IH]; simpl; congruence. Qed.
End Flatten_composition.

(** Flattening is idempotent and goes through concatenation and nesting:
    flattening the items of a flattened list gives that list, a list
    nested in a one-element list flattens as the list itself, and the
    concatenation of two lists flattens to the concatenation; every item
    kept is truthy. *)
Theorem compactFlattenedList_idempotent :
  forall (T : Type) (TT : Truthy T) (lst l1 l2 : DeepList T),
    compactFlattenedList (map Item (compactFlattenedList lst))
    = compactFlattenedList lst
    /\ compactFlattenedList [Arr lst] = compactFlattenedList lst
    /\ compactFlattenedList (l1 ++ l2)
       = compactFlattenedList l1 ++ compactFlattenedList l2
    /\ Forall (fun x => truthy x = true) (compactFlattenedList lst).
Proof.
  intros T TT lst l1 l2. rewrite !compactFlattenedList_filter.
  rewrite filter_leaves_items, flat_map_app, filter_app. simpl.
  rewrite app_nil_r. repeat split.
  - apply filter_idem.
  - apply Forall_forall. intros x Hx. now apply filter_In in Hx.
Qed.

(** ** What a walk reports *)

Section Events_since.
Variable s0 : node.
Variable holds : event -> Prop.
Hypothesis holds_readdir :
  forall s p, cleaned s0 s -> holds (EvReaddir p (readdir s p)).
Hypothesis holds_stat :
  forall s p, cleaned s0 s -> holds (EvStat p (stat s p)).
Hypothesis holds_isBinaryFile :
  forall s p, cleaned s0 s -> holds (EvIsBinary p (isBinaryFile s p)).
Hypothesis holds_rm : forall q o r, holds (EvRm q o r).

Lemma events_since fuel root :
  Forall holds (trace (world_of (run_walk fuel s0 root))).
Proof.
  unfold run_walk.
  assert (Hsnoc : forall evs ev, Forall holds evs -> holds ev ->
                                 Forall holds (evs ++ [ev])).
  { intros evs ev Hevs Hev. apply Forall_app. split; [assumption|].
    now constructor. }
  apply (@Stale_walk (fun w => cleaned s0 (fs w) /\ Forall holds (trace w))).
  - intros p w [Hc Hall]. unfold fs_promises_readdir.
    pose proof (Hsnoc _ _ Hall (holds_readdir p Hc)) as Hnew.
    destruct (readdir (fs w) p); split; assumption.
  - intros p w [Hc Hall]. unfold fs_promises_stat.
    pose proof (Hsnoc _ _ Hall (holds_stat p Hc)) as Hnew.
    destruct (stat (fs w) p); split; assumption.
  - intros p st w [Hc Hall] Hst Hfile Hext.
    split; [now apply fs_promises_rm_cleans|].
    assert (Hstat : holds (EvStat p (Ok st)))
      by (rewrite <- Hst; now apply holds_stat).
    unfold fs_promises_rm.
    destruct (rm _ _ _); cbn [world_of record trace fs];
      apply Hsnoc; [apply Hsnoc| |apply Hsnoc|]; auto.
  - intros p w [Hc Hall]. unfold isBinaryFile_async.
    pose proof (Hsnoc _ _ Hall (holds_isBinaryFile p Hc)) as Hnew.
    destruct (isBinaryFile (fs w) p); split; assumption.
  - split; [apply cleaned_refl | constructor].
Qed.
End Events_since.

Lemma cleaned_stat_inv s s' p st :
  cleaned s s' -> stat s' p = Ok st -> stat s p = Ok st.
Proof.
  intros Hc. unfold stat.
  destruct (namei MAXSYMLINKS s' p) as [e|[phys n']] eqn:Hn; [discriminate|].
  destruct (@cleaned_namei_inv _ _ _ _ _ _ Hc Hn) as (n & -> & Hs & _).
  now rewrite Hs.
Qed.

Lemma cleaned_isBinaryFile_inv s s' p b :
  cleaned s s' -> isBinaryFile s' p = Ok b -> isBinaryFile s p = Ok b.
Proof.
  intros Hc. unfold isBinaryFile.
  destruct (namei MAXSYMLINKS s' p) as [e|[phys n']] eqn:Hn; [discriminate|].
  destruct (@cleaned_namei_inv _ _ _ _ _ _ Hc Hn) as (n & -> & _ & Hf).
  destruct n' as [m b'|m entries|t|]; try discriminate.
  now rewrite (Hf _ _ eq_refl).
Qed.

Lemma walk_agrees fuel s root :
  Forall (agrees_with s) (trace (world_of (run_walk fuel s root))).
Proof.
  apply events_since.
  - intros s1 d Hc. destruct (readdir s1 d) as [children|e] eqn:Hr; [|exact I].
    cbn [agrees_with].
    intros Hfree c st Hst Hkeep.
    apply readdir_lists_child with s1 d st; [assumption|].
    now apply (@cleaned_stat _ _ _ _ Hc Hfree Hst Hkeep).
  - intros s1 p Hc. destruct (stat s1 p) as [st|e] eqn:Hst; [|exact I].
    cbn [agrees_with].
    now apply cleaned_stat_inv with s1.
  - intros s1 p Hc. destruct (isBinaryFile s1 p) as [b|e] eqn:Hb; [|exact I].
    cbn [agrees_with].
    now apply cleaned_isBinaryFile_inv with s1.
  - intros q o r. exact I.
Qed.

Lemma walk_log_sound :
  (forall q evs v, child_log q evs v ->
     forall X, In X (nonnull_leaves v) ->
       exists st, In (EvStat X (Ok st)) evs
         /\ ((isFile st = true /\ extname X <> ".cstemp"
              /\ In (EvIsBinary X (Ok true)) evs)
             \/ (isDirectory st = true /\ is_bundle X = true)))
  /\ (forall d evs vs, dir_log d evs vs ->
        forall X, In X (flat_map nonnull_leaves vs) ->
          exists st, In (EvStat X (Ok st)) evs
            /\ ((isFile st = true /\ extname X <> ".cstemp"
                 /\ In (EvIsBinary X (Ok true)) evs)
                \/ (isDirectory st = true /\ is_bundle X = true)))
  /\ (forall d cs evs vs, children_log d cs evs vs ->
        forall X, In X (flat_map nonnull_leaves vs) ->
          exists st, In (EvStat X (Ok st)) evs
            /\ ((isFile st = true /\ extname X <> ".cstemp"
                 /\ In (EvIsBinary X (Ok true)) evs)
                \/ (isDirectory st = true /\ is_bundle X = true))).
Proof.
  apply walk_log_ind.
  - intros q st _ _ X [].
  - intros q st b Hfile Hext X HX. destruct b; [|destruct HX].
    destruct HX as [<-|[]]. exists st. split; [now left|]. left.
    repeat split; try assumption. right. now left.
  - intros q st evs vs Hfile Hdir _ IH X HX.
    assert (Hd : isDirectory st = true)
      by (apply andb_true_iff in Hdir; tauto).
    destruct (is_bundle q) eqn:Hb; cbn [nonnull_leaves] in HX.
    + rewrite flat_map_app in HX. apply in_app_or in HX as [HX|HX].
      * destruct (IH _ HX) as (st' & Hin & [(Hf & He & Hbin)|Hdb]);
          exists st'; (split; [now right|]); [left|right]; auto.
        repeat split; auto. now right.
      * simpl in HX. destruct HX as [<-|[]]. exists st. split; [now left|].
        right. auto.
    + destruct (IH _ HX) as (st' & Hin & [(Hf & He & Hbin)|Hdb]);
        exists st'; (split; [now right|]); [left|right]; auto.
      repeat split; auto. now right.
  - intros q st _ _ X [].
  - intros d children evs vs _ _ IH X HX.
    destruct (IH _ HX) as (st' & Hin & [(Hf & He & Hbin)|Hdb]);
      exists st'; (split; [now right|]); [left|right]; auto.
    repeat split; auto. now right.
  - intros d X [].
  - intros d c cs evs1 v evs2 vs _ IH1 _ IH2 X HX. simpl in HX.
    apply in_app_or in HX as [HX|HX].
    + destruct (IH1 _ HX) as (st' & Hin & [(Hf & He & Hbin)|Hdb]);
        exists st'; (split; [apply in_or_app; now left|]); [left|right]; auto.
      repeat split; auto. apply in_or_app. now left.
    + destruct (IH2 _ HX) as (st' & Hin & [(Hf & He & Hbin)|Hdb]);
        exists st'; (split; [apply in_or_app; now right|]); [left|right]; auto.
      repeat split; auto. apply in_or_app. now right.
Qed.

Lemma run_walk_sound fuel s root w out X :
  run_walk fuel s root = Resolved w out ->
  In X out ->
  inside X root /\ needs_signing s X.
Proof.
  intros Hrun HX.
  pose proof (walk_agrees fuel s root) as Hag. rewrite Hrun in Hag.
  cbn [world_of] in Hag. rewrite Forall_forall in Hag.
  apply run_walk_log in Hrun as (vs & Hlog & ->). split.
  - apply (proj1 (proj2 walk_log_order)) in Hlog as [Hin _].
    rewrite Forall_forall in Hin. now apply Hin.
  - destruct (proj1 (proj2 walk_log_sound) _ _ _ Hlog _ HX)
      as (st & Hin & [(Hf & He & Hbin)|[Hd Hb]]).
    + exists st. split; [exact (Hag _ Hin)|]. left.
      repeat split; try assumption. exact (Hag _ Hbin).
    + exists st. split; [exact (Hag _ Hin)|]. right. auto.
Qed.

(** Everything a walk reports was in need of signing when the walk
    started: each path of the output lies below the root and led, symbolic
    links followed, to a regular file with binary content and an extension
    other than [.cstemp], or to a directory with the extension [.app] or
    [.framework]. *)
Theorem walk_output_sound :
  forall fuel s root w out X,
    run_walk fuel s root = Resolved w out ->
    In X out ->
    inside X root /\ needs_signing s X.
Proof.
  intros fuel s root w out X Hrun HX. eapply run_walk_sound; eassumption.
Qed.

Lemma walk_output_sound_witness :
  inside ["App.app"; "Alias.framework"; "Lib"] ["App.app"]
  /\ needs_signing linked_bundle ["App.app"; "Alias.framework"; "Lib"].
Proof.
  refine (@walk_output_sound 10 linked_bundle ["App.app"] _ _ _ _ _).
  - vm_compute. reflexivity.
  - right. right. now left.
Defined.

(** Without symbolic links a walk that resolves reports exactly what was
    in need of signing below its root when it started. *)
Theorem walk_output_without_links :
  forall fuel s root w out X,
    link_free s = true ->
    run_walk fuel s root = Resolved w out ->
    (In X out <-> inside X root /\ needs_signing s X).
Proof.
  intros fuel s root w out X Hfree Hrun. split.
  - intros HX. eapply run_walk_sound; eassumption.
  - intros [(rel & Hrel & ->) (st & Hst & Hcase)].
    pose proof (walk_agrees fuel s root) as Hag. rewrite Hrun in Hag. cbn [world_of] in Hag.
    rewrite Forall_forall in Hag.
    assert (Hin : In (EvStat (root ++ rel) (Ok st)) (trace w)).
    { destruct rel as [|c0 rel0] using rev_ind; [congruence|]. clear IHrel0.
      rewrite app_assoc in *.
      destruct (@stat_prefix_dir _ _ _ _ Hst) as (st_p & Hst_p & Hdir_p).
      destruct (@walk_reaches_directories _ _ _ _ _ Hrun _ _ Hst_p Hdir_p)
        as (_ & children & Hls).
      assert (Hc : In c0 children).
      { apply (Hag _ Hls Hfree c0 st Hst).
        destruct Hcase as [(_ & He & _)|[Hd _]]; [now left|right].
        now apply isDirectory_not_file. }
      pose proof Hrun as Hlog. apply run_walk_log in Hlog as (vs & Hlog & _).
      destruct (proj1 (proj2 walk_log_visits) _ _ _ Hlog _ _ _ Hls Hc)
        as (st' & Hin').
      pose proof (Hag _ Hin') as Hst'. cbn [agrees_with] in Hst'.
      unfold path_resolve in Hst'. rewrite Hst in Hst'. now inversion Hst'. }
    pose proof Hrun as Hrun'.
    eapply run_walk_sub_log in Hrun' as (evs_p & v_p & Hsub & Hevs & _ & Hout & _);
      [|exact Hin].
    apply Hout.
    destruct Hcase as [(Hf & He & Hbin)|[Hd Hb]].
    + inversion Hsub as [|q st'' b _ _| |]; subst; try congruence.
      assert (Hb : In (EvIsBinary (root ++ rel) (Ok b)) (trace w))
        by (apply Hevs; right; now left).
      apply Hag in Hb. cbn [agrees_with] in Hb. rewrite Hbin in Hb. inversion Hb; subst b.
      now left.
    + pose proof (isDirectory_not_file _ Hd) as Hnofile.
      inversion Hsub as [| |q st'' evs vs' _ _ Hdl|]; subst; try congruence.
      * rewrite Hb. simpl. rewrite flat_map_app. apply in_or_app. right. now left.
      * rewrite (isDirectory_not_link _ Hd) in *. discriminate.
Qed.

Lemma walk_output_without_links_witness :
  In ["App.app"; "Contents"; "MacOS"; "AppBinary"]
    [["App.app"; "Contents"; "Frameworks"; "Lib.framework"; "Versions"; "A"; "Lib"];
     ["App.app"; "Contents"; "Frameworks"; "Lib.framework"];
     ["App.app"; "Contents"; "MacOS"; "AppBinary"];
     ["App.app"]]
  <-> inside ["App.app"; "Contents"; "MacOS"; "AppBinary"] []
      /\ needs_signing sample_bundle ["App.app"; "Contents"; "MacOS"; "AppBinary"].
Proof.
  refine (@walk_output_without_links 10 sample_bundle [] _ _ _ _ _).
  - reflexivity.
  - vm_compute. reflexivity.
Defined.

(** ** No stale file is left *)

Lemma answered_before_walk fuel s root :
  answered_before (world_of (run_walk fuel s root)).
Proof.
  unfold run_walk.
  assert (Hsame : forall w ev,
             answered_before w -> read_fixed (fs w) ev ->
             answered_before (record w ev (fs w))).
  { intros w ev Hw Hev ev' Hin. simpl in Hin |- *.
    apply in_app_or in Hin as [Hin|[<-|[]]]; [now apply Hw|].
    exists (fs w). split; [apply cleaned_refl | assumption]. }
  apply Stale_walk.
  - intros p w Hw. unfold fs_promises_readdir.
    pose proof (Hsame w (EvReaddir p (readdir (fs w) p)) Hw eq_refl) as Hnew.
    now destruct (readdir (fs w) p).
  - intros p w Hw. unfold fs_promises_stat.
    pose proof (Hsame w (EvStat p (stat (fs w) p)) Hw eq_refl) as Hnew.
    now destruct (stat (fs w) p).
  - intros p st w Hw Hst Hfile Hext.
    pose proof (@fs_promises_rm_cleans p st w (fs w) Hst Hfile Hext
                  (cleaned_refl (fs w))) as Hcl.
    assert (Hstat : answered_before (record w (EvStat p (Ok st)) (fs w))).
    { apply Hsame; [assumption|]. simpl. now rewrite Hst. }
    unfold fs_promises_rm in *.
    destruct (rm _ _ _) as [s2|e]; cbn [world_of record fs trace] in *.
    + intros ev Hin. apply in_app_or in Hin as [Hin|[<-|[]]].
      * destruct (Hstat _ Hin) as (s1 & Hc1 & Hr1). exists s1.
        split; [|assumption]. now apply cleaned_trans with (fs w).
      * exists s2. split; [apply cleaned_refl | exact I].
    + intros ev Hin. apply in_app_or in Hin as [Hin|[<-|[]]].
      * now apply Hstat.
      * exists (fs w). split; [apply cleaned_refl | exact I].
  - intros p w Hw. unfold isBinaryFile_async.
    pose proof (Hsame w (EvIsBinary p (isBinaryFile (fs w) p)) Hw eq_refl) as Hnew.
    now destruct (isBinaryFile (fs w) p).
  - intros ev [].
Qed.

Lemma lstat_snoc_inv s parent c st :
  lstat s (parent ++ [c]) = Ok st ->
  exists P m entries n,
    namei MAXSYMLINKS s parent = inr (P, Dir m entries)
    /\ can_search m = true
    /\ lookup_entry c entries = Some n
    /\ st = stats_of n.
Proof.
  unfold lstat. rewrite split_last_snoc.
  destruct (namei MAXSYMLINKS s parent) as [e|[P [m b|m entries|t|]]];
    try discriminate.
  destruct (can_search m) eqn:Hx; [|discriminate].
  destruct (lookup_entry c entries) as [n|] eqn:Hl; [|discriminate].
  intros Heq. inversion Heq. exists P, m, entries, n. auto.
Qed.

Lemma lstat_file_stat s parent c st :
  lstat s (parent ++ [c]) = Ok st -> isSymbolicLink st = false ->
  stat s (parent ++ [c]) = Ok st.
Proof.
  intros Hl Hnolink.
  destruct (@lstat_snoc_inv _ _ _ _ Hl) as (P & m & entries & n & Hp & Hx & Hc & ->).
  unfold stat.
  destruct (namei_app _ _ [c] _ Hp) as (hops' & _ & ->).
  simpl. rewrite Hx, Hc. destruct n; try discriminate; reflexivity.
Qed.

(** After a walk that resolves no regular file with the extension
    [.cstemp] is left below the root, whatever path leads to it. *)
Theorem walk_leaves_no_stale_file :
  forall fuel s root w out rel st,
    run_walk fuel s root = Resolved w out ->
    rel <> [] ->
    lstat (fs w) (root ++ rel) = Ok st -> isFile st = true ->
    extname (root ++ rel) <> ".cstemp".
Proof.
  intros fuel s root w out rel st Hrun Hrel Hl Hfile Hext.
  pose proof (walk_cleans fuel s root) as Hcl.
  pose proof (answered_before_walk fuel s root) as Hans.
  pose proof (removed_gone_walk fuel s root) as Hgone.
  rewrite Hrun in Hcl, Hans, Hgone. cbn [world_of] in Hcl, Hans, Hgone.
  destruct rel as [|c rel'] using rev_ind; [congruence|]. clear IHrel' Hrel.
  rewrite app_assoc in *.
  destruct (@lstat_snoc_inv _ _ _ _ Hl) as (P & m & entries & n & Hp & Hx & Hc & ->).
  assert (Hparent : stat s (root ++ rel') = Ok (stats_of (Dir m entries))).
  { apply cleaned_stat_inv with (fs w); [assumption|].
    unfold stat. now rewrite Hp. }
  destruct (@walk_reaches_directories _ _ _ _ _ Hrun _ _ Hparent eq_refl)
    as (_ & children & Hls).
  destruct (Hans _ Hls) as (s1 & Hc1 & Hr1). cbn [read_fixed] in Hr1.
  symmetry in Hr1.
  destruct (@cleaned_readdir _ _ _ _ Hc1 Hr1) as (keep & Hr').
  assert (Hin : In c children).
  { assert (Hin' : In c (filter keep children)).
    { apply readdir_lists_child with (fs w) (root ++ rel') (stats_of n);
        [assumption|].
      apply lstat_file_stat; [assumption | now destruct n]. }
    now apply filter_In in Hin'. }
  pose proof Hrun as Hlog. apply run_walk_log in Hlog as (vs & Hlog & _).
  destruct (proj1 (proj2 walk_log_visits) _ _ _ Hlog _ _ _ Hls Hin)
    as (st' & Hst').
  destruct (Hans _ Hst') as (s2 & Hc2 & Hr2). cbn [read_fixed] in Hr2.
  pose proof (@cleaned_lstat_inv _ _ _ _ Hc2 Hl) as Hl2.
  apply lstat_file_stat in Hl2; [|now destruct n].
  unfold path_resolve in *. rewrite Hl2 in Hr2. inversion Hr2; subst st'.
  eapply run_walk_sub_log in Hrun as (evs_p & v_p & Hsub & Hevs & _);
    [|exact Hst'].
  inversion Hsub as [q st'' _ _| | |]; subst; try congruence.
  assert (Hrm : In (EvRm ((root ++ rel') ++ [c]) stale_rm_options (Ok tt)) (trace w))
    by (apply Hevs; right; now left).
  apply Hgone in Hrm as (e & Hrm). congruence.
Qed.

Lemma walk_leaves_no_stale_file_witness :
  extname (["App.app"] ++ ["build.cstemp"; "tool"]) <> ".cstemp".
Proof.
  refine (@walk_leaves_no_stale_file 10 cstemp_directory_bundle ["App.app"] _ _
            ["build.cstemp"; "tool"] {| st_type := S_IFREG |} _ _ _ _).
  - vm_compute. reflexivity.
  - discriminate.
  - reflexivity.
  - reflexivity.
Defined.

(** ** Concurrent children: executions *)

Lemma run_schedule_exec schedule : forall s t evs s' t',
  run_schedule schedule s t = Some (evs, s', t') -> exec s t evs s' t'.
Proof.
  induction schedule as [|pos schedule IH]; intros s t evs s' t'; simpl.
  - intros Heq. inversion Heq; subst. constructor.
  - destruct (step_at pos s t) as [[[ev s1] t1]|] eqn:Hstep; [|discriminate].
    destruct (run_schedule schedule s1 t1) as [[[evs1 s2] t2]|] eqn:Hrun;
      [|discriminate].
    intros Heq. inversion Heq; subst.
    eapply exec_step; [exact Hstep | now apply IH].
Qed.

Lemma exec_trans s t evs1 s1 t1 evs2 s2 t2 :
  exec s t evs1 s1 t1 -> exec s1 t1 evs2 s2 t2 -> exec s t (evs1 ++ evs2) s2 t2.
Proof.
  induction 1 as [|pos s t ev sa ta evs sb tb Hstep _ IH]; [auto|].
  intros Hrest. simpl. eapply exec_step; [exact Hstep | now apply IH].
Qed.

Lemma rejection_of_join tasks push rejected :
  rejection_of (join tasks push rejected) = rejected.
Proof.
  unfold join. destruct rejected; [reflexivity|].
  now destruct (all_done tasks).
Qed.

Lemma coherent_join tasks push rejected :
  forallb coherent tasks = true ->
  (rejected = None ->
   forallb (fun c => match rejection_of c with
                     | Some _ => false
                     | None => true
                     end) tasks = true) ->
  coherent (join tasks push rejected) = true.
Proof.
  intros Hall Hnone. unfold join. destruct rejected as [e|].
  - simpl. now rewrite Hall.
  - destruct (all_done tasks); [reflexivity|].
    simpl. now rewrite Hall, Hnone.
Qed.

Lemma forallb_set_nth {A : Type} (P : A -> bool) (x : A) : forall i l,
  forallb P l = true -> P x = true -> forallb P (set_nth i x l) = true.
Proof.
  induction i as [|i IH]; intros [|a l]; simpl; auto.
  - intros Hl Hx. apply andb_true_iff in Hl as [_ Hl]. now rewrite Hx.
  - intros Hl Hx. apply andb_true_iff in Hl as [Ha Hl]. now rewrite Ha, IH.
Qed.

Lemma forallb_nth_error {A : Type} (P : A -> bool) : forall i l x,
  forallb P l = true -> nth_error l i = Some x -> P x = true.
Proof.
  induction i as [|i IH]; intros [|a l] x; simpl; try discriminate.
  - intros Hl Heq. inversion Heq; subst. now apply andb_true_iff in Hl.
  - intros Hl. apply IH. now apply andb_true_iff in Hl.
Qed.

(** A step rejects the task exactly when its call fails and the task had
    not rejected before. *)
Lemma step_at_rejection : forall pos s t ev s1 t1,
  step_at pos s t = Some (ev, s1, t1) ->
  coherent t = true ->
  coherent t1 = true
  /\ rejection_of t1 = match rejection_of t with
                       | Some e => Some e
                       | None => event_error ev
                       end.
Proof.
  induction pos as [|i pos IH]; intros s t ev s1 t1 Hstep Hco.
  - destruct t as [q|q|q|d push|tasks push rejected|v0|e0]; simpl in Hstep;
      try discriminate.
    + injection Hstep as <- <- <-. unfold after_stat.
      destruct (stat s q) as [st|e]; [|now split].
      destruct (isFile st); [destruct (String.eqb _ _); now split|].
      destruct (isDirectory st && negb (isSymbolicLink st)); now split.
    + destruct (rm s q stale_rm_options); injection Hstep as <- <- <-; now split.
    + injection Hstep as <- <- <-.
      destruct (isBinaryFile s q) as [b|e]; now split.
    + injection Hstep as <- <- <-. unfold after_readdir.
      destruct (readdir s d) as [children|e]; [|now split].
      rewrite rejection_of_join. split; [|reflexivity].
      apply coherent_join; [|intros _]; apply forallb_forall;
        intros t Ht; apply in_map_iff in Ht as (c & <- & _); reflexivity.
  - destruct t as [q|q|q|d push|tasks push rejected|v0|e0]; simpl in Hstep;
      try discriminate.
    destruct (nth_error tasks i) as [child|] eqn:Hnth; [|discriminate].
    destruct (step_at pos s child) as [[[ev1 s2] child']|] eqn:Hchild;
      [|discriminate].
    injection Hstep as <- <- <-.
    simpl in Hco. apply andb_true_iff in Hco as [Hall Hrej].
    destruct (IH _ _ _ _ _ Hchild (forallb_nth_error _ _ _ Hall Hnth))
      as [Hco' Hrej'].
    rewrite rejection_of_join. unfold first_rejection. split.
    + apply coherent_join; [now apply forallb_set_nth|].
      destruct rejected as [e|]; [discriminate|]. intros Hnone.
      apply forallb_set_nth; [assumption | now rewrite Hnone].
    + simpl. destruct rejected as [e|]; [reflexivity|].
      rewrite Hrej'.
      pose proof (forallb_nth_error _ _ _ Hrej Hnth) as Hchild_none. simpl in Hchild_none.
      now destruct (rejection_of child).
Qed.

Lemma exec_rejection s t evs s' t' :
  exec s t evs s' t' ->
  coherent t = true ->
  coherent t' = true
  /\ rejection_of t' = match rejection_of t with
                       | Some e => Some e
                       | None => first_error evs
                       end.
Proof.
  induction 1 as [s t|pos s t ev s1 t1 evs s' t' Hstep _ IH]; intros Hco.
  - split; [assumption|]. now destruct (rejection_of t).
  - destruct (step_at_rejection _ _ _ Hstep Hco) as [Hco1 Hrej1].
    destruct (IH Hco1) as [Hco' Hrej']. split; [assumption|].
    rewrite Hrej', Hrej1. simpl.
    destruct (rejection_of t); [reflexivity|].
    now destruct (event_error ev).
Qed.

(** ** The walk is an execution of its tasks *)

Lemma set_nth_split {A : Type} (l1 l2 : list A) (x y : A) :
  set_nth (List.length l1) y (l1 ++ x :: l2) = l1 ++ y :: l2.
Proof. induction l1 as [|a l1 IH]; simpl; [reflexivity | now rewrite IH]. Qed.

Lemma nth_error_middle {A : Type} (l1 l2 : list A) (x : A) :
  nth_error (l1 ++ x :: l2) (List.length l1) = Some x.
Proof. induction l1 as [|a l1 IH]; simpl; [reflexivity | exact IH]. Qed.

Lemma all_done_map_TDone vs : all_done (map TDone vs) = Some vs.
Proof. induction vs as [|v vs IH]; simpl; [reflexivity | now rewrite IH]. Qed.

Lemma all_done_not_done l1 t l2 :
  (forall v, t <> TDone v) -> all_done (l1 ++ t :: l2) = None.
Proof.
  intros Hp. induction l1 as [|a l1 IH]; simpl.
  - destruct t; try reflexivity. now contradiction (Hp v).
  - destruct a; try reflexivity. now rewrite IH.
Qed.

Lemma join_not_done l1 t l2 push rejected :
  (forall v, t <> TDone v) ->
  join (l1 ++ t :: l2) push rejected = TAll (l1 ++ t :: l2) push rejected.
Proof.
  intros Hp. unfold join. destruct rejected; [reflexivity|].
  now rewrite all_done_not_done.
Qed.

Lemma step_at_not_done pos s v : step_at pos s (TDone v) = None.
Proof. now destruct pos. Qed.

(** The steps of a task are steps of the [Promise.all] it belongs to. *)
Lemma exec_in_child s t evs s' t' :
  exec s t evs s' t' ->
  forall l1 l2 push rejected,
    evs <> [] ->
    coherent t = true ->
    (rejected = None -> rejection_of t = None) ->
    exec s (TAll (l1 ++ t :: l2) push rejected) evs s'
      (join (l1 ++ t' :: l2) push (first_rejection rejected t')).
Proof.
  induction 1 as [s t|pos s t ev s1 t1 evs s' t' Hstep Hrest IH];
    intros l1 l2 push rejected Hne Hco Hrej; [congruence|]. clear Hne.
  assert (Hhere : step_at (List.length l1 :: pos) s (TAll (l1 ++ t :: l2) push rejected)
                  = Some (ev, s1, join (l1 ++ t1 :: l2) push (first_rejection rejected t1))).
  { simpl. now rewrite nth_error_middle, Hstep, set_nth_split. }
  destruct (step_at_rejection _ _ _ Hstep Hco) as [Hco1 Hrej1].
  inversion Hrest as [|pos2 ? ? ev2 s2 t2 evs2 ? ? Hstep2 Hrest2]; subst.
  - eapply exec_step; [exact Hhere | apply exec_done].
  - eapply exec_step; [exact Hhere|].
    rewrite join_not_done
      by (intros v ->; now rewrite step_at_not_done in Hstep2).
    replace (first_rejection rejected t')
      with (first_rejection (first_rejection rejected t1) t').
    + apply IH; [discriminate | assumption|].
      unfold first_rejection. destruct rejected; [discriminate | auto].
    + unfold first_rejection. destruct rejected as [e|]; [reflexivity|].
      destruct (exec_rejection Hrest Hco1) as [_ Hrej'].
      rewrite Hrej'. now destruct (rejection_of t1).
Qed.

Lemma step_stat s q :
  step_at [] s (TStat q) = Some (EvStat q (stat s q), s, after_stat q (stat s q)).
Proof. reflexivity. Qed.

Section Children_one_by_one.
Variable recurse : path -> Promise (DeepList path).
Hypothesis recurse_exec :
  forall q w push,
    settled (recurse q w) ->
    exists evs t',
      trace (world_of (recurse q w)) = trace w ++ evs
      /\ exec (fs w) (TReaddir q push) evs (fs (world_of (recurse q w))) t'
      /\ idle t' = true
      /\ finished_as (fun vs => Arr (vs ++ push)) (recurse q w) t'.

Lemma walk_child_exec d c w :
  settled (walk_child recurse d c w) ->
  exists evs t',
    evs <> []
    /\ trace (world_of (walk_child recurse d c w)) = trace w ++ evs
    /\ exec (fs w) (TStat (path_resolve d c)) evs
         (fs (world_of (walk_child recurse d c w))) t'
    /\ idle t' = true
    /\ finished_as (fun v => v) (walk_child recurse d c w) t'.
Proof.
  destruct w as [s tr]. set (q := path_resolve d c).
  pose proof (step_stat s q) as Hfirst.
  assert (Hrm : step_at [] s (TRm q)
                = match rm s q stale_rm_options with
                  | Ok s' => Some (EvRm q stale_rm_options (Ok tt), s', TDone Null)
                  | Err e => Some (EvRm q stale_rm_options (Err e), s, TFailed e)
                  end) by reflexivity.
  assert (Hbin : step_at [] s (TIsBinary q)
                 = Some (EvIsBinary q (isBinaryFile s q), s,
                         after_isBinaryFile q (isBinaryFile s q)))
    by reflexivity.
  unfold walk_child, getFilePathIfBinary, await_then, fs_promises_stat,
    fs_promises_rm, isBinaryFile_async, resolve, record.
  fold q. cbv beta iota zeta delta [fs trace].
  unfold stale_rm_options in Hrm.
  destruct (stat s q) as [st|e] eqn:Hstat.
  2:{ intros _. exists [EvStat q (Err e)], (TFailed e).
      cbv beta iota zeta delta [world_of fs trace finished_as rejection_of idle].
      repeat split; try discriminate.
      eapply exec_step; [exact Hfirst | apply exec_done]. }
  unfold after_stat in Hfirst. cbv beta iota zeta delta [fs trace].
  destruct (isFile st) eqn:Hfile.
  - destruct (String.eqb (extname q) ".cstemp") eqn:Hext.
    + intros _.
      destruct (rm s q {| recursive := true; force := true |}) as [s'|e].
      * exists [EvStat q (Ok st); EvRm q {| recursive := true; force := true |} (Ok tt)],
               (TDone Null).
        cbv beta iota zeta delta [world_of fs trace finished_as rejection_of idle].
        repeat split; try discriminate; [now rewrite <- app_assoc|].
        eapply exec_step; [exact Hfirst|].
        eapply exec_step; [exact Hrm | apply exec_done].
      * exists [EvStat q (Ok st); EvRm q {| recursive := true; force := true |} (Err e)],
               (TFailed e).
        cbv beta iota zeta delta [world_of fs trace finished_as rejection_of idle].
        repeat split; try discriminate; [now rewrite <- app_assoc|].
        eapply exec_step; [exact Hfirst|].
        eapply exec_step; [exact Hrm | apply exec_done].
    + intros _.
      destruct (isBinaryFile s q) as [b|e].
      * exists [EvStat q (Ok st); EvIsBinary q (Ok b)],
               (TDone (if b then Item q else Null)).
        destruct b; cbv beta iota zeta delta [world_of fs trace finished_as rejection_of idle];
          (repeat split; try discriminate; [now rewrite <- app_assoc|]);
          (eapply exec_step; [exact Hfirst|]);
          (eapply exec_step; [exact Hbin | apply exec_done]).
      * exists [EvStat q (Ok st); EvIsBinary q (Err e)], (TFailed e).
        cbv beta iota zeta delta [world_of fs trace finished_as rejection_of idle].
        repeat split; try discriminate; [now rewrite <- app_assoc|].
        eapply exec_step; [exact Hfirst|].
        eapply exec_step; [exact Hbin | apply exec_done].
  - destruct (isDirectory st && negb (isSymbolicLink st)) eqn:Hdir.
    + set (w1 := {| fs := s; trace := tr ++ [EvStat q (Ok st)] |}) in *.
      intros Hs.
      assert (Hs1 : settled (recurse q w1)) by now destruct (recurse q w1).
      destruct (@recurse_exec q w1 (if is_bundle q then [Item q] else []) Hs1)
        as (evs & t' & Htrace & Hexec & Hidle & Hfin).
      exists (EvStat q (Ok st) :: evs), t'.
      assert (Hexec' : exec s (TStat q) (EvStat q (Ok st) :: evs)
                         (fs (world_of (recurse q w1))) t')
        by (eapply exec_step; [exact Hfirst | exact Hexec]).
      unfold is_bundle in *.
      destruct (recurse q w1) as [w2 vs|w2 e|w2]; subst w1;
        cbv beta iota zeta delta [world_of fs trace finished_as] in *;
        try contradiction;
        (split; [discriminate|]);
        (split; [rewrite Htrace; now rewrite <- app_assoc|]);
        (split; [assumption|]); (split; [assumption|]); [|assumption].
      destruct (String.eqb (extname q) ".app" || String.eqb (extname q) ".framework");
        [assumption | now rewrite app_nil_r in Hfin].
    + intros _. exists [EvStat q (Ok st)], (TDone Null).
      cbv beta iota zeta delta [world_of fs trace finished_as rejection_of idle].
      repeat split; try discriminate.
      eapply exec_step; [exact Hfirst | apply exec_done].
Qed.

Lemma idle_join tasks push rejected :
  forallb idle tasks = true -> idle (join tasks push rejected) = true.
Proof.
  intros H. unfold join. destruct rejected; [exact H|].
  destruct (all_done tasks); [reflexivity | exact H].
Qed.

Lemma walk_children_exec d cs :
  forall w before push rejected,
    settled (Promise_all (map (walk_child recurse d) cs) w) ->
    exists evs tasks' rejected',
      trace (world_of (Promise_all (map (walk_child recurse d) cs) w)) = trace w ++ evs
      /\ exec (fs w)
           (join (before ++ map (fun c => TStat (path_resolve d c)) cs) push rejected)
           evs
           (fs (world_of (Promise_all (map (walk_child recurse d) cs) w)))
           (join (before ++ tasks') push rejected')
      /\ forallb idle tasks' = true
      /\ match Promise_all (map (walk_child recurse d) cs) w with
         | Resolved _ vs => tasks' = map TDone vs /\ rejected' = rejected
         | Rejected _ e =>
             rejected' = Some (match rejected with Some e0 => e0 | None => e end)
         | OutOfFuel _ => False
         end.
Proof.
  induction cs as [|c rest IH]; intros w before push rejected Hs.
  - exists [], [], rejected. cbn [map Promise_all resolve world_of].
    rewrite app_nil_r. repeat split. apply exec_done.
  - cbn [map] in *. rewrite Promise_all_cons in *.
    assert (Hs1 : settled (walk_child recurse d c w)).
    { destruct (walk_child recurse d c w); [exact I | exact I|exact Hs]. }
    destruct (walk_child_exec d c w Hs1)
      as (evs1 & t1 & Hne & Htr1 & Hex1 & Hidle1 & Hfin1).
    pose proof (@exec_in_child _ _ _ _ _ Hex1 before
                  (map (fun c => TStat (path_resolve d c)) rest) push rejected
                  Hne eq_refl (fun _ => eq_refl)) as Hin.
    rewrite join_not_done by discriminate.
    set (rejected1 := first_rejection rejected t1) in *.
    destruct (walk_child recurse d c w) as [w1 a|w1 e|w1];
      cbn [world_of finished_as] in *; [| |contradiction].
    + subst t1.
      assert (Hs2 : settled (Promise_all (map (walk_child recurse d) rest) w1)).
      { unfold await_then in Hs.
        destruct (Promise_all (map (walk_child recurse d) rest) w1);
          [exact I | exact I | exact Hs]. }
      destruct (IH w1 (before ++ [TDone a]) push rejected1 Hs2)
        as (evs2 & tasks' & rejected' & Htr2 & Hex2 & Hidle2 & Hout).
      rewrite <- app_assoc in Hex2. cbn [app] in Hex2.
      assert (Hrej1 : rejected1 = rejected)
        by (unfold rejected1, first_rejection; now destruct rejected).
      exists (evs1 ++ evs2), (TDone a :: tasks'), rejected'.
      unfold await_then.
      destruct (Promise_all (map (walk_child recurse d) rest) w1) as [w2 others|w2 e|w2];
        cbn [world_of resolve] in *; [| |contradiction].
      * split; [rewrite Htr2, Htr1; now rewrite app_assoc|].
        split.
        { eapply exec_trans; [exact Hin|].
          rewrite <- app_assoc in Hex2. exact Hex2. }
        split; [exact Hidle2|].
        destruct Hout as [-> ->]. now rewrite Hrej1.
      * split; [rewrite Htr2, Htr1; now rewrite app_assoc|].
        split.
        { eapply exec_trans; [exact Hin|].
          rewrite <- app_assoc in Hex2. exact Hex2. }
        split; [exact Hidle2|].
        now rewrite Hout, Hrej1.
    + assert (Hs2 : settled (Promise_all (map (walk_child recurse d) rest) w1)).
      { unfold in_flight in Hs.
        destruct (Promise_all (map (walk_child recurse d) rest) w1);
          [exact I | exact I | exact Hs]. }
      rewrite world_of_in_flight.
      destruct (IH w1 (before ++ [t1]) push rejected1 Hs2)
        as (evs2 & tasks' & rejected' & Htr2 & Hex2 & Hidle2 & Hout).
      rewrite <- app_assoc in Hex2. cbn [app] in Hex2.
      assert (Hrej1 : rejected1 = Some (match rejected with Some e0 => e0 | None => e end)).
      { unfold rejected1, first_rejection. rewrite Hfin1. now destruct rejected. }
      exists (evs1 ++ evs2), (t1 :: tasks'), rejected'.
      split; [rewrite Htr2, Htr1; now rewrite app_assoc|].
      split.
      { eapply exec_trans; [exact Hin|].
        rewrite <- app_assoc in Hex2. exact Hex2. }
      split; [cbn [forallb]; now rewrite Hidle1, Hidle2|].
      unfold in_flight.
      destruct (Promise_all (map (walk_child recurse d) rest) w1) as [w2 others|w2 e2|w2];
        cbn [world_of] in *; [| |contradiction].
      * destruct Hout as [_ ->]. exact Hrej1.
      * rewrite Hout, Hrej1. reflexivity.
Qed.

End Children_one_by_one.

Lemma _walkAsync_S fuel q w :
  _walkAsync (S fuel) q w
  = match readdir (fs w) q with
    | Ok children =>
        Promise_all (map (walk_child (_walkAsync fuel) q) children)
          (record w (EvReaddir q (Ok children)) (fs w))
    | Err e => Rejected (record w (EvReaddir q (Err e)) (fs w)) e
    end.
Proof.
  cbn [_walkAsync]. unfold await_then, fs_promises_readdir.
  now destruct (readdir (fs w) q).
Qed.

Lemma _walkAsync_exec fuel :
  forall q w push,
    settled (_walkAsync fuel q w) ->
    exists evs t',
      trace (world_of (_walkAsync fuel q w)) = trace w ++ evs
      /\ exec (fs w) (TReaddir q push) evs (fs (world_of (_walkAsync fuel q w))) t'
      /\ idle t' = true
      /\ finished_as (fun vs => Arr (vs ++ push)) (_walkAsync fuel q w) t'.
Proof.
  induction fuel as [|fuel IH]; intros q w push Hs; [contradiction|].
  rewrite _walkAsync_S in *.
  assert (Hfirst : step_at [] (fs w) (TReaddir q push)
                   = Some (EvReaddir q (readdir (fs w) q), fs w,
                           after_readdir q push (readdir (fs w) q))) by reflexivity.
  destruct (readdir (fs w) q) as [children|e] eqn:Hread; cbv beta iota in Hs |- *.
  - set (w1 := record w (EvReaddir q (Ok children)) (fs w)) in *.
    destruct (@walk_children_exec _ IH q children w1 [] push None Hs)
      as (evs & tasks' & rejected' & Htr & Hex & Hidle & Hout).
    cbn [app] in Hex.
    exists (EvReaddir q (Ok children) :: evs), (join tasks' push rejected').
    split; [transitivity (trace w1 ++ evs);
            [exact Htr | unfold w1, record; cbn [trace]; now rewrite <- app_assoc]|].
    split; [eapply exec_step; [exact Hfirst | exact Hex]|].
    split; [now apply idle_join|].
    destruct (Promise_all (map (walk_child (_walkAsync fuel) q) children) w1)
      as [w2 vs|w2 e|w2]; cbn [finished_as]; [| |contradiction].
    + destruct Hout as [-> ->]. unfold join. now rewrite all_done_map_TDone.
    + now rewrite Hout.
  - exists [EvReaddir q (Err e)], (TFailed e).
    repeat split. eapply exec_step; [exact Hfirst | apply exec_done].
Qed.

(** What a call of [walk] does is an execution of the task of its root:
    the calls of the trace, in their order, end in a task in which nothing
    is pending and which has settled as the call has. *)
Lemma run_walk_exec fuel s root :
  settled (run_walk fuel s root) ->
  exists t',
    exec s (TReaddir root []) (trace (world_of (run_walk fuel s root)))
      (fs (world_of (run_walk fuel s root))) t'
    /\ idle t' = true
    /\ settled_as (run_walk fuel s root) t'.
Proof.
  unfold run_walk, walk, await_then. intros Hs.
  set (w := {| fs := s; trace := [] |}) in *.
  assert (Hs1 : settled (_walkAsync fuel root w))
    by now destruct (_walkAsync fuel root w).
  destruct (@_walkAsync_exec fuel root w [] Hs1) as (evs & t' & Htr & Hex & Hidle & Hfin).
  exists t'. change (trace w) with (@nil event) in Htr.
  change (fs w) with s in Hex. cbn [app] in Htr.
  destruct (_walkAsync fuel root w) as [w1 vs|w1 e|w1];
    cbn [world_of resolve finished_as settled_as] in *; [| |contradiction].
  - rewrite Htr. repeat split; try assumption.
    subst t'. cbn [walk_settled walk_output]. now rewrite app_nil_r.
  - rewrite Htr. repeat split; try assumption.
    unfold walk_settled. rewrite Hfin. now destruct t'.
Qed.

(** The order of completion of [walk] is one of the orders of its tasks:
    the calls of a settled [walk], in their order, are an execution of the
    root task that ends with no call pending, in the filesystem the call
    leaves, and with the root task resolved with the output of the call or
    rejected with its error. *)
Theorem walk_is_an_execution :
  forall fuel s root,
    settled (run_walk fuel s root) ->
    exists t',
      exec s (TReaddir root []) (trace (world_of (run_walk fuel s root)))
        (fs (world_of (run_walk fuel s root))) t'
      /\ idle t' = true
      /\ match run_walk fuel s root with
         | Resolved _ out => walk_settled t' = Some (Ok out)
         | Rejected _ e => walk_settled t' = Some (Err e)
         | OutOfFuel _ => False
         end.
Proof. exact run_walk_exec. Qed.

Lemma walk_is_an_execution_witness :
  exists t',
    exec two_ghosts (TReaddir ["App.app"] [])
      (trace (world_of (run_walk 3 two_ghosts ["App.app"])))
      (fs (world_of (run_walk 3 two_ghosts ["App.app"]))) t'
    /\ idle t' = true
    /\ walk_settled t'
       = Some (Err (FsError ENOENT sys_stat ["App.app"; "sub"; "ghost1"])).
Proof.
  assert (Hs : settled (run_walk 3 two_ghosts ["App.app"])) by (vm_compute; exact I).
  destruct (walk_is_an_execution 3 two_ghosts ["App.app"] Hs)
    as (t' & Hexec & Hidle & Hset).
  exists t'. split; [exact Hexec|]. split; [exact Hidle|].
  assert (Hrun : rejection (run_walk 3 two_ghosts ["App.app"])
                 = Some (FsError ENOENT sys_stat ["App.app"; "sub"; "ghost1"]))
    by (vm_compute; reflexivity).
  destruct (run_walk 3 two_ghosts ["App.app"]) as [w out|w e|w];
    cbn [rejection] in Hrun; [discriminate | | contradiction].
  injection Hrun as <-. exact Hset.
Defined.

(** ** Failures *)

Lemma first_error_in evs : forall ev e,
  In ev evs -> event_error ev = Some e -> exists e1, first_error evs = Some e1.
Proof.
  induction evs as [|ev0 evs IH]; intros ev e Hin Herr; [contradiction|].
  cbn [first_error]. destruct Hin as [<-|Hin].
  - rewrite Herr. now exists e.
  - destruct (event_error ev0) as [e0|]; [now exists e0 | now apply IH with ev e].
Qed.

Lemma first_error_first before : forall ev after e,
  (forall ev0, In ev0 before -> event_error ev0 = None) ->
  event_error ev = Some e ->
  first_error (before ++ ev :: after) = Some e.
Proof.
  induction before as [|ev0 before IH]; intros ev after e Hnone Herr; cbn [app first_error].
  - now rewrite Herr.
  - rewrite (Hnone ev0 (or_introl eq_refl)). apply IH; [|assumption].
    intros ev1 Hin. apply Hnone. now right.
Qed.

Lemma walk_settled_rejected t e :
  rejection_of t = Some e -> walk_settled t = Some (Err e).
Proof. intros Hrej. unfold walk_settled. rewrite Hrej. now destruct t. Qed.

(** The root task of every execution has rejected with the error of the
    first call that failed, and stays so. *)
Lemma exec_first_failure s root evs s' t' e1 :
  exec s (TReaddir root []) evs s' t' ->
  first_error evs = Some e1 ->
  walk_settled t' = Some (Err e1)
  /\ forall evs2 s2 t2, exec s' t' evs2 s2 t2 -> walk_settled t2 = Some (Err e1).
Proof.
  intros Hexec Hfirst.
  destruct (exec_rejection Hexec eq_refl) as [Hco Hrej].
  cbn [rejection_of] in Hrej. rewrite Hfirst in Hrej.
  split; [now apply walk_settled_rejected|].
  intros evs2 s2 t2 Hmore. apply walk_settled_rejected.
  destruct (exec_rejection Hmore Hco) as [_ Hrej2]. now rewrite Hrej2, Hrej.
Qed.

(** The same for the order of completion of [run_walk]. *)
Lemma run_walk_first_failure fuel s root e1 :
  settled (run_walk fuel s root) ->
  first_error (trace (world_of (run_walk fuel s root))) = Some e1 ->
  run_walk fuel s root = Rejected (world_of (run_walk fuel s root)) e1.
Proof.
  intros Hs Hfirst.
  destruct (run_walk_exec fuel s root Hs) as (t' & Hexec & _ & Has).
  destruct (exec_first_failure Hexec Hfirst) as [Hset _].
  destruct (run_walk fuel s root) as [w out|w e|w]; cbn [settled_as world_of] in *.
  - congruence.
  - congruence.
  - contradiction.
Qed.

(** C4 (amended): when a call of the walk fails (a directory listing, a
    stat, the removal of a stale artifact or the content inspection of a
    file, at any depth), the walk rejects and resolves to no list.  It
    rejects with the error of the call that failed first, which is the
    error of this call when no call failed before it.  The rejection stops
    no child task: the calls in flight still complete, and the walk stays
    rejected with the same error.  This holds whatever the order in which
    the calls of concurrent children complete, and of [run_walk] once it
    has settled. *)
Theorem walk_rejects_with_first_failure :
  forall s root ev e,
    event_error ev = Some e ->
    (forall evs s' t',
        exec s (TReaddir root []) evs s' t' -> In ev evs ->
        exists e1,
          first_error evs = Some e1
          /\ walk_settled t' = Some (Err e1)
          /\ (forall before after,
                 evs = before ++ ev :: after ->
                 (forall ev0, In ev0 before -> event_error ev0 = None) ->
                 e1 = e)
          /\ (forall evs2 s2 t2,
                 exec s' t' evs2 s2 t2 -> walk_settled t2 = Some (Err e1)))
    /\ (forall fuel,
           settled (run_walk fuel s root) ->
           In ev (trace (world_of (run_walk fuel s root))) ->
           exists e1,
             first_error (trace (world_of (run_walk fuel s root))) = Some e1
             /\ run_walk fuel s root
                = Rejected (world_of (run_walk fuel s root)) e1
             /\ (forall before after,
                    trace (world_of (run_walk fuel s root)) = before ++ ev :: after ->
                    (forall ev0, In ev0 before -> event_error ev0 = None) ->
                    e1 = e)).
Proof.
  intros s root ev e Herr. split.
  - intros evs s' t' Hexec Hin.
    destruct (@first_error_in _ ev e Hin Herr) as (e1 & Hfirst).
    destruct (exec_first_failure Hexec Hfirst) as [Hset Hstay].
    exists e1. split; [assumption|]. split; [assumption|]. split; [|assumption].
    intros before after -> Hnone.
    rewrite (@first_error_first before ev after e Hnone Herr) in Hfirst. congruence.
  - intros fuel Hs Hin.
    destruct (@first_error_in _ ev e Hin Herr) as (e1 & Hfirst).
    exists e1. split; [assumption|]. split; [now apply run_walk_first_failure|].
    intros before after Heq Hnone. rewrite Heq in Hfirst.
    rewrite (@first_error_first before ev after e Hnone Herr) in Hfirst. congruence.
Qed.

Lemma walk_rejects_with_first_failure_witness :
  (exists s' t',
      run_schedule schedule_first_come two_ghosts (TReaddir ["App.app"] [])
      = Some ([EvReaddir ["App.app"] (Ok ["sub"; "zghost"; "z.cstemp"]);
               EvStat ["App.app"; "sub"] (Ok {| st_type := S_IFDIR |});
               EvStat ["App.app"; "zghost"]
                 (Err (FsError ENOENT sys_stat ["App.app"; "zghost"]));
               EvStat ["App.app"; "z.cstemp"] (Ok {| st_type := S_IFREG |});
               EvReaddir ["App.app"; "sub"] (Ok ["ghost1"]);
               EvRm ["App.app"; "z.cstemp"] stale_rm_options (Ok tt);
               EvStat ["App.app"; "sub"; "ghost1"]
                 (Err (FsError ENOENT sys_stat ["App.app"; "sub"; "ghost1"]))],
              s', t')
      /\ walk_settled t' = Some (Err (FsError ENOENT sys_stat ["App.app"; "zghost"])))
  /\ In (EvIsBinary ["App.app"; "Contents"; "Frameworks"; "Lib.framework"; "Lib"]
           (Err (FsError EACCES sys_open
                   ["App.app"; "Contents"; "Frameworks"; "Lib.framework"; "Lib"])))
        (trace (world_of (run_walk 10 unreadable_bundle [])))
  /\ run_walk 10 unreadable_bundle []
     = Rejected (world_of (run_walk 10 unreadable_bundle []))
         (FsError EACCES sys_open
            ["App.app"; "Contents"; "Frameworks"; "Lib.framework"; "Lib"]).
Proof.
  split.
  - destruct (run_schedule schedule_first_come two_ghosts (TReaddir ["App.app"] []))
      as [[[evs s'] t']|] eqn:Hrun; [|vm_compute in Hrun; discriminate].
    pose proof (run_schedule_exec _ _ _ Hrun) as Hexec.
    assert (Hevs : evs
                   = [EvReaddir ["App.app"] (Ok ["sub"; "zghost"; "z.cstemp"]);
                      EvStat ["App.app"; "sub"] (Ok {| st_type := S_IFDIR |});
                      EvStat ["App.app"; "zghost"]
                        (Err (FsError ENOENT sys_stat ["App.app"; "zghost"]));
                      EvStat ["App.app"; "z.cstemp"] (Ok {| st_type := S_IFREG |});
                      EvReaddir ["App.app"; "sub"] (Ok ["ghost1"]);
                      EvRm ["App.app"; "z.cstemp"] stale_rm_options (Ok tt);
                      EvStat ["App.app"; "sub"; "ghost1"]
                        (Err (FsError ENOENT sys_stat ["App.app"; "sub"; "ghost1"]))]).
    { vm_compute in Hrun. now injection Hrun as <- _ _. }
    exists s', t'. split; [now rewrite Hevs|].
    assert (Hin : In (EvStat ["App.app"; "zghost"]
                        (Err (FsError ENOENT sys_stat ["App.app"; "zghost"]))) evs)
      by (rewrite Hevs; right; right; left; reflexivity).
    destruct (proj1 (@walk_rejects_with_first_failure two_ghosts ["App.app"]
                       (EvStat ["App.app"; "zghost"]
                          (Err (FsError ENOENT sys_stat ["App.app"; "zghost"])))
                       (FsError ENOENT sys_stat ["App.app"; "zghost"]) eq_refl)
                _ _ _ Hexec Hin) as (e1 & Hfirst & Hset & _).
    rewrite Hevs in Hfirst. vm_compute in Hfirst. injection Hfirst as <-. exact Hset.
  - assert (Hin : In (EvIsBinary ["App.app"; "Contents"; "Frameworks"; "Lib.framework"; "Lib"]
                        (Err (FsError EACCES sys_open
                                ["App.app"; "Contents"; "Frameworks"; "Lib.framework"; "Lib"])))
                     (trace (world_of (run_walk 10 unreadable_bundle []))))
      by (vm_compute; tauto).
    split; [exact Hin|].
    assert (Hs : settled (run_walk 10 unreadable_bundle [])) by (vm_compute; exact I).
    destruct (proj2 (@walk_rejects_with_first_failure unreadable_bundle []
                       (EvIsBinary ["App.app"; "Contents"; "Frameworks"; "Lib.framework"; "Lib"]
                          (Err (FsError EACCES sys_open
                                  ["App.app"; "Contents"; "Frameworks"; "Lib.framework"; "Lib"])))
                       (FsError EACCES sys_open
                          ["App.app"; "Contents"; "Frameworks"; "Lib.framework"; "Lib"])
                       eq_refl)
                10 Hs Hin) as (e1 & Hfirst & Hrej & _).
    vm_compute in Hfirst. injection Hfirst as <-. exact Hrej.
Defined.

(** C4 as stated fails: two calls of one walk fail, and the walk rejects
    with the error of one of them only, the one that failed first.  Which
    one that is depends on the order of completion. *)
Lemma walk_rejects_with_another_error :
  (exists evs s' t' e,
      run_schedule schedule_first_come two_ghosts (TReaddir ["App.app"] [])
      = Some (evs, s', t')
      /\ In (EvStat ["App.app"; "sub"; "ghost1"] (Err e)) evs
      /\ walk_settled t' = Some (Err (FsError ENOENT sys_stat ["App.app"; "zghost"]))
      /\ walk_settled t' <> Some (Err e))
  /\ (exists e,
         In (EvStat ["App.app"; "zghost"] (Err e))
            (trace (world_of (run_walk 3 two_ghosts ["App.app"])))
         /\ rejection (run_walk 3 two_ghosts ["App.app"])
            = Some (FsError ENOENT sys_stat ["App.app"; "sub"; "ghost1"])
         /\ rejection (run_walk 3 two_ghosts ["App.app"]) <> Some e).
Proof.
  split.
  - do 3 eexists. exists (FsError ENOENT sys_stat ["App.app"; "sub"; "ghost1"]).
    split; [vm_compute; reflexivity|].
    split; [do 6 right; left; reflexivity|].
    split; [reflexivity | discriminate].
  - exists (FsError ENOENT sys_stat ["App.app"; "zghost"]).
    split; [vm_compute; tauto|]. split; [vm_compute; reflexivity|].
    vm_compute. discriminate.
Qed.

(** ** Concurrent children: the values stand in the order of the listing *)

Lemma Forall2_nth_error_r {A B : Type} (R : A -> B -> Prop) : forall i l l' b,
  Forall2 R l l' -> nth_error l' i = Some b ->
  exists a, nth_error l i = Some a /\ R a b.
Proof.
  induction i as [|i IH]; intros l l' b Hall Hnth;
    destruct Hall as [|a b' l l' Hab Hall]; simpl in Hnth; try discriminate.
  - inversion Hnth; subst. now exists a.
  - now apply IH with l'.
Qed.

Lemma Forall2_set_nth {A B : Type} (R : A -> B -> Prop) : forall i l l' a b,
  Forall2 R l l' -> nth_error l i = Some a -> R a b ->
  Forall2 R l (set_nth i b l').
Proof.
  induction i as [|i IH]; intros l l' a b Hall Hnth Hab;
    destruct Hall as [|a' b' l l' Hab' Hall]; simpl in *; try discriminate.
  - inversion Hnth; subst. now constructor.
  - constructor; [assumption|]. now apply IH with a.
Qed.

Lemma assembled_of_dir evs q items :
  walked evs q (bundle_push q) items -> assembled evs q (Arr items).
Proof. intros (children & vs & Hin & Hall & ->). now apply assembled_arr with children. Qed.

Lemma task_of_done_inv evs q v : task_of evs q (TDone v) -> assembled evs q v.
Proof.
  intros H. inversion H as [| | |? ? Hdir|? ? Hv|]; subst; [|assumption].
  inversion Hdir; subst. now apply assembled_of_dir.
Qed.

Lemma all_done_assembled evs d : forall children tasks vs,
  Forall2 (fun child t => task_of evs (path_resolve d child) t) children tasks ->
  all_done tasks = Some vs ->
  Forall2 (fun child v => assembled evs (path_resolve d child) v) children vs.
Proof.
  intros children tasks vs Hall. revert vs.
  induction Hall as [|c t children tasks Ht Hall IH]; intros vs Hdone; simpl in Hdone.
  - inversion Hdone. constructor.
  - destruct t; try discriminate.
    destruct (all_done tasks) as [vs'|]; [|discriminate].
    inversion Hdone; subst. constructor; [now apply task_of_done_inv | now apply IH].
Qed.

Lemma dir_task_of_join evs d push children tasks rejected :
  In (EvReaddir d (Ok children)) evs ->
  Forall2 (fun child t => task_of evs (path_resolve d child) t) children tasks ->
  dir_task_of evs d push (join tasks push rejected).
Proof.
  intros Hin Hall. unfold join.
  destruct rejected as [e|]; [now apply dir_task_all with children|].
  destruct (all_done tasks) as [vs|] eqn:Hdone; [|now apply dir_task_all with children].
  apply dir_task_done. exists children, vs.
  split; [assumption|]. split; [|reflexivity]. now apply all_done_assembled with tasks.
Qed.

Lemma started_tasks evs d children :
  Forall2 (fun child t => task_of evs (path_resolve d child) t) children
    (map (fun child => TStat (path_resolve d child)) children).
Proof. induction children; constructor; [apply task_of_stat | assumption]. Qed.

Lemma step_at_task_of evs : forall pos s t ev s1 t1,
  step_at pos s t = Some (ev, s1, t1) ->
  In ev evs ->
  (forall q, task_of evs q t -> task_of evs q t1)
  /\ (forall d push, dir_task_of evs d push t -> dir_task_of evs d push t1).
Proof.
  induction pos as [|i pos IH]; intros s t ev s1 t1 Hstep Hin.
  - assert (Hdir : forall d push, dir_task_of evs d push t -> dir_task_of evs d push t1).
    { intros d push Ht. inversion Ht; subst; simpl in Hstep; try discriminate.
      injection Hstep as <- <- <-. unfold after_readdir.
      destruct (readdir s d) as [children|e]; [|apply dir_task_failed].
      apply dir_task_of_join with children; [assumption | apply started_tasks]. }
    split; [|exact Hdir].
    intros q Ht. inversion Ht as [| | |? ? Hd| |]; subst; simpl in Hstep;
      try discriminate.
    + injection Hstep as <- <- <-. unfold after_stat.
      destruct (stat s q) as [st|e]; [|apply task_of_failed].
      destruct (isFile st).
      * destruct (String.eqb _ _); [apply task_of_rm | apply task_of_isBinary].
      * destruct (isDirectory st && negb (isSymbolicLink st)).
        -- apply task_of_dir. apply dir_task_readdir.
        -- apply task_of_done, assembled_null.
    + destruct (rm s q stale_rm_options); injection Hstep as <- <- <-.
      * apply task_of_done, assembled_null.
      * apply task_of_failed.
    + injection Hstep as <- <- <-. unfold after_isBinaryFile.
      destruct (isBinaryFile s q) as [[|]|e].
      * apply task_of_done, assembled_item.
      * apply task_of_done, assembled_null.
      * apply task_of_failed.
    + apply task_of_dir. now apply Hdir.
  - assert (Hdir : forall d push, dir_task_of evs d push t -> dir_task_of evs d push t1).
    { intros d push Ht.
      inversion Ht as [|? ? children tasks rejected Hlist Hall| |]; subst;
        simpl in Hstep; try discriminate.
      destruct (nth_error tasks i) as [child|] eqn:Hnth; [|discriminate].
      destruct (step_at pos s child) as [[[ev1 s2] child']|] eqn:Hchild;
        [|discriminate].
      injection Hstep as <- <- <-.
      destruct (Forall2_nth_error_r _ Hall Hnth) as (c & Hc & Hchild_of).
      apply dir_task_of_join with children; [assumption|].
      apply Forall2_set_nth with c; [assumption | assumption|].
      now apply (proj1 (IH _ _ _ _ _ Hchild Hin)). }
    split; [|exact Hdir].
    intros q Ht. inversion Ht as [| | |? ? Hd| |]; subst; simpl in Hstep;
      try discriminate.
    apply task_of_dir. now apply Hdir.
Qed.

Lemma exec_dir_task_of s t evs s' t' :
  exec s t evs s' t' ->
  forall all d push,
    incl evs all -> dir_task_of all d push t -> dir_task_of all d push t'.
Proof.
  induction 1 as [|pos s t ev s1 t1 evs s' t' Hstep _ IH]; intros all d push Hincl Ht;
    [assumption|].
  apply IH; [intros x Hx; apply Hincl; now right|].
  apply (proj2 (@step_at_task_of all _ _ _ _ _ _ Hstep (Hincl _ (or_introl eq_refl)))).
  exact Ht.
Qed.

Lemma within_child d c : within (path_resolve d c) d.
Proof. now exists [c]. Qed.

Lemma assembled_within evs v : forall q,
  assembled evs q v -> Forall (fun X => within X q) (nonnull_leaves v).
Proof.
  induction v as [|x|items IH] using DeepListItem_nested_ind; intros q Hv.
  - constructor.
  - inversion Hv; subst. repeat constructor. apply within_refl.
  - inversion Hv as [| |? children vs Hin Hall]; subst.
    cbn [nonnull_leaves]. rewrite flat_map_app. apply Forall_app. split.
    + apply Forall_app in IH as [IH _]. clear Hv Hin.
      induction Hall as [|c v children vs Hcv Hall IHall]; [constructor|].
      inversion IH as [|? ? Hv IH']; subst. cbn [flat_map]. apply Forall_app. split.
      * eapply Forall_impl; [|exact (Hv _ Hcv)].
        intros X HX. exact (within_trans HX (within_child q c)).
      * now apply IHall.
    + unfold bundle_push. destruct (is_bundle q); repeat constructor.
      apply within_refl.
Qed.

Lemma compactFlattenedList_one_by_one (lst : DeepList path) :
  compactFlattenedList lst = flat_map (fun v => compactFlattenedList [v]) lst.
Proof.
  induction lst as [|v lst IH]; [reflexivity|].
  cbn [flat_map]. rewrite compactFlattenedList_cons, <- IH.
  f_equal. rewrite (compactFlattenedList_cons v []).
  change (compactFlattenedList (@nil (DeepListItem path))) with (@nil path).
  now rewrite app_nil_r.
Qed.

Lemma assembled_contribution evs q v :
  assembled evs q v -> Forall (fun X => within X q) (compactFlattenedList [v]).
Proof.
  intros Hv. rewrite compactFlattenedList_filter. cbn [flat_map].
  rewrite app_nil_r. apply Forall_forall. intros X HX.
  apply filter_In in HX as [HX _].
  pose proof (assembled_within Hv) as Hall. rewrite Forall_forall in Hall. auto.
Qed.

(** Whatever the order in which the calls complete, a walk that resolves
    has assembled its value in the order of the listings. *)
Lemma exec_listing_order s root evs s' v :
  exec s (TReaddir root []) evs s' (TDone v) ->
  exists children vs,
    v = Arr vs
    /\ In (EvReaddir root (Ok children)) evs
    /\ Forall2 (fun child v => assembled evs (path_resolve root child) v) children vs
    /\ walk_output v = flat_map (fun v => compactFlattenedList [v]) vs
    /\ Forall2 (fun child v =>
                  Forall (fun X => within X (path_resolve root child))
                    (compactFlattenedList [v])) children vs.
Proof.
  intros Hexec.
  pose proof (@exec_dir_task_of _ _ _ _ _ Hexec evs root [] (incl_refl _)
                (dir_task_readdir evs root [])) as Hdone.
  inversion Hdone as [| |? ? items (children & vs & Hin & Hall & Hitems)|]; subst.
  rewrite app_nil_r. exists children, vs.
  split; [reflexivity|]. split; [assumption|]. split; [assumption|].
  split; [apply compactFlattenedList_one_by_one|].
  clear Hdone Hin Hexec. induction Hall as [|c v children vs Hcv Hall IH];
    [constructor|].
  constructor; [|assumption]. now apply assembled_contribution with evs.
Qed.

(** C9 fails on the code.  What holds, whatever the order in which the
    calls of concurrent children complete: a walk that resolves has put the
    values of the children of a directory in the order of its listing, so
    its output is the contributions of the children of the root, in that
    order, each made of paths at or below its child.  What fails: from one
    filesystem, with a symbolic link to a directory that holds a stale
    artifact, one order of completion resolves (the one of [run_walk]) and
    another rejects, because [stat] follows the link to the artifact that
    has been removed through the directory. *)
Theorem walk_outcome_depends_on_completion_order :
  forall extra,
    (forall s root evs s' v,
        exec s (TReaddir root []) evs s' (TDone v) ->
        exists children vs,
          v = Arr vs
          /\ In (EvReaddir root (Ok children)) evs
          /\ Forall2 (fun child v => assembled evs (path_resolve root child) v)
               children vs
          /\ walk_output v = flat_map (fun v => compactFlattenedList [v]) vs
          /\ Forall2 (fun child v =>
                        Forall (fun X => within X (path_resolve root child))
                          (compactFlattenedList [v])) children vs)
    /\ lstat aliased_stale_bundle ["App.app"; "Alias"] = Ok {| st_type := S_IFLNK |}
    /\ (exists evs s' t',
           run_schedule schedule_real_first aliased_stale_bundle
             (TReaddir ["App.app"] []) = Some (evs, s', t')
           /\ idle t' = true
           /\ walk_settled t'
              = Some (Ok [["App.app"; "Real"; "tool"]; ["App.app"; "Alias"; "tool"]]))
    /\ (exists evs s' t',
           run_schedule schedule_listed_first aliased_stale_bundle
             (TReaddir ["App.app"] []) = Some (evs, s', t')
           /\ idle t' = true
           /\ walk_settled t'
              = Some (Err (FsError ENOENT sys_stat ["App.app"; "Alias"; "foo.cstemp"])))
    /\ resolved_value (run_walk (10 + extra) aliased_stale_bundle ["App.app"])
       = Some [["App.app"; "Real"; "tool"]; ["App.app"; "Alias"; "tool"]].
Proof.
  intros extra. split; [intros s root evs s' v; apply exec_listing_order|].
  split; [reflexivity|].
  split; [do 3 eexists; split; [vm_compute; reflexivity | split; reflexivity]|].
  split; [do 3 eexists; split; [vm_compute; reflexivity | split; reflexivity]|].
  rewrite run_walk_more_fuel; [vm_compute; reflexivity|].
  vm_compute. exact I.
Qed.

Lemma walk_outcome_depends_on_completion_order_witness :
  exists evs s',
    run_schedule schedule_reversed two_frameworks (TReaddir [] [])
    = Some (evs, s',
            TDone (Arr [Arr [Item ["A.framework"; "A"]; Null; Item ["A.framework"]];
                        Arr [Item ["B.framework"; "B"]; Item ["B.framework"]]]))
    /\ exists children vs,
         Arr [Arr [Item ["A.framework"; "A"]; Null; Item ["A.framework"]];
              Arr [Item ["B.framework"; "B"]; Item ["B.framework"]]] = Arr vs
         /\ In (EvReaddir [] (Ok children)) evs
         /\ Forall2 (fun child v => assembled evs (path_resolve [] child) v)
              children vs
         /\ walk_output
              (Arr [Arr [Item ["A.framework"; "A"]; Null; Item ["A.framework"]];
                    Arr [Item ["B.framework"; "B"]; Item ["B.framework"]]])
            = flat_map (fun v => compactFlattenedList [v]) vs
         /\ Forall2 (fun child v =>
                       Forall (fun X => within X (path_resolve [] child))
                         (compactFlattenedList [v])) children vs.
Proof.
  destruct (run_schedule schedule_reversed two_frameworks (TReaddir [] []))
    as [[[evs s'] t']|] eqn:Hrun; [|vm_compute in Hrun; discriminate].
  pose proof (run_schedule_exec _ _ _ Hrun) as Hexec.
  assert (Ht : t' = TDone (Arr [Arr [Item ["A.framework"; "A"]; Null; Item ["A.framework"]];
                                Arr [Item ["B.framework"; "B"]; Item ["B.framework"]]])).
  { vm_compute in Hrun. now injection Hrun as _ _ <-. }
  rewrite Ht in Hexec. exists evs, s'. split; [now rewrite Ht|].
  exact (proj1 (walk_outcome_depends_on_completion_order 0) _ _ _ _ _ Hexec).
Defined.
